(** * A shallow embedding of the CEAM/vivarium simulation kernel

    Sources embedded here:
    - [util.py]: [sort_modules], [from_yearly_rate], [rate_to_probability],
      [mask_for_rate], [only_living];
    - [engine.py]: [EventHandler], [Simulation], [BaseSimulationModule];
    - [vivarium/interpolation.py]: [Interpolation], [validate_parameters],
      [validate_call_data].

    Conventions.  The floats on which the embedded code computes (ages,
    rates, probabilities, years lived with disability) are IEEE 754
    binary64 values, Rocq's primitive [float]s, with the rounding of every
    operation; [numpy.exp], which belongs to the C library, is a parameter.
    The cells of the columns that other modules contribute to the
    population and the values that scipy's functions return are only
    stored, and are kept as rationals.  A Python [set] is a [gset], a
    [dict] a [gmap]; the order in which Python iterates over a set is not
    fixed by the language and is taken as a parameter.  A raised exception
    is the [Raise] outcome of a [result]. *)

From Stdlib Require Import ZArith QArith Qround Floats Lia.
From stdpp Require Import base option list sorting strings gmap.

Local Open Scope Z_scope.
#[local] Set Warnings "-clear-no-such-hyp".
#[local] Set Warnings "-inexact-float".

(** ** Exceptions *)

(** Keys whose lookup can fail. *)
Inductive pykey : Type :=
| KName (c : string)
| KPriority (label : option string) (listener : string)
| KGroup (k : list Z).

(** The exceptions the embedded code can raise. *)
Inductive exn : Type :=
| KeyError (k : pykey)
| NameError (name : string)
| ValueError (msg : string)
| IndexError (msg : string)
| ListenerError (msg : string).

(** The name of the exception's class. *)
Definition exn_name (e : exn) : string :=
  match e with
  | KeyError _ => "KeyError"
  | NameError _ => "NameError"
  | ValueError _ => "ValueError"
  | IndexError _ => "IndexError"
  | ListenerError _ => "Exception"
  end.

Inductive result (A : Type) : Type :=
| Ok (a : A)
| Raise (e : exn).
Arguments Ok {A} a.
Arguments Raise {A} e.

Definition rbind {A B : Type} (r : result A) (k : A -> result B) : result B :=
  match r with
  | Ok a => k a
  | Raise e => Raise e
  end.

Notation "x <- r ;; k" := (rbind r (fun x => k))
  (at level 100, r at next level, right associativity).

(** A [for] loop whose body may raise: the first exception ends the loop. *)
Fixpoint for_each {A S : Type} (body : S -> A -> result S) (xs : list A) (s : S)
  : result S :=
  match xs with
  | [] => Ok s
  | x :: rest => s' <- body s x ;; for_each body rest s'
  end.

(** A list comprehension whose element expression may raise. *)
Fixpoint comprehension {A B : Type} (f : A -> result B) (xs : list A)
  : result (list B) :=
  match xs with
  | [] => Ok []
  | x :: rest => y <- f x ;; ys <- comprehension f rest ;; Ok (y :: ys)
  end.

(** ** Python floats

    A Python [float] and a cell of a [float64] column are binary64 values:
    [+], [-], [*] and [/] round to nearest, ties to even, nothing compares
    with NaN and the two zeros are equal. *)

Module Float64.

(** [float(n)] for an [int]: the nearest double.  An [int] below [2 ^ 53]
    in absolute value is a double itself. *)
Definition of_int (n : Z) : float :=
  SF2Prim (binary_normalize prec emax n 0 false).

(** [a / b] on two [int]s, [b] positive: Python rounds the exact quotient,
    once, whatever the size of [a]. *)
Definition true_divide (a : Z) (b : positive) : float :=
  match a with
  | 0 => 0%float
  | Zpos p => SF2Prim (SF64div (S754_finite false p 0) (S754_finite false b 0))
  | Zneg p => SF2Prim (SF64div (S754_finite true p 0) (S754_finite false b 0))
  end.

(** Neither NaN nor an infinity. *)
Definition finite (x : float) : bool :=
  match Prim2SF x with
  | S754_zero _ | S754_finite _ _ _ => true
  | _ => false
  end.

(** The number a finite double stands for. *)
Definition value (x : float) : Q :=
  match Prim2SF x with
  | S754_finite s m e =>
      if 0 <=? e then inject_Z (cond_Zopp s (Zpos m) * 2 ^ e)
      else cond_Zopp s (Zpos m) # Z.to_pos (2 ^ (- e))
  | _ => 0
  end.

(** A double from 0 to 1, both included. *)
Definition in_unit (x : float) : Prop :=
  (0 <=? x)%float = true /\ (x <=? 1)%float = true.

End Float64.

(** ** [util.py]: rate arithmetic *)

Module Util.

(** [datetime.timedelta], normalised as Python stores it. *)
Record timedelta : Type := mk_timedelta {
  days : Z;
  seconds : Z;
  microseconds : Z
}.

Definition total_microseconds (d : timedelta) : Z :=
  (days d * 86400 + seconds d) * 1000000 + microseconds d.

(** [timedelta.total_seconds()]: the microseconds over [10 ** 6], a
    division of two [int]s. *)
Definition total_seconds (d : timedelta) : float :=
  Float64.true_divide (total_microseconds d) 1000000.

(** [60*60*24*365.0] *)
Definition seconds_per_year : float := 31536000%float.

(** [from_yearly_rate(rate, time_step)] *)
Definition from_yearly_rate (rate : float) (time_step : timedelta) : float :=
  (rate * (total_seconds time_step / seconds_per_year))%float.

(** [rate_to_probability(rate)]: [1 - np.exp(-rate)].  [np_exp] is what
    [numpy.exp] returns on a double: the exponential as the C library
    computes it, whose last bit no standard fixes. *)
Definition rate_to_probability (np_exp : float -> float) (rate : float) : float :=
  (1 - np_exp (- rate))%float.

(** *** [sort_modules]

    The routine only looks at a module's identity and at its
    [DEPENDENCIES]; both are taken as projections of an arbitrary module
    type.  The registry holds one instance per class, so an object's
    identity is its class.  [to_sort] lists the set in the order in which
    [set.pop()] hands its elements out, [DEPENDENCIES] in the order in
    which the [for] loop visits the set. *)

Section SortModules.
Context {M : Type}.
Variable cls : M -> string.
Variable DEPENDENCIES : M -> list string.

(** [a == b] on module objects. *)
Definition same_module (a b : M) : bool := bool_decide (cls a = cls b).

(** [l.index(x)]; [None] stands for the [ValueError] of a missing element. *)
Fixpoint index (l : list M) (x : M) : option nat :=
  match l with
  | [] => None
  | y :: rest => if same_module y x then Some O else S <$> index rest x
  end.

(** [modules_registry[dependency]] *)
Definition registry_get (modules_registry : gmap string M) (dependency : string)
  : result M :=
  match modules_registry !! dependency with
  | Some m => Ok m
  | None => Raise (KeyError (KName dependency))
  end.

(** One turn of the loop over [current.DEPENDENCIES].  The handler of
    [ValueError] evaluates the arguments of its call to [inner_sort] from
    left to right; the second one is the name [modules], which is bound
    nowhere, so the handler raises [NameError] and the recursive call is
    never made. *)
Definition visit_dependency (modules_registry : gmap string M)
    (sorted_modules : list M) (i : nat) (dependency : string) : result nat :=
  m <- registry_get modules_registry dependency ;;
  match index sorted_modules m with
  | Some j => Ok (Nat.max i j)
  | None => Raise (NameError "modules")
  end.

Definition inner_sort (modules_registry : gmap string M)
    (sorted_modules : list M) (current : M) : result (list M) :=
  match DEPENDENCIES current with
  | [] => Ok (current :: sorted_modules)
  | deps =>
      i <- for_each (visit_dependency modules_registry sorted_modules) deps O ;;
      Ok (take (S i) sorted_modules ++ [current] ++ drop (S i) sorted_modules)
  end.

(** [to_sort.difference(sorted_modules)] is non-empty. *)
Definition difference_nonempty (to_sort sorted_modules : list M) : bool :=
  existsb (fun m => negb (bool_decide (is_Some (index sorted_modules m)))) to_sort.

Fixpoint sort_loop (modules_registry : gmap string M)
    (to_sort sorted_modules : list M) : result (list M) :=
  match to_sort with
  | [] => Ok sorted_modules
  | current :: rest =>
      if difference_nonempty to_sort sorted_modules then
        sorted_modules' <- inner_sort modules_registry sorted_modules current ;;
        sort_loop modules_registry rest sorted_modules'
      else Ok sorted_modules
  end.

Definition sort_modules (to_sort : list M) (modules_registry : gmap string M)
  : result (list M) :=
  sort_loop modules_registry to_sort [].

End SortModules.

End Util.

(** ** [engine.py]: the event bus *)

(** [sorted(xs, key=key)]: Python's sort is stable; so is this insertion
    sort, which puts an element before the first later element whose key is
    not smaller. *)
Fixpoint insert_by_key {A : Type} (key : A -> Z) (x : A) (l : list A) : list A :=
  match l with
  | [] => [x]
  | y :: rest =>
      if key x <=? key y then x :: y :: rest else y :: insert_by_key key x rest
  end.

Fixpoint sorted {A : Type} (key : A -> Z) (l : list A) : list A :=
  match l with
  | [] => []
  | x :: rest => insert_by_key key x (sorted key rest)
  end.

Module EventHandler.

(** A listener is a callable; the sets and the dictionary of the handler
    hold it by identity, here its name.  A label is a string or [None]. *)
Record t : Type := mk {
  _listeners : gmap (option string) (gset string);
  _generic_listeners : gset string;
  _listener_priorities : gmap (option string * string) Z
}.

(** [EventHandler.__init__] *)
Definition init : t := mk ∅ ∅ ∅.

(** The test [if label:]: [None] and the empty string are false. *)
Definition truthy (label : option string) : bool :=
  match label with
  | Some s => negb (String.eqb s "")
  | None => false
  end.

(** [self._listeners[label]] on the [defaultdict(set)]; the empty set that
    a first read leaves behind in the dictionary is not recorded. *)
Definition listeners_at (h : t) (label : option string) : gset string :=
  default ∅ (_listeners h !! label).

(** [register_event_listener(listener, label=None, priority=10)] *)
Definition register_event_listener (h : t) (listener : string)
    (label : option string) (priority : Z) : t :=
  let h' :=
    if truthy label then
      mk (<[label := {[listener]} ∪ listeners_at h label]> (_listeners h))
         (_generic_listeners h) (_listener_priorities h)
    else
      mk (_listeners h) ({[listener]} ∪ _generic_listeners h)
         (_listener_priorities h) in
  mk (_listeners h') (_generic_listeners h')
     (<[(label, listener) := priority]> (_listener_priorities h')).

(** [deregister_event_listener(listener, label=None)]: [set.remove] and
    [del] raise [KeyError] on a missing element. *)
Definition deregister_event_listener (h : t) (listener : string)
    (label : option string) : result t :=
  h' <- (if truthy label then
           if bool_decide (listener ∈ listeners_at h label) then
             Ok (mk (<[label := listeners_at h label ∖ {[listener]}]> (_listeners h))
                    (_generic_listeners h) (_listener_priorities h))
           else Raise (KeyError (KPriority label listener))
         else
           if bool_decide (listener ∈ _generic_listeners h) then
             Ok (mk (_listeners h) (_generic_listeners h ∖ {[listener]})
                    (_listener_priorities h))
           else Raise (KeyError (KPriority label listener))) ;;
  match _listener_priorities h' !! (label, listener) with
  | Some _ =>
      Ok (mk (_listeners h') (_generic_listeners h')
             (delete (label, listener) (_listener_priorities h')))
  | None => Raise (KeyError (KPriority label listener))
  end.

(** [self._listener_priorities[(label, listener)]] *)
Definition priority_of (h : t) (label : option string) (listener : string)
  : result Z :=
  match _listener_priorities h !! (label, listener) with
  | Some p => Ok p
  | None => Raise (KeyError (KPriority label listener))
  end.

Section Emit.

(** The order in which Python iterates over a set of listeners. *)
Variable set_iter : gset string -> list string.

(** The two comprehensions of [emit_event] and their concatenation. *)
Definition collect (h : t) (label : option string) : result (list (Z * string)) :=
  labelled <- comprehension
    (fun listener => p <- priority_of h label listener ;; Ok (p, listener))
    (set_iter (listeners_at h label)) ;;
  generic <- comprehension
    (fun listener => p <- priority_of h None listener ;; Ok (p, listener))
    (set_iter (_generic_listeners h)) ;;
  Ok (labelled ++ generic).

(** The list [listeners] that the [for] loop of [emit_event] walks. *)
Definition emit_order (h : t) (label : option string) : result (list string) :=
  listeners <- collect h label ;;
  Ok ((sorted fst listeners).*2).

(** The dispatch itself, over any simulation state: [copy] is [mask.copy()],
    which allocates a new array and yields a reference to it, and [call]
    runs a listener on [(label, mask, simulation)]. *)
Context {State : Type}.
Variable copy : nat -> State -> nat * State.
Variable call : string -> option string -> nat -> State -> result State.

Definition invoke (label : option string) (mask : nat) (simulation : State)
    (listener : string) : result State :=
  let '(handed, simulation') := copy mask simulation in
  call listener label handed simulation'.

Definition emit_event (h : t) (label : option string) (mask : nat)
    (simulation : State) : result State :=
  listeners <- emit_order h label ;;
  for_each (invoke label mask) listeners simulation.

End Emit.

End EventHandler.

(** ** [engine.py]: the simulation *)

(** A row of the population table: the columns of [BaseSimulationModule],
    the [year] column added by [reset_population] and the columns the other
    modules contribute. *)
Record Simulant : Type := mk_simulant {
  age : Z;
  fractional_age : float;
  alive : bool;
  year : Z;
  others : gmap string Q
}.

Definition with_fractional_age (s : Simulant) (x : float) : Simulant :=
  mk_simulant (age s) x (alive s) (year s) (others s).

Definition with_age (s : Simulant) (a : Z) : Simulant :=
  mk_simulant a (fractional_age s) (alive s) (year s) (others s).

Definition with_year (s : Simulant) (y : Z) : Simulant :=
  mk_simulant (age s) (fractional_age s) (alive s) y (others s).

Definition with_alive (s : Simulant) (b : bool) : Simulant :=
  mk_simulant (age s) (fractional_age s) b (year s) (others s).

Module SimulationModule.

(** A [SimulationModule] instance: its class, the class attribute
    [DEPENDENCIES], its [EventHandler] part, the three overridable methods
    and the [incidence_mediation_factors] that [BloodPressureModule.setup]
    fills in. *)
Record t : Type := mk {
  cls : string;
  DEPENDENCIES : list string;
  handler : EventHandler.t;
  years_lived_with_disability : list Simulant -> float;
  mortality_rates : list Simulant -> list float -> list float;
  incidence_rates : list Simulant -> list float -> string -> list float;
  incidence_mediation_factors : gmap string float
}.

(** The methods as [SimulationModule] itself defines them. *)
Definition plain (name : string) (deps : list string) (h : EventHandler.t) : t :=
  mk name deps h (fun _ => 0%float) (fun _ rates => rates) (fun _ rates _ => rates) ∅.

End SimulationModule.

Module Simulation.
Import Util.

(** A [Simulation] object.  [current_time] is a [datetime], counted in
    microseconds; [arrays] is the store of the numpy boolean arrays
    allocated so far, a reference being a position in it.
    [current_time] and [last_time_step] are assigned by [run] before
    anything reads them. *)
Record t : Type := mk {
  _modules : gmap string SimulationModule.t;
  _ordered_modules : list SimulationModule.t;
  current_time : Z;
  last_time_step : timedelta;
  yll_by_year : gmap Z float;
  yld_by_year : gmap Z float;
  population : list Simulant;
  arrays : list (list bool)
}.

Definition set_population (sim : t) (p : list Simulant) : t :=
  mk (_modules sim) (_ordered_modules sim) (current_time sim)
    (last_time_step sim) (yll_by_year sim) (yld_by_year sim) p (arrays sim).

Definition set_arrays (sim : t) (a : list (list bool)) : t :=
  mk (_modules sim) (_ordered_modules sim) (current_time sim)
    (last_time_step sim) (yll_by_year sim) (yld_by_year sim) (population sim) a.

Definition set_current_time (sim : t) (now : Z) : t :=
  mk (_modules sim) (_ordered_modules sim) now
    (last_time_step sim) (yll_by_year sim) (yld_by_year sim) (population sim)
    (arrays sim).

Definition set_last_time_step (sim : t) (d : timedelta) : t :=
  mk (_modules sim) (_ordered_modules sim) (current_time sim)
    d (yll_by_year sim) (yld_by_year sim) (population sim) (arrays sim).

Definition set_yld_by_year (sim : t) (y : gmap Z float) : t :=
  mk (_modules sim) (_ordered_modules sim) (current_time sim)
    (last_time_step sim) (yll_by_year sim) y (population sim) (arrays sim).

Definition set_modules (sim : t) (reg : gmap string SimulationModule.t)
    (ordered : list SimulationModule.t) : t :=
  mk reg ordered (current_time sim)
    (last_time_step sim) (yll_by_year sim) (yld_by_year sim) (population sim)
    (arrays sim).

(** The state [Simulation.__init__] sets up before it registers the base
    module. *)
Definition blank : t :=
  mk ∅ [] 0 (mk_timedelta 0 0 0) ∅ ∅ [] [].

(** [np.array(content)]: a new array object. *)
Definition np_array (content : list bool) (sim : t) : nat * t :=
  (length (arrays sim), set_arrays sim (arrays sim ++ [content])).

(** [mask.copy()] *)
Definition np_copy (mask : nat) (sim : t) : nat * t :=
  np_array (default [] (arrays sim !! mask)) sim.

Definition base_class : string := "BaseSimulationModule".

Section Methods.

(** [datetime.year]. *)
Variable year_of : Z -> Z.
(** The order in which Python iterates over a set of listeners. *)
Variable set_iter : gset string -> list string.
(** The order in which [set.pop()] empties a set of modules. *)
Variable pop_order : list SimulationModule.t -> list SimulationModule.t.
(** The code of the listeners. *)
Variable call : string -> option string -> nat -> t -> result t.

(** [to_sort = set(self._modules.values())] without the base module. *)
Definition modules_to_sort (reg : gmap string SimulationModule.t)
  : list SimulationModule.t :=
  pop_order
    (List.filter
       (fun m => negb (bool_decide (SimulationModule.cls m = base_class)))
       ((map_to_list reg).*2)).

(** The ordering step shared by [register_module] and [deregister_module]. *)
Definition reorder (sim : t) (reg : gmap string SimulationModule.t) : result t :=
  base <- registry_get reg base_class ;;
  ordered <- sort_modules SimulationModule.cls SimulationModule.DEPENDENCIES
               (modules_to_sort reg) reg ;;
  Ok (set_modules sim reg (base :: ordered)).

(** [register_module(module)]; [module.register] does nothing. *)
Definition register_module (sim : t) (module : SimulationModule.t) : result t :=
  reorder sim (<[SimulationModule.cls module := module]> (_modules sim)).


(** [emit_event(label, mask)]: every module in order, on the same mask.
    The loop walks the list of modules as it is when the emit begins. *)
Definition emit_event (sim : t) (label : option string) (mask : nat) : result t :=
  for_each
    (fun sim' module =>
       EventHandler.emit_event set_iter np_copy call
         (SimulationModule.handler module) label mask sim')
    (_ordered_modules sim) sim.

(** [pd.DataFrame(0, index=np.arange(len(population)), columns=[...])] *)
Definition zero_frame (population : list Simulant) : list float :=
  replicate (length population) 0%float.

(** [mortality_rates(population)] *)
Definition mortality_rates (sim : t) (population : list Simulant) : list float :=
  let rates :=
    fold_left (fun rates module => SimulationModule.mortality_rates module population rates)
              (_ordered_modules sim) (zero_frame population) in
  map (fun r => from_yearly_rate r (last_time_step sim)) rates.

(** [incidence_rates(population, label)] *)
Definition incidence_rates (sim : t) (population : list Simulant) (label : string)
  : list float :=
  let rates :=
    fold_left
      (fun rates module => SimulationModule.incidence_rates module population rates label)
      (_ordered_modules sim) (zero_frame population) in
  map (fun r => from_yearly_rate r (last_time_step sim)) rates.

(** [years_lived_with_disability()] *)
Definition years_lived_with_disability (sim : t) : float :=
  fold_left
    (fun ylds module =>
       (ylds + SimulationModule.years_lived_with_disability module
                 (List.filter alive (population sim)))%float)
    (_ordered_modules sim) 0%float.

(** The body of the [while] loop of [run]. *)
Definition run_iteration (time_step : timedelta) (sim : t) : result t :=
  let sim1 :=
    set_population sim
      (map (fun s => with_year s (year_of (current_time sim))) (population sim)) in
  let '(mask, sim2) := np_array (replicate (length (population sim1)) true) sim1 in
  sim3 <- emit_event sim2 (Some "time_step") mask ;;
  let sim4 :=
    set_yld_by_year sim3
      (<[year_of (current_time sim3) := years_lived_with_disability sim3]>
         (yld_by_year sim3)) in
  Ok (set_current_time sim4 (current_time sim4 + total_microseconds time_step)).

(** The [while] loop, with a bound on the number of iterations: [None]
    when the bound is reached with the loop still running. *)
Fixpoint run_loop (fuel : nat) (end_time : Z) (time_step : timedelta) (sim : t)
  : option (result t) :=
  if current_time sim <=? end_time then
    match fuel with
    | O => None
    | S fuel' =>
        match run_iteration time_step sim with
        | Ok sim' => run_loop fuel' end_time time_step sim'
        | Raise e => Some (Raise e)
        end
    end
  else Some (Ok sim).

(** [run(start_time, end_time, time_step)] *)
Definition run (fuel : nat) (sim : t) (start_time end_time : Z)
    (time_step : timedelta) : option (result t) :=
  run_loop fuel end_time time_step
    (set_last_time_step (set_current_time sim start_time) time_step).

End Methods.

End Simulation.

Module BaseSimulationModule.
Import Util.

(** The handler after [BaseSimulationModule.__init__]. *)
Definition listeners : EventHandler.t :=
  EventHandler.register_event_listener
    (EventHandler.register_event_listener EventHandler.init
       "advance_age" (Some "time_step") 0)
    "mortality_handler" (Some "time_step") 1.

(** [BaseSimulationModule()]; [all_cause] is the column its
    [mortality_rates] adds from the mortality table. *)
Definition new (all_cause : list Simulant -> list float) : SimulationModule.t :=
  SimulationModule.mk Simulation.base_class [] listeners
    (fun _ => 0%float)
    (fun population rates => zip_with PrimFloat.add rates (all_cause population))
    (fun _ rates _ => rates)
    ∅.

(** The cast of a finite double to [int64]: the fractional part is
    dropped.  Outside the range of [int64] C leaves the cast undefined;
    x86-64 gives [-2 ^ 63]. *)
Definition truncate (s : bool) (m : positive) (e : Z) : Z :=
  let t := cond_Zopp s (Z.shiftl (Zpos m) e) in
  if (- 2 ^ 63 <=? t) && (t <? 2 ^ 63) then t else - 2 ^ 63.

(** [Series.astype(int)] on one cell of a [float64] column.  pandas
    refuses a column that holds NaN or an infinity. *)
Definition astype_int (x : float) : result Z :=
  match Prim2SF x with
  | S754_zero _ => Ok 0
  | S754_finite s m e => Ok (truncate s m e)
  | _ => Raise (ValueError "Cannot convert non-finite values (NA or inf) to integer")
  end.

(** [population.loc[mask, 'fractional_age'] += amount], for a mask as
    long as the table. *)
Definition add_fractional_age (mask : list bool) (amount : float)
    (p : list Simulant) : list Simulant :=
  zip_with (fun (b : bool) s =>
              if b then with_fractional_age s (fractional_age s + amount)%float else s)
           mask p.

(** [last_time_step.days/365.0] *)
Definition age_step (time_step : timedelta) : float :=
  (Float64.of_int (days time_step) / 365)%float.

(** [advance_age(label, mask, simulation)]; pandas raises on a boolean
    indexer whose length is not that of the table. *)
Definition advance_age (label : option string) (mask : nat)
    (simulation : Simulation.t) : result Simulation.t :=
  let m := default [] (Simulation.arrays simulation !! mask) in
  if bool_decide (length m = length (Simulation.population simulation)) then
    let p :=
      add_fractional_age m (age_step (Simulation.last_time_step simulation))
        (Simulation.population simulation) in
    ages <- comprehension (fun s => astype_int (fractional_age s)) p ;;
    Ok (Simulation.set_population simulation (zip_with with_age p ages))
  else Raise (IndexError "Boolean index has wrong length").

End BaseSimulationModule.

(** ** [vivarium/interpolation.py] *)

Module Interpolation.

(** A [pandas.DataFrame]: the header and the rows, each row with its index
    label and one cell per column of the header.  Cells are numbers;
    the levels of a categorical column are numbered. *)
Record DataFrame : Type := mk_frame {
  columns : list string;
  rows : list (nat * list Z)
}.

(** [DataFrame.empty]: no rows or no columns. *)
Definition empty (df : DataFrame) : bool :=
  match rows df, columns df with
  | [], _ | _, [] => true
  | _, _ => false
  end.

Definition has_column (df : DataFrame) (name : string) : bool :=
  bool_decide (name ∈ columns df).

Definition position (df : DataFrame) (name : string) : result nat :=
  match list_find (fun c => c = name) (columns df) with
  | Some (i, _) => Ok i
  | None => Raise (KeyError (KName name))
  end.

Definition cell (i : nat) (row : nat * list Z) : Z := default 0 (row.2 !! i).

(** [df[name]] *)
Definition series (df : DataFrame) (name : string) : result (list Z) :=
  i <- position df name ;; Ok (map (cell i) (rows df)).

(** [df.drop(name, axis='columns')] on a column that is there. *)
Definition drop_column (df : DataFrame) (name : string) : result DataFrame :=
  i <- position df name ;;
  Ok (mk_frame (delete i (columns df))
               (map (fun row => (row.1, delete i row.2)) (rows df))).

(** [len(series.unique())] *)
Definition count_unique (xs : list Z) : Z := Z.of_nat (length (remove_dups xs)).

(** The order of key tuples. *)
Fixpoint tuple_compare (a b : list Z) : comparison :=
  match a, b with
  | [], [] => Eq
  | [], _ :: _ => Lt
  | _ :: _, [] => Gt
  | x :: a', y :: b' =>
      match x ?= y with
      | Eq => tuple_compare a' b'
      | c => c
      end
  end.

Fixpoint add_to_group (key : list Z) (row : nat * list Z)
    (groups : list (list Z * list (nat * list Z)))
  : list (list Z * list (nat * list Z)) :=
  match groups with
  | [] => [(key, [row])]
  | (k, members) :: rest =>
      match tuple_compare key k with
      | Eq => (k, members ++ [row]) :: rest
      | Lt => (key, [row]) :: groups
      | Gt => (k, members) :: add_to_group key row rest
      end
  end.

(** [df.groupby(keys)], iterated: the groups in ascending order of their
    key, the rows of a group in the order of the table. *)
Definition groupby (df : DataFrame) (keys : list string)
  : result (list (list Z * DataFrame)) :=
  positions <- comprehension (position df) keys ;;
  let key_of row := map (fun i => cell i row) positions in
  let groups :=
    fold_left (fun groups row => add_to_group (key_of row) row groups) (rows df) [] in
  Ok (map (fun g => (g.1, mk_frame (columns df) g.2)) groups).

(** The partition of a table by the key columns, as both [__init__] and
    [__call__] take it; the key [None] of an unkeyed table is the empty
    tuple. *)
Definition sub_tables (df : DataFrame) (key_columns : list string)
  : result (list (list Z * DataFrame)) :=
  match key_columns with
  | [] => Ok [([], df)]
  | _ => groupby df key_columns
  end.

(** An interpolation function of scipy, applied to one array per parameter. *)
Definition func : Type := list (list Z) -> list Q.

(** The four constructors of [scipy.interpolate] that [__init__] uses. *)
Inductive fitter : Type :=
| NearestNDInterpolator
| RectBivariateSpline
| interp1d_zero
| InterpolatedUnivariateSpline.

Record t : Type := mk {
  key_columns : list string;
  parameter_columns : list string;
  _data : DataFrame;
  interpolations : gmap (list Z) (list (string * func))
}.

(** The table [__call__] returns: the index of the query and the cells
    assigned so far. *)
Record Table : Type := mk_table {
  index : list nat;
  cells : gmap (nat * string) Q
}.

(** [sorted] on column names. *)
Fixpoint insert_name (x : string) (l : list string) : list string :=
  match l with
  | [] => [x]
  | y :: rest => if String.leb x y then x :: y :: rest else y :: insert_name x rest
  end.

Definition sorted_names (l : list string) : list string :=
  foldr insert_name [] l.

Definition order_message : string :=
  "Only order 0 and order 1 interpolations are supported.".
Definition variables_message : string :=
  "Only interpolation over 1 or 2 variables is supported".
Definition no_value_message : string := "No non-parameter data.".
Definition parameter_message : string :=
  "The continuous parameter columns with which you built the Interpolation must all be present in the data you call it on.".
Definition key_message : string :=
  "The key (categorical) columns with which you built the Interpolation must all be present in the data you call it on.".

(** The loop of [validate_parameters] over [continuous_parameters]. *)
Definition keep_or_drop (order : Z) (state : list string * DataFrame) (p : string)
  : result (list string * DataFrame) :=
  let '(out, data) := state in
  xs <- series data p ;;
  if order <? count_unique xs then Ok (out ++ [p], data)
  else data' <- drop_column data p ;; Ok (out, data').

(** [validate_parameters(data, categorical_parameters, continuous_parameters, order)] *)
Definition validate_parameters (data : DataFrame)
    (categorical_parameters continuous_parameters : list string) (order : Z)
  : result (list string * DataFrame * list string) :=
  if negb (bool_decide (order ∈ [0; 1])) then Raise (ValueError order_message)
  else if negb (bool_decide (length continuous_parameters ∈ [1%nat; 2%nat]))
  then Raise (ValueError variables_message)
  else
    kept <- for_each (keep_or_drop order) continuous_parameters ([], data) ;;
    let '(out, data') := kept in
    let value_columns :=
      sorted_names
        (remove_dups
           (List.filter
              (fun c => negb (bool_decide
                                (c ∈ categorical_parameters ++ continuous_parameters)))
              (columns data'))) in
    match value_columns with
    | [] => Raise (ValueError no_value_message)
    | _ => Ok (out, data', value_columns)
    end.

(** [validate_call_data(data, key_columns, parameter_columns)]; the test on
    the type of [data] is settled by the type of the argument. *)
Definition validate_call_data (data : DataFrame)
    (key_columns parameter_columns : list string) : result unit :=
  if negb (forallb (has_column data) parameter_columns)
  then Raise (ValueError parameter_message)
  else if negb (bool_decide (key_columns = []))
            && negb (forallb (has_column data) key_columns)
  then Raise (ValueError key_message)
  else Ok tt.

Section Scipy.

(** The fit of scipy: the kind of interpolant, its order, one array per
    parameter and the array of values. *)
Variable fit : fitter -> Z -> list (list Z) -> list Z -> result func.

(** The body of the loop over [value_columns] in [__init__]. *)
Definition build (parameter_columns : list string) (order : Z)
    (base_table : DataFrame) (value_column : string) : result (string * func) :=
  f <- (if bool_decide (length parameter_columns = 2%nat) then
          xs <- comprehension (series base_table) parameter_columns ;;
          y <- series base_table value_column ;;
          if bool_decide (order = 0) then fit NearestNDInterpolator order xs y
          else fit RectBivariateSpline order xs y
        else
          match parameter_columns with
          | [] => Raise (IndexError "list index out of range")
          | p :: _ =>
              i <- position base_table p ;;
              let base_table' :=
                mk_frame (columns base_table) (sorted (cell i) (rows base_table)) in
              x <- series base_table' p ;;
              y <- series base_table' value_column ;;
              if bool_decide (order = 0) then fit interp1d_zero order [x] y
              else fit InterpolatedUnivariateSpline order [x] y
          end) ;;
  Ok (value_column, f).

(** [Interpolation.__init__(data, categorical_parameters, continuous_parameters, order)] *)
Definition __init__ (data : DataFrame)
    (categorical_parameters continuous_parameters : list string) (order : Z)
  : result t :=
  validated <-
    validate_parameters data categorical_parameters continuous_parameters order ;;
  let '(parameter_columns, data', value_columns) := validated in
  tables <- sub_tables data' categorical_parameters ;;
  interpolations <-
    for_each
      (fun (acc : gmap (list Z) (list (string * func))) '(key, base_table) =>
         if empty base_table then Ok acc
         else
           funcs <- comprehension (build parameter_columns order base_table)
                      value_columns ;;
           Ok (<[key := funcs]> acc))
      tables ∅ ;;
  Ok (mk categorical_parameters parameter_columns data' interpolations).

End Scipy.

(** [result.loc[sub_table.index, value_column] = out] *)
Definition assign (table : Table) (sub_table : DataFrame) (value_column : string)
    (out : list Q) : Table :=
  mk_table (index table)
    (fold_left (fun cs '(row, v) => <[(row.1, value_column) := v]> cs)
               (zip (rows sub_table) out) (cells table)).

(** The body of the loop over the partitions of the query in [__call__]. *)
Definition evaluate_group (self : t) (table : Table)
    (group : list Z * DataFrame) : result Table :=
  let '(key, sub_table) := group in
  if empty sub_table then Ok table
  else
    match interpolations self !! key with
    | None => Raise (KeyError (KGroup key))
    | Some funcs =>
        parameters <- comprehension (series sub_table) (parameter_columns self) ;;
        Ok (fold_left
              (fun table' '(value_column, f) =>
                 assign table' sub_table value_column (f parameters))
              funcs table)
    end.

(** [Interpolation.__call__(interpolants)] *)
Definition __call__ (self : t) (interpolants : DataFrame) : result Table :=
  _ <- validate_call_data interpolants (key_columns self) (parameter_columns self) ;;
  tables <- sub_tables interpolants (key_columns self) ;;
  for_each (evaluate_group self) tables
    (mk_table (map fst (rows interpolants)) ∅).

End Interpolation.

(** ** Binary64 arithmetic

    What the proofs below need of the arithmetic of doubles, from the
    specification of its operations ([SpecFloat]): how a sum is rounded,
    that rounding keeps the order, and what subtracting from one does on
    the unit interval. *)

(** The value of a finite double, in units of [2 ^ -1074], the least
    positive double. *)
Definition ulps (x : spec_float) : Z :=
  match x with
  | S754_finite s m e => cond_Zopp s (Zpos m * 2 ^ (e + 1074))
  | _ => 0
  end.

(** Rounding so many units to a double. *)
Definition rnd (v : Z) : spec_float := binary_normalize prec emax v (-1074) false.

(** [M / 2 ^ k] rounded to the nearest integer, ties to even. *)
Definition rne (k M : Z) : Z :=
  let q := M / 2 ^ k in
  let r := M mod 2 ^ k in
  let h := 2 ^ (k - 1) in
  if r <? h then q
  else if r =? h then (if Z.even q then q else q + 1)
  else q + 1.

Section Binary64Facts.
Import Float64.

Lemma digits2_pos_log2 (p : positive) :
  Zpos (digits2_pos p) = Z.log2 (Zpos p) + 1.
Proof.
  assert (H : forall q, digits2_pos q = Pos.size q).
  { induction q; simpl; congruence. }
  rewrite H. destruct p; simpl; lia.
Qed.

Lemma digits2_pos_bounds (p : positive) :
  2 ^ (Zpos (digits2_pos p) - 1) <= Zpos p < 2 ^ Zpos (digits2_pos p).
Proof.
  rewrite digits2_pos_log2.
  replace (Z.log2 (Z.pos p) + 1 - 1) with (Z.log2 (Z.pos p)) by lia.
  pose proof (Z.log2_spec (Zpos p) ltac:(lia)) as H.
  replace (Z.succ (Z.log2 (Z.pos p))) with (Z.log2 (Z.pos p) + 1) in H by lia.
  exact H.
Qed.

Lemma fexp_eq (x : Z) : fexp prec emax x = Z.max (x - 53) (-1074).
Proof. reflexivity. Qed.

Lemma bounded_inv (m : positive) (e : Z) :
  bounded prec emax m e = true ->
  -1074 <= e <= 971
  /\ Zpos (digits2_pos m) <= 53
  /\ (Zpos (digits2_pos m) = 53 \/ e = -1074).
Proof.
  unfold bounded, canonical_mantissa. rewrite fexp_eq.
  intros H. apply andb_prop in H as [H1 H2].
  apply Z.eqb_eq in H1. apply Z.leb_le in H2.
  change (emax - prec) with 971 in H2. lia.
Qed.


Definition nonneg (x : spec_float) : Prop :=
  match x with
  | S754_zero _ => True
  | S754_finite false _ _ => True
  | _ => False
  end.

Lemma ulps_finite_pos (m : positive) (e : Z) :
  -1074 <= e -> 0 < Zpos m * 2 ^ (e + 1074).
Proof. intros He. apply Z.mul_pos_pos; [lia|]. apply Z.pow_pos_nonneg; lia. Qed.

Lemma finite_lt (m1 m2 : positive) (e1 e2 : Z) :
  bounded prec emax m1 e1 = true -> bounded prec emax m2 e2 = true -> e1 < e2 ->
  Zpos m1 * 2 ^ (e1 + 1074) < Zpos m2 * 2 ^ (e2 + 1074).
Proof.
  intros H1 H2 Hlt.
  apply bounded_inv in H1 as (He1 & Hd1 & _).
  apply bounded_inv in H2 as (He2 & _ & [Hd2 | ->]); [|lia].
  pose proof (digits2_pos_bounds m1) as [_ Hm1].
  pose proof (digits2_pos_bounds m2) as [Hm2 _].
  rewrite Hd2 in Hm2.
  assert (Hm1' : Zpos m1 < 2 ^ 53).
  { eapply Z.lt_le_trans; [exact Hm1|]. apply Z.pow_le_mono_r; lia. }
  replace (e2 + 1074) with ((e1 + 1074) + (e2 - e1)) by lia.
  rewrite (Z.pow_add_r 2 (e1 + 1074) (e2 - e1)) by lia.
  assert (Hp : 0 < 2 ^ (e1 + 1074)) by (apply Z.pow_pos_nonneg; lia).
  assert (H2p : 2 <= 2 ^ (e2 - e1)).
  { change 2 with (2 ^ 1) at 1. apply Z.pow_le_mono_r; lia. }
  change (53 - 1) with 52 in Hm2.
  apply Z.lt_le_trans with (2 ^ 53 * 2 ^ (e1 + 1074)).
  { apply Z.mul_lt_mono_pos_r; lia. }
  change (2 ^ 53) with (2 ^ 52 * 2).
  rewrite <- Z.mul_assoc, (Z.mul_comm 2).
  apply Z.mul_le_mono_nonneg; try lia.
  apply Z.mul_le_mono_nonneg; lia.
Qed.

Lemma SFcompare_ulps (x y : spec_float) :
  valid_binary x = true -> valid_binary y = true -> nonneg x -> nonneg y ->
  SFcompare x y = Some (ulps x ?= ulps y).
Proof.
  destruct x as [sx|sx| |sx mx ex], y as [sy|sy| |sy my ey]; simpl; try done.
  - destruct sy; [done|]. intros _ Hy _ _. apply bounded_inv in Hy as (He & _).
    pose proof (ulps_finite_pos my ey ltac:(lia)). simpl.
    destruct (Z.pos my * 2 ^ (ey + 1074)); [lia|done|lia].
  - destruct sx; [done|]. intros Hx _ _ _. apply bounded_inv in Hx as (He & _).
    pose proof (ulps_finite_pos mx ex ltac:(lia)). simpl.
    destruct (Z.pos mx * 2 ^ (ex + 1074)); [lia|done|lia].
  - destruct sx, sy; try done. intros Hx Hy _ _. simpl. f_equal.
    destruct (ex ?= ey) eqn:Hc.
    + apply Z.compare_eq in Hc. subst ey.
      apply bounded_inv in Hx as (He & _).
      assert (Hp : 0 < 2 ^ (ex + 1074)) by (apply Z.pow_pos_nonneg; lia).
      change (Pos.compare_cont Eq mx my) with (Zpos mx ?= Zpos my).
      apply Zmult_compare_compat_r. lia.
    + apply Z.compare_lt_iff in Hc. symmetry. apply Z.compare_lt_iff.
      by apply finite_lt.
    + apply Z.compare_gt_iff in Hc. symmetry. apply Z.compare_gt_iff.
      by apply finite_lt.
Qed.


(** *** Shifting right *)

Definition shr_spec (M k : Z) : shr_record :=
  {| shr_m := M / 2 ^ k;
     shr_r := Z.testbit M (k - 1);
     shr_s := negb (M mod 2 ^ (k - 1) =? 0) |}.

Lemma shr_1_spec (m : Z) (r s : bool) :
  0 <= m ->
  shr_1 {| shr_m := m; shr_r := r; shr_s := s |}
  = {| shr_m := Z.div2 m; shr_r := Z.odd m; shr_s := r || s |}.
Proof. destruct m as [|[p|p|]|p]; intros Hm; try lia; reflexivity. Qed.

Lemma shr_1_first (M : Z) :
  0 <= M ->
  shr_1 {| shr_m := M; shr_r := false; shr_s := false |} = shr_spec M 1.
Proof.
  intros HM. rewrite shr_1_spec by done. unfold shr_spec.
  change (1 - 1) with 0. change (2 ^ 0) with 1. change (2 ^ 1) with 2.
  by rewrite Z.div2_div, Z.bit0_odd, Z.mod_1_r.
Qed.

Lemma shr_1_next (M k : Z) :
  0 <= M -> 1 <= k -> shr_1 (shr_spec M k) = shr_spec M (k + 1).
Proof.
  intros HM Hk. unfold shr_spec.
  assert (Hpk : 0 < 2 ^ k) by (apply Z.pow_pos_nonneg; lia).
  assert (Hpk1 : 0 < 2 ^ (k - 1)) by (apply Z.pow_pos_nonneg; lia).
  rewrite shr_1_spec by (apply Z.div_pos; lia).
  replace (k + 1 - 1) with k by lia. f_equal.
  - rewrite Z.div2_div, Z.div_div by lia. f_equal.
    rewrite Z.pow_add_r by lia. reflexivity.
  - by rewrite Z.testbit_odd, Z.shiftr_div_pow2 by lia.
  - assert (H2k : 2 ^ k = 2 ^ (k - 1) * 2).
    { rewrite <- (Z.pow_1_r 2) at 3. rewrite <- Z.pow_add_r by lia. f_equal. lia. }
    rewrite H2k, Z.rem_mul_r by lia.
    rewrite Z.testbit_odd, Z.shiftr_div_pow2 by lia.
    rewrite Zmod_odd.
    pose proof (Z.mod_pos_bound M (2 ^ (k - 1)) Hpk1) as Hr.
    destruct (Z.odd (M / 2 ^ (k - 1))); simpl.
    + symmetry. apply negb_true_iff, Z.eqb_neq. lia.
    + f_equal. f_equal. lia.
Qed.

Lemma iter_pos_nat {A : Type} (f : A -> A) (p : positive) (x : A) :
  SpecFloat.iter_pos f p x = Nat.iter (Pos.to_nat p) f x.
Proof.
  revert x. induction p as [p IH|p IH|]; intros x.
  - change (SpecFloat.iter_pos f p~1 x)
      with (SpecFloat.iter_pos f p (SpecFloat.iter_pos f p (f x))).
    rewrite !IH, Pos2Nat.inj_xI, <- Nat.iter_add, Nat.iter_swap, Nat.iter_succ.
    do 2 f_equal. lia.
  - change (SpecFloat.iter_pos f p~0 x)
      with (SpecFloat.iter_pos f p (SpecFloat.iter_pos f p x)).
    rewrite !IH, Pos2Nat.inj_xO, <- Nat.iter_add. f_equal. lia.
  - reflexivity.
Qed.

Lemma iter_shr_1 (n : nat) (M : Z) :
  0 <= M ->
  Nat.iter (S n) shr_1 {| shr_m := M; shr_r := false; shr_s := false |}
  = shr_spec M (Z.of_nat (S n)).
Proof.
  intros HM. induction n as [|n IH].
  - simpl. by apply shr_1_first.
  - rewrite Nat.iter_succ, IH, shr_1_next by lia. f_equal. lia.
Qed.

Lemma shr_exact (M e k : Z) :
  0 <= M -> 0 < k ->
  shr {| shr_m := M; shr_r := false; shr_s := false |} e k = (shr_spec M k, e + k).
Proof.
  intros HM Hk. destruct k as [|p|p]; try lia. unfold shr.
  rewrite iter_pos_nat.
  destruct (Pos.to_nat p) as [|n] eqn:Hn; [lia|].
  rewrite iter_shr_1 by done. do 2 f_equal. lia.
Qed.

Lemma iter_xO (m d : positive) : Zpos (Pos.iter xO m d) = Zpos m * 2 ^ Zpos d.
Proof.
  induction d as [|d IH] using Pos.peano_ind.
  - simpl. lia.
  - rewrite Pos.iter_succ, Pos2Z.inj_xO, IH, Pos2Z.inj_succ, Z.pow_succ_r by lia. lia.
Qed.


(** *** Rounding to nearest, ties to even *)

Lemma round_shr_spec (M k : Z) :
  0 <= M -> 1 <= k ->
  round_nearest_even (shr_m (shr_spec M k)) (loc_of_shr_record (shr_spec M k))
  = rne k M.
Proof.
  intros HM Hk. unfold shr_spec, rne. simpl.
  assert (Hh : 0 < 2 ^ (k - 1)) by (apply Z.pow_pos_nonneg; lia).
  assert (H2k : 2 ^ k = 2 ^ (k - 1) * 2).
  { rewrite <- (Z.pow_1_r 2) at 3. rewrite <- Z.pow_add_r by lia. f_equal. lia. }
  assert (Hrem : M mod 2 ^ k
                 = M mod 2 ^ (k - 1)
                   + 2 ^ (k - 1) * (if Z.odd (M / 2 ^ (k - 1)) then 1 else 0)).
  { rewrite H2k, Z.rem_mul_r by lia. by rewrite Zmod_odd. }
  rewrite Hrem. clear Hrem H2k.
  rewrite Z.testbit_odd, Z.shiftr_div_pow2 by lia.
  pose proof (Z.mod_pos_bound M (2 ^ (k - 1)) Hh) as Hr.
  destruct (Z.odd (M / 2 ^ (k - 1))); simpl.
  - rewrite (proj2 (Z.ltb_ge _ _)) by lia.
    destruct (Z.eqb_spec (M mod 2 ^ (k - 1)) 0) as [H0|H0]; simpl.
    + rewrite (proj2 (Z.eqb_eq _ _)) by lia. reflexivity.
    + rewrite (proj2 (Z.eqb_neq _ _)) by lia. reflexivity.
  - rewrite (proj2 (Z.ltb_lt _ _)) by lia.
    by destruct (M mod 2 ^ (k - 1) =? 0).
Qed.

Lemma rne_bounds (k M : Z) : M / 2 ^ k <= rne k M <= M / 2 ^ k + 1.
Proof.
  unfold rne.
  destruct (_ <? _); [lia|]. destruct (_ =? _); [|lia]. destruct (Z.even _); lia.
Qed.

Lemma rne_mono (k M1 M2 : Z) :
  0 <= k -> M1 <= M2 -> rne k M1 <= rne k M2.
Proof.
  intros Hk Hle.
  assert (Hp : 0 < 2 ^ k) by (apply Z.pow_pos_nonneg; lia).
  pose proof (Z.div_le_mono M1 M2 (2 ^ k) Hp Hle) as Hq.
  pose proof (rne_bounds k M1) as [_ Hu]. pose proof (rne_bounds k M2) as [Hl _].
  destruct (Z.eq_dec (M1 / 2 ^ k) (M2 / 2 ^ k)) as [Heq|Hne]; [|lia].
  clear Hu Hl.
  pose proof (Z.div_mod M1 (2 ^ k) ltac:(lia)) as H1.
  pose proof (Z.div_mod M2 (2 ^ k) ltac:(lia)) as H2.
  assert (Hr : M1 mod 2 ^ k <= M2 mod 2 ^ k) by (rewrite Heq in H1; lia).
  unfold rne. rewrite Heq.
  destruct (Z.ltb_spec (M1 mod 2 ^ k) (2 ^ (k - 1))),
           (Z.ltb_spec (M2 mod 2 ^ k) (2 ^ (k - 1)));
    destruct (Z.eqb_spec (M1 mod 2 ^ k) (2 ^ (k - 1))),
             (Z.eqb_spec (M2 mod 2 ^ k) (2 ^ (k - 1)));
    destruct (Z.even (M2 / 2 ^ k)); lia.
Qed.

Lemma rne_scale (k j M : Z) :
  1 <= k -> 0 <= j -> rne (k + j) (M * 2 ^ j) = rne k M.
Proof.
  intros Hk Hj. unfold rne.
  assert (Hpj : 0 < 2 ^ j) by (apply Z.pow_pos_nonneg; lia).
  assert (Hpk : 0 < 2 ^ k) by (apply Z.pow_pos_nonneg; lia).
  assert (Hph : 0 < 2 ^ (k - 1)) by (apply Z.pow_pos_nonneg; lia).
  rewrite (Z.pow_add_r 2 k j) by lia.
  replace (k + j - 1) with ((k - 1) + j) by lia.
  rewrite (Z.pow_add_r 2 (k - 1) j) by lia.
  rewrite Z.div_mul_cancel_r by lia.
  rewrite Z.mul_mod_distr_r by lia.
  assert (Hlt : (M mod 2 ^ k * 2 ^ j <? 2 ^ (k - 1) * 2 ^ j)
                = (M mod 2 ^ k <? 2 ^ (k - 1))).
  { destruct (Z.ltb_spec (M mod 2 ^ k) (2 ^ (k - 1))).
    - apply Z.ltb_lt. by apply Z.mul_lt_mono_pos_r.
    - apply Z.ltb_ge. apply Z.mul_le_mono_nonneg_r; lia. }
  assert (Heq : (M mod 2 ^ k * 2 ^ j =? 2 ^ (k - 1) * 2 ^ j)
                = (M mod 2 ^ k =? 2 ^ (k - 1))).
  { destruct (Z.eqb_spec (M mod 2 ^ k) (2 ^ (k - 1))) as [->|Hne].
    - apply Z.eqb_eq. reflexivity.
    - apply Z.eqb_neq. intros H. apply Hne. eapply Z.mul_reg_r; [|exact H]. lia. }
  by rewrite Hlt, Heq.
Qed.

Lemma rne_exact (k q : Z) :
  1 <= k -> rne k (q * 2 ^ k) = q.
Proof.
  intros Hk. unfold rne.
  assert (Hpk : 0 < 2 ^ k) by (apply Z.pow_pos_nonneg; lia).
  assert (Hph : 0 < 2 ^ (k - 1)) by (apply Z.pow_pos_nonneg; lia).
  rewrite Z.div_mul, Z.mod_mul by lia.
  by rewrite (proj2 (Z.ltb_lt _ _)) by lia.
Qed.


(** *** What [binary_round] computes *)

Lemma Zdigits2_log2 (m : Z) : 0 < m -> Zdigits2 m = Z.log2 m + 1.
Proof. destruct m as [|p|p]; try lia. intros _. apply digits2_pos_log2. Qed.

Lemma shr_fexp_stay (m e : Z) :
  fexp prec emax (Zdigits2 m + e) <= e ->
  shr_fexp prec emax m e loc_Exact
  = ({| shr_m := m; shr_r := false; shr_s := false |}, e).
Proof.
  intros H. unfold shr_fexp, shr. simpl.
  destruct (fexp prec emax (Zdigits2 m + e) - e) eqn:Hk; try reflexivity. lia.
Qed.

Lemma shr_fexp_shift (m e k : Z) :
  0 <= m -> 0 < k -> fexp prec emax (Zdigits2 m + e) = e + k ->
  shr_fexp prec emax m e loc_Exact = (shr_spec m k, e + k).
Proof.
  intros Hm Hk H. unfold shr_fexp. simpl.
  replace (fexp prec emax (Zdigits2 m + e) - e) with k by lia.
  by apply shr_exact.
Qed.

Lemma log2_lt_pow2 (m d : Z) : 0 < m -> m < 2 ^ d -> Z.log2 m + 1 <= d.
Proof.
  intros Hm Hlt. destruct (Z.le_gt_cases d 0) as [Hd|Hd].
  - assert (2 ^ d <= 2 ^ 0) by (apply Z.pow_le_mono_r; lia).
    change (2 ^ 0) with 1 in *. lia.
  - apply Z.log2_lt_pow2 in Hlt; lia.
Qed.

Lemma binary_round_aux_exact (s : bool) (m : positive) (e : Z) :
  fexp prec emax (Zpos (digits2_pos m) + e) <= e -> e <= 971 ->
  binary_round_aux prec emax s (Zpos m) e loc_Exact = S754_finite s m e.
Proof.
  intros Hfe He. unfold binary_round_aux.
  rewrite shr_fexp_stay by done. simpl.
  rewrite shr_fexp_stay by done. simpl.
  change (emax - prec) with 971. by rewrite (proj2 (Z.leb_le _ _)).
Qed.

Lemma binary_round_aux_round (s : bool) (M : positive) (e k : Z) :
  0 < k -> fexp prec emax (Zpos (digits2_pos M) + e) = e + k ->
  e + k <= 971 -> (rne k (Zpos M) = 2 ^ 53 -> e + k + 1 <= 971) ->
  binary_round_aux prec emax s (Zpos M) e loc_Exact
  = let m1 := rne k (Zpos M) in
    if m1 =? 0 then S754_zero s
    else if m1 =? 2 ^ 53 then S754_finite s (Z.to_pos (2 ^ 52)) (e + k + 1)
    else S754_finite s (Z.to_pos m1) (e + k).
Proof.
  intros Hk Hfe He Hcarry. unfold binary_round_aux.
  rewrite (shr_fexp_shift (Zpos M) e k) by (done || lia).
  rewrite round_shr_spec by lia.
  pose proof (rne_bounds k (Zpos M)) as [Hlo Hhi].
  assert (Hpk : 0 < 2 ^ k) by (apply Z.pow_pos_nonneg; lia).
  assert (Hq0 : 0 <= Zpos M / 2 ^ k) by (apply Z.div_pos; lia).
  assert (Hq : Zpos M / 2 ^ k < 2 ^ 53).
  { apply Z.div_lt_upper_bound; [lia|].
    pose proof (digits2_pos_bounds M) as [_ HM].
    eapply Z.lt_le_trans; [exact HM|].
    rewrite <- Z.pow_add_r by lia. apply Z.pow_le_mono_r; [lia|].
    rewrite fexp_eq in Hfe. lia. }
  set (m1 := rne k (Zpos M)) in *. cbv zeta.
  destruct (Z.eqb_spec m1 0) as [H0|H0].
  { rewrite H0. rewrite shr_fexp_stay; [reflexivity|].
    rewrite fexp_eq in *. simpl. lia. }
  destruct (Z.eqb_spec m1 (2 ^ 53)) as [H53|H53].
  { rewrite H53. rewrite (shr_fexp_shift (2 ^ 53) (e + k) 1); try lia.
    - simpl. change (emax - prec) with 971.
      by rewrite (proj2 (Z.leb_le _ _)) by lia.
    - rewrite fexp_eq in *. change (Zdigits2 (2 ^ 53)) with 54. lia. }
  assert (Hm1 : 0 < m1 < 2 ^ 53) by lia.
  rewrite shr_fexp_stay.
  - simpl. destruct m1 as [|p|p] eqn:Hp; try lia.
    change (emax - prec) with 971.
    by rewrite (proj2 (Z.leb_le _ _)) by lia.
  - rewrite Zdigits2_log2 by lia.
    pose proof (log2_lt_pow2 m1 53 ltac:(lia) ltac:(lia)).
    rewrite fexp_eq in *. lia.
Qed.


Lemma shl_align_stay (m : positive) (e e' : Z) :
  e <= e' -> shl_align m e e' = (m, e).
Proof. intros H. unfold shl_align. destruct (e' - e) eqn:Hd; try reflexivity. lia. Qed.

Lemma shl_align_shift (m : positive) (e e' : Z) :
  e' < e ->
  exists m', shl_align m e e' = (m', e') /\ Zpos m' = Zpos m * 2 ^ (e - e').
Proof.
  intros H. unfold shl_align. destruct (e' - e) as [|d|d] eqn:Hd; try lia.
  eexists. split; [reflexivity|]. rewrite iter_xO. do 2 f_equal. lia.
Qed.

Lemma digits2_pos_shift (m m' : positive) (j : Z) :
  0 <= j -> Zpos m' = Zpos m * 2 ^ j ->
  Zpos (digits2_pos m') = Zpos (digits2_pos m) + j.
Proof.
  intros Hj H. rewrite !digits2_pos_log2, H, Z.log2_mul_pow2 by lia. lia.
Qed.

(** The rounding of [v] units of [2 ^ -1074]. *)
Lemma rnd_small (v : positive) :
  Zpos v < 2 ^ 53 -> rnd (Zpos v) = S754_finite false v (-1074).
Proof.
  intros Hv. unfold rnd, binary_normalize, binary_round.
  pose proof (log2_lt_pow2 (Zpos v) 53 ltac:(lia) Hv) as Hd.
  rewrite <- digits2_pos_log2 in Hd.
  rewrite shl_align_stay by (rewrite fexp_eq; lia).
  apply binary_round_aux_exact; [rewrite fexp_eq|]; lia.
Qed.

Lemma rnd_large (v : positive) :
  2 ^ 53 <= Zpos v -> Z.log2 (Zpos v) <= 2040 ->
  rnd (Zpos v)
  = let k := Z.log2 (Zpos v) - 52 in
    let m1 := rne k (Zpos v) in
    if m1 =? 2 ^ 53 then S754_finite false (Z.to_pos (2 ^ 52)) (k + 1 - 1074)
    else S754_finite false (Z.to_pos m1) (k - 1074).
Proof.
  intros Hv Hmax. unfold rnd, binary_normalize, binary_round.
  assert (Hd : 53 <= Z.log2 (Zpos v)) by (apply Z.log2_le_pow2; lia).
  pose proof (digits2_pos_log2 v) as Hdig.
  rewrite shl_align_stay by (rewrite fexp_eq; lia).
  rewrite (binary_round_aux_round false v (-1074) (Z.log2 (Zpos v) - 52))
    by (try rewrite fexp_eq; intros; lia).
  cbv zeta.
  assert (Hpk : 0 < 2 ^ (Z.log2 (Zpos v) - 52)) by (apply Z.pow_pos_nonneg; lia).
  assert (Hq : 2 ^ 52 <= Zpos v / 2 ^ (Z.log2 (Zpos v) - 52)).
  { apply Z.div_le_lower_bound; [lia|].
    rewrite <- Z.pow_add_r by lia.
    replace (Z.log2 (Zpos v) - 52 + 52) with (Z.log2 (Zpos v)) by lia.
    apply Z.log2_spec. lia. }
  pose proof (rne_bounds (Z.log2 (Zpos v) - 52) (Zpos v)) as [Hlo _].
  rewrite (proj2 (Z.eqb_neq _ 0)) by lia.
  replace (-1074 + (Z.log2 (Z.pos v) - 52) + 1) with (Z.log2 (Z.pos v) - 52 + 1 - 1074) by lia.
  replace (-1074 + (Z.log2 (Z.pos v) - 52)) with (Z.log2 (Z.pos v) - 52 - 1074) by lia.
  reflexivity.
Qed.


Lemma rne_large_bounds (v : Z) :
  2 ^ 53 <= v ->
  let k := Z.log2 v - 52 in
  1 <= k /\ 2 ^ 52 <= rne k v <= 2 ^ 53.
Proof.
  intros Hv k.
  assert (Hd : 53 <= Z.log2 v) by (apply Z.log2_le_pow2; lia).
  assert (Hk : 1 <= k) by (unfold k; lia).
  split; [exact Hk|].
  assert (Hpk : 0 < 2 ^ k) by (apply Z.pow_pos_nonneg; lia).
  pose proof (Z.log2_spec v ltac:(lia)) as [Hlo Hhi].
  pose proof (rne_bounds k v) as [Hq1 Hq2].
  assert (2 ^ 52 <= v / 2 ^ k).
  { apply Z.div_le_lower_bound; [lia|]. rewrite <- Z.pow_add_r by lia.
    replace (k + 52) with (Z.log2 v) by (unfold k; lia). exact Hlo. }
  assert (v / 2 ^ k < 2 ^ 53).
  { apply Z.div_lt_upper_bound; [lia|]. rewrite <- Z.pow_add_r by lia.
    replace (k + 53) with (Z.succ (Z.log2 v)) by (unfold k; lia). exact Hhi. }
  lia.
Qed.

Lemma rnd_zero : rnd 0 = S754_zero false.
Proof. reflexivity. Qed.

Lemma rnd_valid (v : Z) :
  0 <= v -> Z.log2 v <= 2040 -> valid_binary (rnd v) = true /\ nonneg (rnd v).
Proof.
  intros Hv Hmax. destruct v as [|p|p]; try lia; [done|].
  destruct (Z.lt_ge_cases (Zpos p) (2 ^ 53)) as [Hs|Hl].
  - rewrite rnd_small by done. split; [|done]. simpl.
    unfold bounded, canonical_mantissa. rewrite fexp_eq.
    pose proof (log2_lt_pow2 (Zpos p) 53 ltac:(lia) Hs) as Hd.
    rewrite <- digits2_pos_log2 in Hd.
    apply andb_true_intro. split; [apply Z.eqb_eq; lia | apply Z.leb_le].
    change (emax - prec) with 971. lia.
  - rewrite rnd_large by done. cbv zeta.
    destruct (rne_large_bounds (Zpos p) Hl) as [Hk Hm].
    set (k := Z.log2 (Zpos p) - 52) in *.
    destruct (Z.eqb_spec (rne k (Zpos p)) (2 ^ 53)) as [H53|H53].
    + split; [|done]. unfold valid_binary, bounded, canonical_mantissa.
      rewrite fexp_eq. change (Z.pos (digits2_pos (Z.to_pos (2 ^ 52)))) with 53.
      apply andb_true_intro. change (emax - prec) with 971.
      split; [apply Z.eqb_eq | apply Z.leb_le]; unfold k; lia.
    + split; [|done]. unfold valid_binary, bounded, canonical_mantissa.
      rewrite fexp_eq.
      destruct (rne k (Zpos p)) as [|m|m] eqn:Hm1; try lia.
      change (Z.to_pos (Z.pos m)) with m.
      assert (Hdig : Zpos (digits2_pos m) = 53).
      { rewrite digits2_pos_log2.
        pose proof (log2_lt_pow2 (Zpos m) 53 ltac:(lia) ltac:(lia)).
        assert (52 <= Z.log2 (Zpos m)) by (apply Z.log2_le_pow2; lia). lia. }
      rewrite Hdig. apply andb_true_intro. change (emax - prec) with 971.
      split; [apply Z.eqb_eq | apply Z.leb_le]; unfold k; lia.
Qed.

(** The value of [rnd v], in units of [2 ^ -1074]. *)
Definition rounded (v : Z) : Z :=
  if v <? 2 ^ 53 then v
  else rne (Z.log2 v - 52) v * 2 ^ (Z.log2 v - 52).

Lemma ulps_rnd (v : Z) :
  0 <= v -> Z.log2 v <= 2040 -> ulps (rnd v) = rounded v.
Proof.
  intros Hv Hmax. unfold rounded. destruct v as [|p|p]; try lia; [done|].
  destruct (Z.ltb_spec (Zpos p) (2 ^ 53)) as [Hs|Hl].
  - rewrite rnd_small by done. simpl. lia.
  - rewrite rnd_large by done. cbv zeta.
    destruct (rne_large_bounds (Zpos p) Hl) as [Hk Hm].
    set (k := Z.log2 (Zpos p) - 52) in *.
    destruct (Z.eqb_spec (rne k (Zpos p)) (2 ^ 53)) as [H53|H53].
    + rewrite H53. unfold ulps, cond_Zopp.
      replace (k + 1 - 1074 + 1074) with (1 + k) by lia.
      rewrite (Z.pow_add_r 2 1 k) by lia. simpl. lia.
    + unfold ulps, cond_Zopp. rewrite Z2Pos.id by lia. do 2 f_equal. lia.
Qed.

Lemma rounded_mono (v1 v2 : Z) :
  0 <= v1 -> v1 <= v2 -> rounded v1 <= rounded v2.
Proof.
  intros H0 Hle. unfold rounded.
  destruct (Z.ltb_spec v2 (2 ^ 53)) as [Hs2|Hl2].
  { rewrite (proj2 (Z.ltb_lt _ _)) by lia. exact Hle. }
  destruct (rne_large_bounds v2 Hl2) as [Hk2 Hm2].
  assert (Hp2 : 0 < 2 ^ (Z.log2 v2 - 52)) by (apply Z.pow_pos_nonneg; lia).
  destruct (Z.ltb_spec v1 (2 ^ 53)) as [Hs1|Hl1].
  { assert (2 ^ 1 <= 2 ^ (Z.log2 v2 - 52)) by (apply Z.pow_le_mono_r; lia).
    change (2 ^ 53) with (2 ^ 52 * 2 ^ 1) in Hs1. nia. }
  destruct (rne_large_bounds v1 Hl1) as [Hk1 Hm1].
  assert (Hp1 : 0 < 2 ^ (Z.log2 v1 - 52)) by (apply Z.pow_pos_nonneg; lia).
  pose proof (Z.log2_le_mono v1 v2 Hle) as Hlog.
  destruct (Z.eq_dec (Z.log2 v1) (Z.log2 v2)) as [Heq|Hne].
  - rewrite Heq. apply Z.mul_le_mono_nonneg_r; [lia|].
    apply rne_mono; lia.
  - apply Z.le_trans with (2 ^ 53 * 2 ^ (Z.log2 v1 - 52)).
    { apply Z.mul_le_mono_nonneg_r; lia. }
    apply Z.le_trans with (2 ^ 52 * 2 ^ (Z.log2 v2 - 52)).
    2: { apply Z.mul_le_mono_nonneg_r; lia. }
    rewrite <- !Z.pow_add_r by lia. apply Z.pow_le_mono_r; lia.
Qed.

Lemma SFleb_ulps (x y : spec_float) :
  valid_binary x = true -> valid_binary y = true -> nonneg x -> nonneg y ->
  SFleb x y = (ulps x <=? ulps y).
Proof.
  intros Hx Hy Hnx Hny. unfold SFleb. rewrite SFcompare_ulps by done.
  unfold Z.leb. by destruct (ulps x ?= ulps y).
Qed.

Lemma SFltb_ulps (x y : spec_float) :
  valid_binary x = true -> valid_binary y = true -> nonneg x -> nonneg y ->
  SFltb x y = (ulps x <? ulps y).
Proof.
  intros Hx Hy Hnx Hny. unfold SFltb. rewrite SFcompare_ulps by done.
  unfold Z.ltb. by destruct (ulps x ?= ulps y).
Qed.

Lemma rnd_mono (v1 v2 : Z) :
  0 <= v1 -> v1 <= v2 -> Z.log2 v2 <= 2040 -> SFleb (rnd v1) (rnd v2) = true.
Proof.
  intros H0 Hle Hmax.
  pose proof (Z.log2_le_mono v1 v2 Hle) as Hlog.
  destruct (rnd_valid v1) as [Hv1 Hn1]; [lia..|].
  destruct (rnd_valid v2) as [Hv2 Hn2]; [lia..|].
  rewrite SFleb_ulps, !ulps_rnd by (done || lia).
  apply Z.leb_le. by apply rounded_mono.
Qed.


(** A sum computed at the exponent [e] is rounded as its value in units of
    [2 ^ -1074] is. *)
Lemma binary_normalize_scale (M e : Z) :
  0 <= M -> -1074 <= e -> Z.log2 M + e <= 960 ->
  binary_normalize prec emax M e false = rnd (M * 2 ^ (e + 1074)).
Proof.
  intros HM He Hmax. destruct M as [|p|p]; try lia; [reflexivity|].
  set (j := e + 1074).
  assert (Hpj : 0 < 2 ^ j) by (apply Z.pow_pos_nonneg; lia).
  assert (HP : 0 < Zpos p * 2 ^ j) by lia.
  destruct (Zpos p * 2 ^ j) as [|p'|p'] eqn:HP'; try lia.
  symmetry in HP'.
  pose proof (digits2_pos_log2 p) as Hd.
  pose proof (digits2_pos_shift p p' j ltac:(lia) HP') as Hd'.
  pose proof (digits2_pos_log2 p') as Hlog'.
  unfold binary_normalize at 1. unfold binary_round.
  set (fe := fexp prec emax (Zpos (digits2_pos p) + e)).
  assert (Hfe : fe = Z.max (Zpos (digits2_pos p) + e - 53) (-1074)) by reflexivity.
  destruct (Z.lt_ge_cases (Zpos p') (2 ^ 53)) as [Hs|Hl].
  - (* the sum fits in 53 bits at the least exponent *)
    rewrite rnd_small by done.
    pose proof (log2_lt_pow2 (Zpos p') 53 ltac:(lia) Hs) as Hd53.
    destruct (Z.eq_dec e (-1074)) as [->|Hne].
    + rewrite shl_align_stay by lia.
      rewrite binary_round_aux_exact by (try rewrite fexp_eq; lia).
      f_equal. unfold j in HP'. simpl in HP'. lia.
    + destruct (shl_align_shift p e fe ltac:(lia)) as (m' & -> & Hm').
      pose proof (digits2_pos_shift p m' (e - fe) ltac:(lia) Hm') as Hdm.
      rewrite binary_round_aux_exact by (try rewrite fexp_eq; lia).
      replace fe with (-1074) in * by lia. f_equal.
      replace (e - -1074) with j in Hm' by (unfold j; lia). lia.
  - (* the sum is rounded to 53 bits *)
    assert (Hlog53 : 53 <= Z.log2 (Zpos p')) by (apply Z.log2_le_pow2; lia).
    rewrite rnd_large by (done || lia). cbv zeta.
    set (k' := Z.log2 (Zpos p') - 52).
    assert (Hk' : k' = fe + 1074) by (unfold k'; lia).
    destruct (Z.le_gt_cases fe e) as [Hle|Hgt].
    + assert (Hex : exists m', shl_align p e fe = (m', fe)
                               /\ Zpos m' = Zpos p * 2 ^ (e - fe)).
      { destruct (Z.eq_dec fe e) as [Heq|Hne].
        - exists p. rewrite shl_align_stay by lia. rewrite Heq, Z.sub_diag.
          split; [reflexivity|]. simpl. lia.
        - apply shl_align_shift. lia. }
      destruct Hex as (m' & -> & Hm').
      pose proof (digits2_pos_shift p m' (e - fe) ltac:(lia) Hm') as Hdm.
      rewrite binary_round_aux_exact by (try rewrite fexp_eq; lia).
      assert (Hsplit : Zpos p' = Zpos m' * 2 ^ k').
      { rewrite HP', Hm', <- Z.mul_assoc, <- Z.pow_add_r by lia.
        do 2 f_equal. unfold j. lia. }
      rewrite Hsplit, rne_exact by lia.
      pose proof (digits2_pos_bounds m') as [_ Hb].
      assert (Zpos m' < 2 ^ 53).
      { eapply Z.lt_le_trans; [exact Hb|]. apply Z.pow_le_mono_r; lia. }
      rewrite (proj2 (Z.eqb_neq _ _)) by lia.
      f_equal. lia.
    + rewrite shl_align_stay by lia.
      rewrite (binary_round_aux_round false p e (fe - e))
        by (try fold fe; intros; lia).
      cbv zeta.
      assert (Hsc : rne k' (Zpos p') = rne (fe - e) (Zpos p)).
      { rewrite HP'. replace k' with ((fe - e) + j) by (unfold j; lia).
        apply rne_scale; lia. }
      rewrite Hsc.
      destruct (rne_large_bounds (Zpos p') Hl) as [_ Hm]. fold k' in Hm.
      rewrite Hsc in Hm.
      rewrite (proj2 (Z.eqb_neq _ 0)) by lia.
      destruct (_ =? 2 ^ 53); f_equal; lia.
Qed.


(** *** Subtraction from one *)

Definition one64 : spec_float := S754_finite false (Z.to_pos (2 ^ 52)) (-52).

Lemma Prim2SF_one : Prim2SF 1 = one64.
Proof. vm_compute. reflexivity. Qed.

Lemma Prim2SF_zero : Prim2SF 0 = S754_zero false.
Proof. vm_compute. reflexivity. Qed.

Lemma rnd_one : rnd (2 ^ 1074) = one64.
Proof. vm_compute. reflexivity. Qed.

Lemma unit_exponent (m : positive) (e : Z) :
  bounded prec emax m e = true -> Zpos m * 2 ^ (e + 1074) <= 2 ^ 1074 ->
  e <= -52 /\ Zpos m <= 2 ^ (- e).
Proof.
  intros Hb Hle. apply bounded_inv in Hb as (He & Hd & Hn).
  assert (Hp : 0 < 2 ^ (e + 1074)) by (apply Z.pow_pos_nonneg; lia).
  assert (He52 : e <= -52).
  { destruct (Z.le_gt_cases e (-52)) as [|Hgt]; [done|].
    destruct Hn as [Hn|Hn]; [|lia].
    pose proof (digits2_pos_bounds m) as [Hm _]. rewrite Hn in Hm.
    change (53 - 1) with 52 in Hm.
    assert (2 ^ 1075 <= 2 ^ 52 * 2 ^ (e + 1074)).
    { rewrite <- Z.pow_add_r by lia. apply Z.pow_le_mono_r; lia. }
    assert (2 ^ 1074 < 2 ^ 1075) by (apply Z.pow_lt_mono_r; lia).
    assert (2 ^ 52 * 2 ^ (e + 1074) <= Zpos m * 2 ^ (e + 1074))
      by (apply Z.mul_le_mono_nonneg_r; lia).
    lia. }
  split; [exact He52|].
  apply Z.mul_le_mono_pos_r with (2 ^ (e + 1074)); [exact Hp|].
  rewrite <- Z.pow_add_r by lia. by replace (- e + (e + 1074)) with 1074 by lia.
Qed.

Lemma SF64sub_one (x : spec_float) :
  valid_binary x = true -> nonneg x -> ulps x <= 2 ^ 1074 ->
  SF64sub one64 x = rnd (2 ^ 1074 - ulps x).
Proof.
  destruct x as [s|s| |s m e]; try done.
  destruct s; [done|]. intros Hv _ Hle. simpl in Hv.
  unfold ulps, cond_Zopp in *.
  destruct (unit_exponent m e Hv Hle) as [He Hm].
    pose proof (bounded_inv m e Hv) as (Hb & _).
    unfold SF64sub, SFsub, one64.
    rewrite Z.min_r by lia. rewrite (shl_align_stay m e e) by lia.
    assert (Hex : exists m1, shl_align (Z.to_pos (2 ^ 52)) (-52) e = (m1, e)
                             /\ Zpos m1 = 2 ^ (- e)).
    { destruct (Z.eq_dec e (-52)) as [->|Hne].
      - eexists. by rewrite shl_align_stay by lia.
      - destruct (shl_align_shift (Z.to_pos (2 ^ 52)) (-52) e ltac:(lia))
          as (m1 & Hs & Hm1).
        exists m1. split; [exact Hs|]. rewrite Hm1.
        change (Z.pos (Z.to_pos (2 ^ 52))) with (2 ^ 52).
        rewrite <- Z.pow_add_r by lia. f_equal. lia. }
    destruct Hex as (m1 & -> & Hm1). unfold cond_Zopp. cbn [fst].
    assert (Hlog : Z.log2 (Zpos m1 - Zpos m) <= - e).
    { destruct (Z.eq_dec (Zpos m1 - Zpos m) 0) as [->|Hne]; [simpl; lia|].
      assert (Z.log2 (Zpos m1 - Zpos m) < - e); [|lia].
      apply Z.log2_lt_pow2; lia. }
    rewrite binary_normalize_scale by lia.
    f_equal. rewrite Z.mul_sub_distr_r, Hm1, <- Z.pow_add_r by lia.
    f_equal. f_equal. lia.
Qed.

Lemma in_unit_spec (x : float) :
  in_unit x ->
  valid_binary (Prim2SF x) = true /\ nonneg (Prim2SF x)
  /\ ulps (Prim2SF x) <= 2 ^ 1074.
Proof.
  intros [H0 H1]. rewrite leb_spec in H0, H1.
  rewrite Prim2SF_zero in H0. rewrite Prim2SF_one in H1.
  pose proof (Prim2SF_valid x) as Hv.
  assert (Hn : nonneg (Prim2SF x)).
  { destruct (Prim2SF x) as [s|s| |s m e]; try done.
    - by destruct s.
    - by destruct s. }
  split; [exact Hv|]. split; [exact Hn|].
  rewrite SFleb_ulps in H1 by done. by apply Z.leb_le in H1.
Qed.

Lemma sub_one_spec (x : float) :
  in_unit x -> Prim2SF (1 - x) = rnd (2 ^ 1074 - ulps (Prim2SF x)).
Proof.
  intros Hx. destruct (in_unit_spec x Hx) as (Hv & Hn & Hle).
  rewrite sub_spec, Prim2SF_one. by apply SF64sub_one.
Qed.

Lemma ulps_nonneg (x : spec_float) : nonneg x -> 0 <= ulps x.
Proof.
  destruct x as [s|s| |s m e]; simpl; try lia. destruct s; [done|]. intros _.
  simpl. apply Z.mul_nonneg_nonneg; [lia|]. apply Z.pow_nonneg. lia.
Qed.

Lemma log2_unit (v : Z) : v <= 2 ^ 1074 -> Z.log2 v <= 2040.
Proof.
  intros Hv. destruct (Z.le_gt_cases v 0) as [H0|H0].
  - rewrite Z.log2_nonpos by done. lia.
  - pose proof (Z.log2_le_mono v (2 ^ 1074) Hv) as H.
    rewrite Z.log2_pow2 in H by lia. lia.
Qed.

(** Subtracting from one keeps to the interval, *)
Lemma sub_one_in_unit (x : float) : in_unit x -> in_unit (1 - x).
Proof.
  intros Hx. destruct (in_unit_spec x Hx) as (Hv & Hn & Hle).
  pose proof (ulps_nonneg _ Hn) as H0.
  unfold in_unit. rewrite !leb_spec, (sub_one_spec x Hx), Prim2SF_zero, Prim2SF_one.
  rewrite <- rnd_zero, <- rnd_one. split.
  - apply rnd_mono; [lia..|]. apply log2_unit. lia.
  - apply rnd_mono; [lia..|]. by apply log2_unit.
Qed.

(** reverses the order, *)
Lemma sub_one_antitone (x y : float) :
  in_unit x -> in_unit y ->
  PrimFloat.leb x y = true -> PrimFloat.leb (1 - y) (1 - x) = true.
Proof.
  intros Hx Hy Hle.
  destruct (in_unit_spec x Hx) as (Hvx & Hnx & Hlx).
  destruct (in_unit_spec y Hy) as (Hvy & Hny & Hly).
  pose proof (ulps_nonneg _ Hnx). pose proof (ulps_nonneg _ Hny).
  rewrite leb_spec in *. rewrite SFleb_ulps in Hle by done. apply Z.leb_le in Hle.
  rewrite (sub_one_spec x Hx), (sub_one_spec y Hy).
  apply rnd_mono; [lia..|]. apply log2_unit. lia.
Qed.

Lemma SFleb_antisym_one (x : spec_float) :
  SFleb one64 x = true -> SFleb x one64 = true -> x = one64.
Proof.
  destruct x as [s|s| |s m e]; try done; try (by destruct s).
  unfold SFleb, SFcompare, one64. destruct s; [done|].
  destruct (Z.compare_spec (-52) e) as [<-|Hlt|Hgt]; try done.
  - change (-52 ?= -52) with Eq. cbv iota.
    rewrite !Pos.compare_cont_spec. unfold Pos.switch_Eq.
    destruct (Pos.compare_spec (Z.to_pos (2 ^ 52)) m) as [->|Hlt|Hgt]; try done.
    by rewrite (proj2 (Pos.compare_gt_iff _ _)) by done.
  - by rewrite (proj2 (Z.compare_gt_iff _ _)) by lia.
Qed.

(** and gives exactly one on what is at most [2 ^ -54]. *)
Lemma sub_one_tiny (x : float) :
  PrimFloat.leb 0 x = true -> PrimFloat.leb x 0x1p-54 = true ->
  PrimFloat.sub 1 x = 1%float.
Proof.
  intros H0 Ht.
  assert (Hx : in_unit x).
  { split; [exact H0|]. rewrite leb_spec in *.
    pose proof (Prim2SF_valid x) as Hv.
    rewrite Prim2SF_zero in H0.
    assert (Hn : nonneg (Prim2SF x)).
    { destruct (Prim2SF x) as [s|s| |s m e]; try done; by destruct s. }
    rewrite SFleb_ulps in Ht by done. rewrite Prim2SF_one, SFleb_ulps by done.
    apply Z.leb_le in Ht. apply Z.leb_le.
    eapply Z.le_trans; [exact Ht|]. vm_compute. discriminate. }
  destruct (in_unit_spec x Hx) as (Hv & Hn & Hle).
  pose proof (ulps_nonneg _ Hn) as Hpos.
  rewrite leb_spec in Ht. rewrite SFleb_ulps in Ht by done. apply Z.leb_le in Ht.
  change (ulps (Prim2SF 0x1p-54)) with (2 ^ 1020) in Ht.
  apply Prim2SF_inj. rewrite (sub_one_spec x Hx), Prim2SF_one.
  apply SFleb_antisym_one.
  - assert (Hlow : rnd (2 ^ 1074 - 2 ^ 1020) = one64) by (vm_compute; reflexivity).
    rewrite <- Hlow. apply rnd_mono; [| lia |].
    + vm_compute. discriminate.
    + apply log2_unit. lia.
  - rewrite <- rnd_one. apply rnd_mono; [lia..|]. by apply log2_unit.
Qed.


(** *** Multiplication by one *)

Lemma mul_one (x : float) : (x * 1)%float = x.
Proof.
  apply Prim2SF_inj. rewrite mul_spec, Prim2SF_one.
  pose proof (Prim2SF_valid x) as Hv.
  destruct (Prim2SF x) as [s|s| |s m e]; try (by destruct s); [done|].
  simpl in Hv. pose proof (bounded_inv m e Hv) as (He & Hd & _).
  unfold bounded, canonical_mantissa in Hv. apply andb_prop in Hv as [Hc _].
  apply Z.eqb_eq in Hc.
  unfold SF64mul, SFmul, one64. rewrite xorb_false_r.
  assert (HM : Zpos (m * Z.to_pos (2 ^ 52)) = Zpos m * 2 ^ 52) by done.
  pose proof (digits2_pos_shift m _ 52 ltac:(lia) HM) as Hdig.
  pose proof (digits2_pos_bounds m) as [_ Hm].
  assert (Hm53 : Zpos m < 2 ^ 53).
  { eapply Z.lt_le_trans; [exact Hm|]. apply Z.pow_le_mono_r; lia. }
  assert (Hrne : rne 52 (Zpos (m * Z.to_pos (2 ^ 52))) = Zpos m)
    by (rewrite HM; by apply rne_exact).
  rewrite (binary_round_aux_round s _ (e + -52) 52).
  - cbv zeta. rewrite Hrne.
    rewrite (proj2 (Z.eqb_neq _ 0)) by lia.
    rewrite (proj2 (Z.eqb_neq _ (2 ^ 53))) by lia.
    f_equal. lia.
  - lia.
  - rewrite Hdig.
    replace (Zpos (digits2_pos m) + 52 + (e + -52)) with (Zpos (digits2_pos m) + e)
      by lia.
    lia.
  - lia.
  - rewrite Hrne. lia.
Qed.

(** *** Order *)

Lemma SFcompare_opp (x y : spec_float) :
  SFcompare (SFopp y) (SFopp x) = SFcompare x y.
Proof.
  destruct x as [sx|sx| |sx mx ex], y as [sy|sy| |sy my ey];
    try destruct sx; try destruct sy; try reflexivity; simpl; f_equal.
  - rewrite (Z.compare_antisym ex ey).
    destruct (ex ?= ey); simpl; try reflexivity.
    symmetry. apply (Pos.compare_cont_antisym mx my Eq).
  - rewrite (Z.compare_antisym ex ey).
    destruct (ex ?= ey); simpl; try reflexivity.
    rewrite (Pos.compare_cont_antisym my mx Eq). reflexivity.
Qed.

(** Changing the signs reverses the order. *)
Lemma leb_opp (x y : float) :
  PrimFloat.leb x y = true -> PrimFloat.leb (- y) (- x) = true.
Proof. rewrite !leb_spec, !opp_spec. unfold SFleb. by rewrite SFcompare_opp. Qed.

(** What is below a double of the unit interval is below the greater ones. *)
Lemma ltb_leb_unit (d p p' : float) :
  in_unit p -> in_unit p' ->
  PrimFloat.ltb d p = true -> PrimFloat.leb p p' = true -> PrimFloat.ltb d p' = true.
Proof.
  intros Hp Hp'.
  destruct (in_unit_spec p Hp) as (Hv & Hn & _).
  destruct (in_unit_spec p' Hp') as (Hv' & Hn' & _).
  rewrite !ltb_spec, leb_spec. pose proof (Prim2SF_valid d) as Hd.
  rewrite (SFleb_ulps _ _ Hv Hv' Hn Hn'). intros Hlt Hle. apply Z.leb_le in Hle.
  destruct (Prim2SF d) as [s|s| |s m e] eqn:HD.
  - rewrite SFltb_ulps in * by done. apply Z.ltb_lt in Hlt. apply Z.ltb_lt. lia.
  - destruct s.
    + by destruct (Prim2SF p') as [?|?| |[] ? ?].
    + by destruct (Prim2SF p) as [?|?| |[] ? ?].
  - done.
  - destruct s.
    + by destruct (Prim2SF p') as [?|?| |[] ? ?].
    + rewrite SFltb_ulps in * by done. apply Z.ltb_lt in Hlt. apply Z.ltb_lt. lia.
Qed.

(** Nothing that is at least zero is below zero. *)
Lemma ltb_zero (d : float) :
  PrimFloat.leb 0 d = true -> PrimFloat.ltb d 0 = false.
Proof.
  rewrite leb_spec, ltb_spec, Prim2SF_zero.
  by destruct (Prim2SF d) as [s|[]| |[] m e].
Qed.

(** The doubles that compare equal to zero are the two zeros. *)
Lemma eqb_zero (r : float) :
  PrimFloat.eqb r 0 = true -> r = 0%float \/ r = (-0)%float.
Proof.
  rewrite FloatAxioms.eqb_spec, Prim2SF_zero. intros H.
  destruct (Prim2SF r) as [s|s| |s m e] eqn:Hr; try done; try (by destruct s).
  destruct s; [right | left]; by apply Prim2SF_inj.
Qed.

End Binary64Facts.

(** ** Rates and probabilities (C8) *)

Section RateToProbability.
Import Util.

(** [np.exp] at the arguments of the examples: the doubles nearest to the
    exponentials, which is what the C library returns there.  Elsewhere
    the table has no entry. *)
Definition exp_sample (x : float) : float :=
  if (x =? 0)%float then 1%float
  else if (x =? -1)%float then 0.36787944117144233%float
  else if (x =? -2)%float then 0.1353352832366127%float
  else if (x =? -40)%float then 4.248354255291589e-18%float
  else nan.

(** [np_exp] is to the arguments [- r'] and [- r] what the exponential is
    to a rate [r] and a greater rate [r']: both values lie between 0 and 1
    and they are in order. *)
Definition exp_respects (np_exp : float -> float) (r r' : float) : Prop :=
  Float64.in_unit (np_exp (- r)%float)
  /\ Float64.in_unit (np_exp (- r')%float)
  /\ ((- r' <=? - r)%float = true ->
      (np_exp (- r') <=? np_exp (- r))%float = true).

Lemma rate_to_probability_mono (np_exp : float -> float) (r r' : float) :
  (r <=? r')%float = true -> exp_respects np_exp r r' ->
  (rate_to_probability np_exp r <=? rate_to_probability np_exp r')%float = true.
Proof.
  intros Hle (Hr & Hr' & Hexp). unfold rate_to_probability.
  apply sub_one_antitone; [done..|]. apply Hexp. by apply leb_opp.
Qed.

(** C8 (amended).  In double arithmetic [rate_to_probability] vanishes at
    rate 0 (the exponential of a zero being 1); it is monotone in the rate
    wherever [np.exp] is; it lies between 0 and 1, both included, wherever
    the exponential does; and it does not only tend to 1: it is 1 as soon
    as the exponential is at most [2 ^ -54]. *)
Theorem rate_to_probability_laws (np_exp : float -> float) :
  (np_exp (- 0)%float = 1%float -> rate_to_probability np_exp 0 = 0%float)
  /\ (forall r r', (r <=? r')%float = true -> exp_respects np_exp r r' ->
        (rate_to_probability np_exp r <=? rate_to_probability np_exp r')%float = true)
  /\ (forall r, Float64.in_unit (np_exp (- r)%float) ->
        Float64.in_unit (rate_to_probability np_exp r))
  /\ (forall r, (0 <=? np_exp (- r))%float = true ->
        (np_exp (- r) <=? 0x1p-54)%float = true ->
        rate_to_probability np_exp r = 1%float).
Proof.
  split; [|split; [|split]].
  - unfold rate_to_probability. intros ->. reflexivity.
  - apply rate_to_probability_mono.
  - intros r Hr. by apply sub_one_in_unit.
  - intros r H0 Htiny. by apply sub_one_tiny.
Qed.

Lemma rate_to_probability_laws_witness :
  (rate_to_probability exp_sample 1 <=? rate_to_probability exp_sample 2)%float = true
  /\ rate_to_probability exp_sample 40 = 1%float.
Proof.
  destruct (rate_to_probability_laws exp_sample) as (_ & Hmono & _ & Hone).
  split.
  - apply Hmono; [reflexivity|]. repeat split; reflexivity.
  - apply Hone; reflexivity.
Defined.

(** C8 (the claim as stated fails).  At the rate 40 the probability is 1:
    it is not below 1. *)
Lemma rate_to_probability_reaches_one :
  rate_to_probability exp_sample 40 = 1%float
  /\ (rate_to_probability exp_sample 40 <? 1)%float = false.
Proof. split; reflexivity. Qed.

End RateToProbability.

(** ** Module ordering (C3, C4) *)

Section SortModulesFacts.
Import Util.
Context {M : Type}.
Variable cls : M -> string.
Variable DEPENDENCIES : M -> list string.

Local Abbreviation index := (index cls).
Local Abbreviation inner_sort := (inner_sort cls DEPENDENCIES).
Local Abbreviation sort_loop := (sort_loop cls DEPENDENCIES).
Local Abbreviation sort_modules := (sort_modules cls DEPENDENCIES).

(** The exceptions [sort_modules] can end with. *)
Definition sort_failure (registry : gmap string M) (e : exn) : Prop :=
  e = NameError "modules"
  \/ exists d, e = KeyError (KName d) /\ registry !! d = None.

Lemma index_Some_elem (l : list M) (x : M) (i : nat) :
  index l x = Some i -> exists y, y ∈ l /\ cls y = cls x.
Proof.
  revert i. induction l as [|y l IH]; intros i; simpl; [done|].
  unfold same_module. case_bool_decide as Hc.
  - intros _. exists y. split; [left | done].
  - destruct (index l x) as [j|] eqn:Hj; [|done].
    intros _. destruct (IH j eq_refl) as (z & Hz & Hcz).
    exists z. split; [by right | done].
Qed.

Lemma index_None (l : list M) (x : M) :
  (forall y, y ∈ l -> cls y <> cls x) -> index l x = None.
Proof.
  intros Hne. destruct (index l x) as [i|] eqn:Hi; [|done].
  destruct (index_Some_elem _ _ _ Hi) as (y & Hy & Hc).
  by destruct (Hne y Hy).
Qed.

Lemma visit_dependency_raises registry sorted_modules i d e :
  visit_dependency cls registry sorted_modules i d = Raise e ->
  sort_failure registry e.
Proof.
  unfold visit_dependency, registry_get.
  destruct (registry !! d) as [m|] eqn:Hd; simpl.
  - destruct (index sorted_modules m); [done|].
    intros [= <-]. by left.
  - intros [= <-]. right. by exists d.
Qed.

Lemma visit_all_raises registry sorted_modules deps i e :
  for_each (visit_dependency cls registry sorted_modules) deps i = Raise e ->
  sort_failure registry e.
Proof.
  revert i. induction deps as [|d deps IH]; intros i; simpl; [done|].
  destruct (visit_dependency cls registry sorted_modules i d) as [j|e'] eqn:Hv; simpl.
  - apply IH.
  - intros [= <-]. by eapply visit_dependency_raises.
Qed.

Lemma visit_all_unregistered registry sorted_modules deps i d :
  d ∈ deps -> registry !! d = None ->
  exists e, for_each (visit_dependency cls registry sorted_modules) deps i = Raise e.
Proof.
  intros Hin Hd. revert i.
  induction deps as [|d' deps IH]; intros i; [by apply elem_of_nil in Hin|].
  simpl.
  destruct (visit_dependency cls registry sorted_modules i d') as [j|e'] eqn:Hv;
    simpl; [|by eexists].
  apply elem_of_cons in Hin as [->|Hin]; [|by apply IH].
  unfold visit_dependency, registry_get in Hv. by rewrite Hd in Hv.
Qed.

Lemma inner_sort_raises registry sorted_modules current e :
  inner_sort registry sorted_modules current = Raise e -> sort_failure registry e.
Proof.
  unfold inner_sort. destruct (DEPENDENCIES current) as [|d deps]; [done|].
  destruct (for_each _ (d :: deps) O) as [i|e'] eqn:Hv; simpl; [done|].
  intros [= <-]. by eapply visit_all_raises.
Qed.

Lemma inner_sort_unregistered registry sorted_modules current d :
  d ∈ DEPENDENCIES current -> registry !! d = None ->
  exists e, inner_sort registry sorted_modules current = Raise e.
Proof.
  intros Hin Hd. unfold inner_sort.
  destruct (DEPENDENCIES current) as [|d' deps] eqn:Hdeps;
    [by apply elem_of_nil in Hin|].
  destruct (visit_all_unregistered registry sorted_modules (d' :: deps) O d Hin Hd)
    as [e He].
  rewrite He. by eexists.
Qed.

Lemma inner_sort_Permutation registry sorted_modules current l :
  inner_sort registry sorted_modules current = Ok l ->
  l ≡ₚ current :: sorted_modules.
Proof.
  unfold inner_sort. destruct (DEPENDENCIES current) as [|d deps].
  - by intros [= <-].
  - destruct (for_each _ (d :: deps) O) as [i|e'] eqn:Hv; simpl; [|done].
    intros [= <-].
    rewrite <- (take_drop (S i) sorted_modules) at 3.
    by rewrite Permutation_middle.
Qed.

Lemma sort_loop_unregistered registry to_sort sorted_modules m d :
  NoDup (cls <$> to_sort) ->
  (forall x y, x ∈ sorted_modules -> y ∈ to_sort -> cls x <> cls y) ->
  m ∈ to_sort -> d ∈ DEPENDENCIES m -> registry !! d = None ->
  exists e, sort_loop registry to_sort sorted_modules = Raise e
            /\ sort_failure registry e.
Proof.
  intros Hnd Hfresh Hm Hd Hreg. revert sorted_modules Hnd Hfresh Hm.
  induction to_sort as [|c rest IH]; intros sorted_modules Hnd Hfresh Hm;
    [by apply elem_of_nil in Hm|].
  cbn [Util.sort_loop].
  assert (difference_nonempty cls (c :: rest) sorted_modules = true) as ->.
  { unfold difference_nonempty. apply existsb_exists. exists m. split.
    - by apply list_elem_of_In.
    - rewrite (index_None sorted_modules m).
      + by rewrite bool_decide_eq_false_2 by (by intros [? ?]).
      + intros y Hy. by apply Hfresh. }
  apply NoDup_cons in Hnd as [Hc Hnd].
  destruct (inner_sort registry sorted_modules c) as [l|e] eqn:Hin; simpl.
  - apply elem_of_cons in Hm as [->|Hm].
    + destruct (inner_sort_unregistered registry sorted_modules c d Hd Hreg)
        as [e He]. congruence.
    + apply IH; [done| |done].
      intros x y Hx Hy.
      apply inner_sort_Permutation in Hin. rewrite Hin in Hx.
      apply elem_of_cons in Hx as [->|Hx].
      * intros Heq. apply Hc. rewrite Heq. by apply list_elem_of_fmap_2.
      * apply Hfresh; [done | by right].
  - exists e. split; [done | by eapply inner_sort_raises].
Qed.

(** C4 (amended).  When some module to be ordered declares a dependency on
    an identity that is not registered, computing the order fails whatever
    the order in which the set hands the modules out: it ends with an
    exception, which is the [KeyError] of the registry on an unregistered
    identity unless the [NameError] of the handler came first. *)
Theorem sort_modules_unregistered_dependency
    (registry : gmap string M) (to_sort : list M) (m : M) (d : string) :
  NoDup (cls <$> to_sort) ->
  m ∈ to_sort -> d ∈ DEPENDENCIES m -> registry !! d = None ->
  exists e, sort_modules to_sort registry = Raise e
            /\ (e = NameError "modules"
                \/ exists d', e = KeyError (KName d') /\ registry !! d' = None).
Proof.
  intros Hnd Hm Hd Hreg. unfold Util.sort_modules.
  apply (sort_loop_unregistered registry to_sort [] m d); try done.
  intros x y Hx. by apply elem_of_nil in Hx.
Qed.

End SortModulesFacts.

Section SortModulesSound.
Import Util.
Context {M : Type}.
Variable cls : M -> string.
Variable DEPENDENCIES : M -> list string.

Local Abbreviation index := (index cls).
Local Abbreviation inner_sort := (inner_sort cls DEPENDENCIES).
Local Abbreviation sort_loop := (sort_loop cls DEPENDENCIES).
Local Abbreviation sort_modules := (sort_modules cls DEPENDENCIES).

(** Every module of the list comes after the registered module of each of
    its dependencies. *)
Definition after_dependencies (registry : gmap string M) (l : list M) : Prop :=
  forall j m d,
    l !! j = Some m -> d ∈ DEPENDENCIES m ->
    exists dm i x,
      registry !! d = Some dm /\ l !! i = Some x /\ cls x = cls dm /\ (i < j)%nat.

Lemma index_Some_lookup (l : list M) (x : M) (i : nat) :
  index l x = Some i -> exists y, l !! i = Some y /\ cls y = cls x.
Proof.
  revert i. induction l as [|y l IH]; intros i; simpl; [done|].
  unfold same_module. case_bool_decide as Hc.
  - intros [= <-]. by exists y.
  - destruct (index l x) as [j|] eqn:Hj; [|done].
    intros [= <-]. by apply IH.
Qed.

Lemma visit_all_Ok registry sorted_modules deps i0 i :
  for_each (visit_dependency cls registry sorted_modules) deps i0 = Ok i ->
  (i0 <= i)%nat
  /\ (i = i0 \/ (i < length sorted_modules)%nat)
  /\ forall d, d ∈ deps ->
       exists dm x jd,
         registry !! d = Some dm /\ sorted_modules !! jd = Some x
         /\ cls x = cls dm /\ (jd <= i)%nat.
Proof.
  revert i0. induction deps as [|d deps IH]; intros i0; simpl.
  - intros [= <-]. split; [done|]. split; [by left|].
    intros d Hd. by apply elem_of_nil in Hd.
  - unfold visit_dependency at 1, registry_get.
    destruct (registry !! d) as [dm|] eqn:Hd; simpl; [|done].
    destruct (index sorted_modules dm) as [jd|] eqn:Hjd; simpl; [|done].
    intros Hrest. destruct (IH _ Hrest) as (Hle & Hbound & Hall).
    destruct (index_Some_lookup _ _ _ Hjd) as (x & Hx & Hcx).
    pose proof (lookup_lt_Some _ _ _ Hx) as Hlt.
    split; [lia|]. split.
    + destruct Hbound as [->|Hb]; [|by right].
      destruct (Nat.max_spec i0 jd) as [[_ ->]|[_ ->]]; [by right | by left].
    + intros d' [->|Hd']%elem_of_cons; [|by apply Hall].
      exists dm, x, jd. repeat split; try done. lia.
Qed.

Lemma lookup_inserted (s : list M) (c : M) (i j : nat) :
  (S i <= length s)%nat ->
  (take (S i) s ++ c :: drop (S i) s) !! j
  = if decide (j < S i)%nat then s !! j
    else if decide (j = S i) then Some c else s !! (j - 1)%nat.
Proof.
  intros Hi. case_decide as Hj.
  - rewrite lookup_app_l by (rewrite length_take_le; lia).
    by rewrite lookup_take_lt.
  - rewrite lookup_app_r, length_take_le by (try rewrite length_take_le; lia).
    destruct (j - S i)%nat as [|n] eqn:Hn; simpl.
    + rewrite decide_True by lia. done.
    + rewrite decide_False by lia. rewrite lookup_drop. f_equal. lia.
Qed.

Lemma inner_sort_sound registry sorted_modules current l :
  after_dependencies registry sorted_modules ->
  inner_sort registry sorted_modules current = Ok l ->
  after_dependencies registry l.
Proof.
  intros Hinv. unfold Util.inner_sort.
  destruct (DEPENDENCIES current) as [|d0 deps] eqn:Hdeps.
  - intros [= <-]. intros [|j] m d Hm Hd; simpl in Hm.
    + injection Hm as <-. rewrite Hdeps in Hd. by apply elem_of_nil in Hd.
    + destruct (Hinv j m d Hm Hd) as (dm & i & x & Hr & Hx & Hc & Hlt).
      exists dm, (S i), x. repeat split; try done. lia.
  - destruct (for_each _ (d0 :: deps) O) as [i|] eqn:Hvisit; simpl; [|done].
    intros [= <-].
    destruct (visit_all_Ok _ _ _ _ _ Hvisit) as (_ & Hbound & Hall).
    assert (Hi : (S i <= length sorted_modules)%nat).
    { destruct Hbound as [->|Hb]; [|lia].
      destruct (Hall d0) as (_ & x & jd & _ & Hx & _ & _); [by left|].
      apply lookup_lt_Some in Hx. lia. }
    change (after_dependencies registry
              (take (S i) sorted_modules ++ current :: drop (S i) sorted_modules)).
    intros j m d. rewrite lookup_inserted by done.
    intros Hm Hd.
    assert (Hmove : forall p x, sorted_modules !! p = Some x ->
              (take (S i) sorted_modules ++ current :: drop (S i) sorted_modules)
                !! (if decide (p < S i)%nat then p else S p) = Some x).
    { intros p x Hx. rewrite lookup_inserted by done.
      destruct (decide (p < S i)%nat).
      - by rewrite decide_True by done.
      - rewrite decide_False by lia. rewrite decide_False by lia.
        by replace (S p - 1)%nat with p by lia. }
    destruct (decide (j < S i)%nat) as [Hj|Hj].
    + destruct (Hinv j m d Hm Hd) as (dm & p & x & Hr & Hx & Hc & Hlt).
      exists dm, p, x. repeat split; try done.
      specialize (Hmove p x Hx). by rewrite decide_True in Hmove by lia.
    + destruct (decide (j = S i)) as [->|Hne].
      * injection Hm as <-. rewrite Hdeps in Hd.
        destruct (Hall d Hd) as (dm & x & jd & Hr & Hx & Hc & Hle).
        exists dm, jd, x. repeat split; try done; [|lia].
        specialize (Hmove jd x Hx). by rewrite decide_True in Hmove by lia.
      * destruct (Hinv (j - 1)%nat m d Hm Hd) as (dm & p & x & Hr & Hx & Hc & Hlt).
        exists dm, (if decide (p < S i)%nat then p else S p), x.
        repeat split; try done; [by apply Hmove|].
        case_decide; lia.
Qed.

Lemma sort_loop_sound registry to_sort sorted_modules l :
  after_dependencies registry sorted_modules ->
  sort_loop registry to_sort sorted_modules = Ok l ->
  after_dependencies registry l.
Proof.
  revert sorted_modules. induction to_sort as [|c rest IH]; intros sorted_modules Hinv.
  - by intros [= <-].
  - cbn [Util.sort_loop]. destruct (difference_nonempty _ _ _); [|by intros [= <-]].
    destruct (inner_sort registry sorted_modules c) as [s'|] eqn:Hin; simpl; [|done].
    apply IH. by eapply inner_sort_sound.
Qed.

Lemma sort_loop_Permutation registry to_sort sorted_modules l :
  NoDup (cls <$> to_sort) ->
  (forall x y, x ∈ sorted_modules -> y ∈ to_sort -> cls x <> cls y) ->
  sort_loop registry to_sort sorted_modules = Ok l ->
  l ≡ₚ to_sort ++ sorted_modules.
Proof.
  revert sorted_modules.
  induction to_sort as [|c rest IH]; intros sorted_modules Hnd Hfresh.
  - by intros [= <-].
  - cbn [Util.sort_loop].
    assert (difference_nonempty cls (c :: rest) sorted_modules = true) as ->.
    { unfold difference_nonempty. apply existsb_exists. exists c. split; [by left|].
      rewrite (index_None cls sorted_modules c).
      - by rewrite bool_decide_eq_false_2 by (by intros [? ?]).
      - intros y Hy. apply Hfresh; [done | by left]. }
    apply NoDup_cons in Hnd as [Hc Hnd].
    destruct (inner_sort registry sorted_modules c) as [s'|] eqn:Hin; simpl; [|done].
    pose proof (inner_sort_Permutation _ _ _ _ _ _ Hin) as Hperm.
    intros Hrest. rewrite (IH s' Hnd); [by rewrite Hperm, Permutation_middle| |done].
    intros x y Hx Hy. rewrite Hperm in Hx.
    apply elem_of_cons in Hx as [->|Hx].
    + intros Heq. apply Hc. rewrite Heq. by apply list_elem_of_fmap_2.
    + apply Hfresh; [done | by right].
Qed.

(** What [sort_modules] returns, when it returns: the modules it was
    given, each after the registered modules of its dependencies. *)
Lemma sort_modules_sound (registry : gmap string M) (to_sort l : list M) :
  NoDup (cls <$> to_sort) ->
  sort_modules to_sort registry = Ok l ->
  l ≡ₚ to_sort /\ after_dependencies registry l.
Proof.
  intros Hnd Hsort. unfold Util.sort_modules in Hsort. split.
  - rewrite (sort_loop_Permutation _ _ _ _ Hnd) by
      (try done; intros x y Hx; by apply elem_of_nil in Hx).
    by rewrite app_nil_r.
  - eapply sort_loop_sound; [|done].
    intros j m d Hm. by rewrite lookup_nil in Hm.
Qed.

End SortModulesSound.

Section SortModulesExamples.
Import Util.

(** Two modules outside the kernel: [module_b] depends on [module_a]. *)
Definition module_a : SimulationModule.t :=
  SimulationModule.plain "A" [] EventHandler.init.
Definition module_b : SimulationModule.t :=
  SimulationModule.plain "B" ["A"] EventHandler.init.

(** A module that names the base module among its dependencies. *)
Definition module_on_base : SimulationModule.t :=
  SimulationModule.plain "OnBase" [Simulation.base_class] EventHandler.init.

(** A module whose dependency is registered nowhere. *)
Definition module_dangling : SimulationModule.t :=
  SimulationModule.plain "Dangling" ["Missing"] EventHandler.init.

Definition base_module : SimulationModule.t :=
  BaseSimulationModule.new (fun _ => []).

Definition registry_ab : gmap string SimulationModule.t :=
  <["B" := module_b]> (<["A" := module_a]> ∅).

(** C3 (the code at the failing inputs).  When [sort_modules] returns, its
    result is a linear extension ([sort_modules_sound]); but it does not
    always return.  A simulation that holds the base
    module accepts no module that declares the base module as a
    dependency: the base module is taken out of the set that is sorted, so
    the dependency is never found in the sorted list and the handler of
    that case raises [NameError] on its unbound name.  The same happens
    for a dependency between two ordinary modules as soon as the set hands
    out the dependent module first; handed out the other way round, the
    two are ordered. *)
Theorem register_module_fails_on_registered_dependency :
  (exists sim,
      Simulation.register_module (fun l => l) Simulation.blank base_module = Ok sim
      /\ Simulation.register_module (fun l => l) sim module_on_base
         = Raise (NameError "modules"))
  /\ sort_modules SimulationModule.cls SimulationModule.DEPENDENCIES
       [module_b; module_a] registry_ab = Raise (NameError "modules")
  /\ sort_modules SimulationModule.cls SimulationModule.DEPENDENCIES
       [module_a; module_b] registry_ab = Ok [module_a; module_b].
Proof.
  split; [|split].
  - eexists. split; [vm_compute; reflexivity|]. vm_compute. reflexivity.
  - vm_compute. reflexivity.
  - vm_compute. reflexivity.
Qed.

(** C4 (the claim as stated fails).  The exception raised for an
    unregistered dependency is the [KeyError] of the registry lookup. *)
Lemma sort_modules_unregistered_is_KeyError :
  sort_modules SimulationModule.cls SimulationModule.DEPENDENCIES
    [module_dangling] (<["Dangling" := module_dangling]> ∅)
  = Raise (KeyError (KName "Missing"))
  /\ exn_name (KeyError (KName "Missing")) <> "UnresolvedDependencyError".
Proof.
  split; [vm_compute; reflexivity | discriminate].
Qed.

Lemma sort_modules_unregistered_dependency_witness :
  exists e,
    sort_modules SimulationModule.cls SimulationModule.DEPENDENCIES
      [module_a; module_dangling]
      (<["Dangling" := module_dangling]> (<["A" := module_a]> ∅)) = Raise e
    /\ (e = NameError "modules"
        \/ exists d', e = KeyError (KName d')
             /\ (<["Dangling" := module_dangling]> (<["A" := module_a]> ∅)
                  : gmap string SimulationModule.t) !! d' = None).
Proof.
  apply (sort_modules_unregistered_dependency
           SimulationModule.cls SimulationModule.DEPENDENCIES
           (<["Dangling" := module_dangling]> (<["A" := module_a]> ∅))
           [module_a; module_dangling] module_dangling "Missing").
  - apply NoDup_cons. split; [set_solver | apply NoDup_singleton].
  - set_solver.
  - simpl. set_solver.
  - vm_compute. reflexivity.
Defined.

End SortModulesExamples.

(** ** The event bus (C5, C6, C10) *)

Section SortedFacts.
Context {A : Type}.
Variable key : A -> Z.

Lemma insert_by_key_Permutation (x : A) (l : list A) :
  insert_by_key key x l ≡ₚ x :: l.
Proof.
  induction l as [|y l IH]; simpl; [done|].
  destruct (key x <=? key y); [done|].
  rewrite IH. apply Permutation_swap.
Qed.

Lemma sorted_Permutation (l : list A) : sorted key l ≡ₚ l.
Proof.
  induction l as [|x l IH]; simpl; [done|].
  by rewrite insert_by_key_Permutation, IH.
Qed.





End SortedFacts.

Lemma comprehension_Ok {A B : Type} (f : A -> result B) (xs : list A) :
  (forall x, x ∈ xs -> exists y, f x = Ok y) ->
  exists ys, comprehension f xs = Ok ys /\ Forall2 (fun x y => f x = Ok y) xs ys.
Proof.
  induction xs as [|x xs IH]; intros Hf; simpl.
  - exists []. by split.
  - destruct (Hf x) as [y Hy]; [left|]. rewrite Hy. simpl.
    destruct IH as (ys & -> & Hall); [intros; apply Hf; by right|].
    exists (y :: ys). split; [done | by constructor].
Qed.

Lemma comprehension_inv {A B : Type} (f : A -> result B) (xs : list A) (ys : list B) :
  comprehension f xs = Ok ys -> Forall2 (fun x y => f x = Ok y) xs ys.
Proof.
  revert ys. induction xs as [|x xs IH]; intros ys; simpl.
  - intros [= <-]. constructor.
  - destruct (f x) as [y|] eqn:Hy; simpl; [|done].
    destruct (comprehension f xs) as [ys'|]; simpl; [|done].
    intros [= <-]. constructor; [done | by apply IH].
Qed.

Section EventHandlerFacts.
Import EventHandler.

(** A registration: the listener, the label and the priority. *)
Definition registration : Type := string * option string * Z.

(** The handler after a sequence of registrations. *)
Definition register_all (regs : list registration) : t :=
  fold_left (fun h r => register_event_listener h r.1.1 r.1.2 r.2) regs init.

(** A label that is [None] or a non-empty string. *)
Definition plain_label (label : option string) : Prop := label <> Some "".

Lemma truthy_false_plain (label : option string) :
  plain_label label -> truthy label = false -> label = None.
Proof.
  destruct label as [s|]; [|done]. simpl. intros Hp.
  destruct (String.eqb_spec s ""); [by subst | done].
Qed.

Lemma listeners_at_register h listener label priority label' l :
  l ∈ listeners_at (register_event_listener h listener label priority) label'
  <-> l ∈ listeners_at h label'
      \/ (truthy label = true /\ label' = label /\ l = listener).
Proof.
  unfold register_event_listener, listeners_at.
  destruct (truthy label) eqn:Ht; simpl.
  - destruct (decide (label' = label)) as [->|Hne].
    + rewrite lookup_insert_eq. simpl. set_solver.
    + rewrite lookup_insert_ne by done. naive_solver.
  - naive_solver.
Qed.

Lemma generic_register h listener label priority l :
  l ∈ _generic_listeners (register_event_listener h listener label priority)
  <-> l ∈ _generic_listeners h \/ (truthy label = false /\ l = listener).
Proof.
  unfold register_event_listener.
  destruct (truthy label) eqn:Ht; simpl; set_solver.
Qed.

Lemma priorities_register h listener label priority :
  _listener_priorities (register_event_listener h listener label priority)
  = <[(label, listener) := priority]> (_listener_priorities h).
Proof. unfold register_event_listener. by destruct (truthy label). Qed.

Lemma register_all_snoc regs r :
  register_all (regs ++ [r])
  = register_event_listener (register_all regs) r.1.1 r.1.2 r.2.
Proof. unfold register_all. by rewrite fold_left_app. Qed.

(** Who is stored where after a sequence of registrations. *)
Lemma listeners_at_register_all regs label l :
  l ∈ listeners_at (register_all regs) label
  <-> truthy label = true /\ exists p, (l, label, p) ∈ regs.
Proof.
  induction regs as [|[[l' lab'] p'] regs IH] using rev_ind.
  - unfold register_all, listeners_at. simpl. rewrite lookup_empty. simpl.
    split; [set_solver|]. intros (_ & p & Hp). by apply elem_of_nil in Hp.
  - rewrite register_all_snoc, listeners_at_register, IH. simpl. split.
    + intros [(Ht & p & Hp) | (Ht & -> & ->)].
      * split; [done|]. exists p. apply elem_of_app. by left.
      * split; [done|]. exists p'. apply elem_of_app. right. by left.
    + intros (Ht & p & Hp). apply elem_of_app in Hp as [Hp|Hp].
      * left. eauto.
      * apply list_elem_of_singleton in Hp. injection Hp as -> -> ->. by right.
Qed.

Lemma generic_register_all regs l :
  l ∈ _generic_listeners (register_all regs)
  <-> exists label p, truthy label = false /\ (l, label, p) ∈ regs.
Proof.
  induction regs as [|[[l' lab'] p'] regs IH] using rev_ind.
  - unfold register_all. simpl. split; [set_solver|].
    intros (lab & p & _ & Hp). by apply elem_of_nil in Hp.
  - rewrite register_all_snoc, generic_register, IH. simpl. split.
    + intros [(lab & p & Ht & Hp) | (Ht & ->)].
      * exists lab, p. split; [done|]. apply elem_of_app. by left.
      * exists lab', p'. split; [done|]. apply elem_of_app. right. by left.
    + intros (lab & p & Ht & Hp). apply elem_of_app in Hp as [Hp|Hp].
      * left. eauto.
      * apply list_elem_of_singleton in Hp. injection Hp as -> -> ->. by right.
Qed.

Lemma priorities_register_all regs label l p :
  (l, label, p) ∈ regs ->
  is_Some (_listener_priorities (register_all regs) !! (label, l)).
Proof.
  induction regs as [|[[l' lab'] p'] regs IH] using rev_ind.
  - intros Hp. by apply elem_of_nil in Hp.
  - rewrite register_all_snoc, priorities_register. simpl. intros Hp.
    destruct (decide ((lab', l') = (label, l))) as [[= -> ->]|Hne].
    + rewrite lookup_insert_eq. eauto.
    + rewrite lookup_insert_ne by done. apply IH.
      apply elem_of_app in Hp as [Hp|Hp]; [done|].
      apply list_elem_of_singleton in Hp. injection Hp as -> -> ->. done.
Qed.

End EventHandlerFacts.

Section EmitOrder.
Import EventHandler.

Variable set_iter : gset string -> list string.
Hypothesis set_iter_elements : forall s, set_iter s ≡ₚ elements s.

Lemma collect_part_Ok (h : t) (label : option string) (ls : list string) :
  (forall l, l ∈ ls -> is_Some (_listener_priorities h !! (label, l))) ->
  exists part,
    comprehension
      (fun listener => p <- priority_of h label listener ;; Ok (p, listener)) ls
    = Ok part
    /\ part.*2 = ls
    /\ Forall (fun x => _listener_priorities h !! (label, x.2) = Some x.1) part.
Proof.
  induction ls as [|l ls IH]; intros Hkeys; simpl.
  - exists []. by repeat split.
  - destruct (Hkeys l) as [p Hp]; [left|].
    unfold priority_of at 1. rewrite Hp. simpl.
    destruct IH as (part & -> & Hsnd & Hall); [intros; apply Hkeys; by right|].
    simpl. exists ((p, l) :: part).
    split; [done|]. split; [by rewrite fmap_cons, Hsnd | by constructor].
Qed.


Definition time_step : option string := Some "time_step".


End EmitOrder.

Section EmitOrderExamples.
Import EventHandler.





Definition three : list registration :=
  [("a", time_step, 5); ("b", time_step, 10); ("c", time_step, 1); ("g", None, 5)].


End EmitOrderExamples.

Section Reregistration.
Import EventHandler.

Variable set_iter : gset string -> list string.
Hypothesis set_iter_elements : forall s, set_iter s ≡ₚ elements s.

(** The number of times [x] occurs in [l]. *)
Definition occurrences (x : string) (l : list string) : nat :=
  length (filter (fun y => y = x) l).

Lemma occurrences_app x l1 l2 :
  occurrences x (l1 ++ l2) = (occurrences x l1 + occurrences x l2)%nat.
Proof. unfold occurrences. by rewrite filter_app, length_app. Qed.

Lemma occurrences_Permutation x l1 l2 :
  l1 ≡ₚ l2 -> occurrences x l1 = occurrences x l2.
Proof. unfold occurrences. by intros ->. Qed.

Lemma occurrences_NoDup x l :
  NoDup l -> occurrences x l = if decide (x ∈ l) then 1%nat else 0%nat.
Proof.
  unfold occurrences. induction 1 as [|y l Hy Hnd IH]; [done|].
  rewrite filter_cons. destruct (decide (y = x)) as [->|Hne]; simpl.
  - rewrite IH. rewrite decide_False by done.
    by rewrite decide_True by left.
  - rewrite IH. destruct (decide (x ∈ l)) as [Hin|Hin].
    + by rewrite decide_True by (by right).
    + rewrite decide_False; [done|]. intros [->|?]%elem_of_cons; done.
Qed.

Lemma occurrences_set_iter x (s : gset string) :
  occurrences x (set_iter s) = if decide (x ∈ s) then 1%nat else 0%nat.
Proof.
  rewrite (occurrences_Permutation x _ _ (set_iter_elements s)).
  rewrite occurrences_NoDup by apply NoDup_elements.
  destruct (decide (x ∈ s)) as [Hin|Hin].
  - by rewrite decide_True by (by apply elem_of_elements).
  - by rewrite decide_False by (by rewrite elem_of_elements).
Qed.

Lemma collect_inv (h : t) (label : option string) collected :
  collect set_iter h label = Ok collected ->
  collected.*2 = set_iter (listeners_at h label) ++ set_iter (_generic_listeners h)
  /\ (forall l, l ∈ listeners_at h label ->
                is_Some (_listener_priorities h !! (label, l)))
  /\ (forall l, l ∈ _generic_listeners h ->
                is_Some (_listener_priorities h !! (None, l))).
Proof.
  unfold collect.
  destruct (comprehension _ (set_iter (listeners_at h label))) as [c1|] eqn:H1;
    simpl; [|done].
  destruct (comprehension _ (set_iter (_generic_listeners h))) as [c2|] eqn:H2;
    simpl; [|done].
  intros [= <-].
  apply comprehension_inv in H1, H2.
  assert (Hpart : forall lab ls c,
            Forall2 (fun x y => (p <- priority_of h lab x ;; Ok (p, x)) = Ok y) ls c ->
            c.*2 = ls /\ forall l, l ∈ ls ->
                                   is_Some (_listener_priorities h !! (lab, l))).
  { clear. intros lab ls c Hall. induction Hall as [|l y ls c Hy Hall [IH1 IH2]].
    - split; [done|]. intros l Hl. by apply elem_of_nil in Hl.
    - unfold priority_of in Hy.
      destruct (_listener_priorities h !! (lab, l)) as [p|] eqn:Hp; [|done].
      simpl in Hy. injection Hy as <-.
      split; [by rewrite fmap_cons, IH1|].
      intros l' [->|Hl']%elem_of_cons; [eauto | by apply IH2]. }
  destruct (Hpart _ _ _ H1) as [Hs1 Hk1]. destruct (Hpart _ _ _ H2) as [Hs2 Hk2].
  split; [by rewrite fmap_app, Hs1, Hs2|]. split.
  - intros l Hl. apply Hk1. rewrite set_iter_elements. by apply elem_of_elements.
  - intros l Hl. apply Hk2. rewrite set_iter_elements. by apply elem_of_elements.
Qed.

Lemma collect_Ok (h : t) (label : option string) :
  (forall l, l ∈ listeners_at h label ->
             is_Some (_listener_priorities h !! (label, l))) ->
  (forall l, l ∈ _generic_listeners h ->
             is_Some (_listener_priorities h !! (None, l))) ->
  exists collected, collect set_iter h label = Ok collected.
Proof.
  intros Hk1 Hk2.
  destruct (collect_part_Ok h label (set_iter (listeners_at h label)))
    as (c1 & H1 & _).
  { intros l Hl. apply Hk1. rewrite set_iter_elements in Hl.
    by apply elem_of_elements in Hl. }
  destruct (collect_part_Ok h None (set_iter (_generic_listeners h)))
    as (c2 & H2 & _).
  { intros l Hl. apply Hk2. rewrite set_iter_elements in Hl.
    by apply elem_of_elements in Hl. }
  exists (c1 ++ c2). unfold collect. rewrite H1. simpl. by rewrite H2.
Qed.

Lemma emit_order_occurrences (h : t) (label : option string) order x :
  emit_order set_iter h label = Ok order ->
  occurrences x order
  = ((if decide (x ∈ listeners_at h label) then 1 else 0)
     + (if decide (x ∈ _generic_listeners h) then 1 else 0))%nat.
Proof.
  unfold emit_order.
  destruct (collect set_iter h label) as [c|] eqn:Hc; simpl; [|done].
  intros [= <-]. apply collect_inv in Hc as (Hs & _ & _).
  rewrite (occurrences_Permutation x _ (c.*2))
    by (by rewrite (sorted_Permutation fst)).
  by rewrite Hs, occurrences_app, !occurrences_set_iter.
Qed.

(** C10.  Registering a listener a second time under the same label leaves
    the sets of the handler as the first registration made them and only
    replaces the priority on record.  The listener is met once when Python
    iterates over the set it was stored in, an emit that succeeded before
    the second registration succeeds after it and walks the same listeners,
    and an emit of the label walks the listener exactly once (unless the
    same callable was also registered without a label). *)
Theorem register_event_listener_twice
    (h : t) (listener : string) (label : option string) (p1 p2 : Z) :
  let h1 := register_event_listener h listener label p1 in
  let h2 := register_event_listener h1 listener label p2 in
  _listeners h2 = _listeners h1
  /\ _generic_listeners h2 = _generic_listeners h1
  /\ _listener_priorities h2 = <[(label, listener) := p2]> (_listener_priorities h)
  /\ occurrences listener
       (set_iter (if truthy label then listeners_at h2 label
                  else _generic_listeners h2)) = 1%nat
  /\ (forall emitted order1,
        emit_order set_iter h1 emitted = Ok order1 ->
        exists order2,
          emit_order set_iter h2 emitted = Ok order2 /\ order2 ≡ₚ order1)
  /\ (forall order,
        truthy label = true -> listener ∉ _generic_listeners h ->
        emit_order set_iter h2 label = Ok order ->
        occurrences listener order = 1%nat).
Proof.
  intros h1 h2.
  assert (Hl : _listeners h2 = _listeners h1).
  { unfold h2, h1, register_event_listener, listeners_at.
    destruct (truthy label); simpl; [|done].
    rewrite lookup_insert_eq. simpl. rewrite insert_insert_eq. f_equal.
    set_solver. }
  assert (Hg : _generic_listeners h2 = _generic_listeners h1).
  { unfold h2, h1, register_event_listener.
    destruct (truthy label); simpl; [done|]. set_solver. }
  assert (Hp : _listener_priorities h2
               = <[(label, listener) := p2]> (_listener_priorities h)).
  { unfold h2, h1. rewrite !priorities_register. by rewrite insert_insert_eq. }
  assert (Hat : forall lab, listeners_at h2 lab = listeners_at h1 lab).
  { intros lab. unfold listeners_at. by rewrite Hl. }
  split; [done|]. split; [done|]. split; [done|]. split; [|split].
  - rewrite occurrences_set_iter. destruct (truthy label) eqn:Ht.
    + rewrite decide_True; [done|]. unfold h2.
      apply listeners_at_register. by right.
    + rewrite decide_True; [done|]. unfold h2.
      apply generic_register. by right.
  - intros emitted order1. unfold emit_order.
    destruct (collect set_iter h1 emitted) as [c1|] eqn:Hc1; simpl; [|done].
    intros [= <-]. apply collect_inv in Hc1 as (Hs1 & Hk1 & Hk2).
    assert (Hkeep : forall k, is_Some (_listener_priorities h1 !! k) ->
                              is_Some (_listener_priorities h2 !! k)).
    { intros k Hk. unfold h2. rewrite priorities_register.
      destruct (decide ((label, listener) = k)) as [<-|Hne].
      - rewrite lookup_insert_eq. eauto.
      - by rewrite lookup_insert_ne. }
    destruct (collect_Ok h2 emitted) as [c2 Hc2].
    { intros l Hl2. apply Hkeep, Hk1. by rewrite <- Hat. }
    { intros l Hl2. apply Hkeep, Hk2. by rewrite <- Hg. }
    rewrite Hc2. simpl. eexists. split; [done|].
    apply collect_inv in Hc2 as (Hs2 & _ & _).
    rewrite !(sorted_Permutation fst). by rewrite Hs1, Hs2, Hat, Hg.
  - intros order Ht Hnot Ho.
    rewrite (emit_order_occurrences _ _ _ _ Ho).
    rewrite decide_True by (unfold h2; apply listeners_at_register; by right).
    rewrite decide_False; [done|].
    unfold h2, h1. rewrite !generic_register. rewrite Ht. naive_solver.
Qed.

End Reregistration.

Lemma register_event_listener_twice_witness :
  let h2 :=
    EventHandler.register_event_listener
      (EventHandler.register_event_listener EventHandler.init
         "f" (Some "time_step") 10)
      "f" (Some "time_step") 3 in
  EventHandler._listener_priorities h2 = {[ (Some "time_step", "f") := 3 ]}
  /\ EventHandler.emit_order elements h2 (Some "time_step") = Ok ["f"]
  /\ occurrences "f" ["f"] = 1%nat.
Proof.
  destruct (register_event_listener_twice elements (fun s => reflexivity _)
              EventHandler.init "f" (Some "time_step") 10 3)
    as (_ & _ & Hp & _ & _ & Hone).
  split; [|split].
  - rewrite Hp. vm_compute. reflexivity.
  - vm_compute. reflexivity.
  - apply (Hone ["f"]); [reflexivity | set_solver | vm_compute; reflexivity].
Defined.

Section MaskCopies.
Import EventHandler.

Variable set_iter : gset string -> list string.
Variable call : string -> option string -> nat -> Simulation.t -> result Simulation.t.






End MaskCopies.

Section MaskCopiesExample.






End MaskCopiesExample.

(** ** Aging (C7) *)

Section Aging.
Import Util BaseSimulationModule.

(** A fractional age that [int64] holds: not negative, below [2 ^ 63]. *)
Definition age_in_range (x : float) : Prop :=
  (0 <=? x)%float = true /\ (x <? 0x1p63)%float = true.

(** The fractional age of a row after [advance_age], [b] being the flag of
    the row in the mask. *)
Definition aged (b : bool) (time_step : timedelta) (s : Simulant) : float :=
  if b then (fractional_age s + age_step time_step)%float else fractional_age s.

Lemma age_in_range_finite (x : float) : age_in_range x -> Float64.finite x = true.
Proof.
  intros [H0 H63]. rewrite leb_spec, Prim2SF_zero in H0. rewrite ltb_spec in H63.
  unfold Float64.finite. by destruct (Prim2SF x) as [s|[]| |s m e].
Qed.

Lemma astype_int_finite (x : float) :
  Float64.finite x = true -> exists n, astype_int x = Ok n.
Proof.
  unfold Float64.finite, astype_int. destruct (Prim2SF x); try done; by eexists.
Qed.

(** The cast drops the fractional part, which is to take the floor of what
    is not negative. *)
Lemma astype_int_floor (x : float) :
  age_in_range x -> astype_int x = Ok (Qfloor (Float64.value x)).
Proof.
  intros [H0 H63]. rewrite leb_spec, Prim2SF_zero in H0. rewrite ltb_spec in H63.
  pose proof (Prim2SF_valid x) as Hv.
  unfold astype_int, Float64.value.
  destruct (Prim2SF x) as [s|s| |s m e] eqn:Hx; try done; [by destruct s|].
  destruct s; [done|].
  rewrite SFltb_ulps in H63 by done. apply Z.ltb_lt in H63.
  change (ulps (Prim2SF 0x1p63)) with (2 ^ 63 * 2 ^ 1074) in H63.
  unfold ulps, cond_Zopp in H63. simpl in Hv.
  pose proof (bounded_inv m e Hv) as (He & Hd & _).
  f_equal. unfold truncate, cond_Zopp.
  assert (H1074 : 0 < 2 ^ 1074) by (by apply Z.pow_pos_nonneg).
  destruct (Z.leb_spec 0 e) as [Hpos|Hneg].
  - rewrite Z.shiftl_mul_pow2 by done. rewrite Qfloor_Z.
    assert (0 < 2 ^ e) by (by apply Z.pow_pos_nonneg).
    rewrite Z.pow_add_r, Z.mul_assoc in H63 by lia.
    apply Z.mul_lt_mono_pos_r in H63; [|done].
    rewrite (proj2 (Z.leb_le _ _)) by lia. by rewrite (proj2 (Z.ltb_lt _ _)).
  - rewrite Z.shiftl_div_pow2 by lia.
    assert (Hp : 0 < 2 ^ (- e)) by (apply Z.pow_pos_nonneg; lia).
    assert (Hq : 0 <= Zpos m / 2 ^ (- e) <= Zpos m).
    { split; [apply Z.div_pos; lia|]. apply Z.div_le_upper_bound; [lia|]. nia. }
    pose proof (digits2_pos_bounds m) as [_ Hm].
    assert (2 ^ Zpos (digits2_pos m) <= 2 ^ 53) by (apply Z.pow_le_mono_r; lia).
    assert (2 ^ 53 < 2 ^ 63) by done.
    rewrite (proj2 (Z.leb_le _ _)) by lia. rewrite (proj2 (Z.ltb_lt _ _)) by lia.
    unfold Qfloor. by rewrite Z2Pos.id.
Qed.

(** What [advance_age] does to the rows, for any mask as long as the
    table, when no fractional age leaves the finite doubles. *)
Lemma advance_age_rows
    (label : option string) (mask : nat) (sim : Simulation.t) (m : list bool) :
  Simulation.arrays sim !! mask = Some m ->
  length m = length (Simulation.population sim) ->
  (forall i s (b : bool),
     Simulation.population sim !! i = Some s -> m !! i = Some b ->
     Float64.finite (aged b (Simulation.last_time_step sim) s) = true) ->
  exists sim',
    advance_age label mask sim = Ok sim'
    /\ Simulation.arrays sim' = Simulation.arrays sim
    /\ Simulation.current_time sim' = Simulation.current_time sim
    /\ Simulation.yld_by_year sim' = Simulation.yld_by_year sim
    /\ length (Simulation.population sim') = length (Simulation.population sim)
    /\ forall i s (b : bool),
         Simulation.population sim !! i = Some s -> m !! i = Some b ->
         exists s',
           Simulation.population sim' !! i = Some s'
           /\ alive s' = alive s /\ year s' = year s /\ others s' = others s
           /\ fractional_age s' = aged b (Simulation.last_time_step sim) s
           /\ astype_int (fractional_age s') = Ok (age s').
Proof.
  intros Hm Hlen Hfin. unfold advance_age. rewrite Hm. simpl.
  rewrite bool_decide_eq_true_2 by done.
  set (step := age_step (Simulation.last_time_step sim)).
  set (p := add_fractional_age m step (Simulation.population sim)).
  assert (Hp : forall i s (b : bool),
            Simulation.population sim !! i = Some s -> m !! i = Some b ->
            p !! i = Some (if b then with_fractional_age s (fractional_age s + step)%float
                           else s)).
  { intros i s b Hs Hb. unfold p, add_fractional_age.
    by rewrite lookup_zip_with, Hb; simpl; rewrite Hs. }
  assert (Hlp : length p = length (Simulation.population sim)).
  { unfold p, add_fractional_age. rewrite length_zip_with. lia. }
  destruct (comprehension_Ok (fun s => astype_int (fractional_age s)) p)
    as (ages & -> & Hall).
  { intros x Hx. apply astype_int_finite.
    apply list_elem_of_lookup in Hx as [i Hi].
    pose proof (lookup_lt_Some _ _ _ Hi) as Hlt.
    destruct (lookup_lt_is_Some_2 (Simulation.population sim) i) as [s Hs]; [lia|].
    destruct (lookup_lt_is_Some_2 m i) as [b Hb]; [lia|].
    rewrite (Hp i s b Hs Hb) in Hi. injection Hi as <-.
    specialize (Hfin i s b Hs Hb). unfold aged in Hfin. fold step in Hfin.
    by destruct b. }
  simpl. eexists. split; [reflexivity|]. simpl.
  split; [done|]. split; [done|]. split; [done|]. split.
  { rewrite length_zip_with, <- (Forall2_length _ _ _ Hall). lia. }
  intros i s b Hs Hb. rewrite lookup_zip_with, (Hp i s b Hs Hb). simpl.
  destruct (Forall2_lookup_l _ _ _ _ _ Hall (Hp i s b Hs Hb)) as (n & -> & Hn).
  simpl. eexists. split; [reflexivity|]. unfold aged. fold step.
  by destruct b.
Qed.

(** C7 (amended).  Handed the all-true mask of a time step, the aging
    listener replaces the fractional age of every living simulant by the
    double nearest to its sum with the double [days / 365.0] of the step,
    changes nothing else but the ages, and leaves every simulant with [age]
    the floor of its [fractional_age] (no new fractional age is negative or
    beyond [int64]). *)
Theorem advance_age_time_step
    (label : option string) (mask : nat) (sim : Simulation.t) :
  Simulation.arrays sim !! mask
  = Some (replicate (length (Simulation.population sim)) true) ->
  Forall (fun s => age_in_range
                     (fractional_age s + age_step (Simulation.last_time_step sim))%float)
         (Simulation.population sim) ->
  exists sim',
    advance_age label mask sim = Ok sim'
    /\ length (Simulation.population sim') = length (Simulation.population sim)
    /\ (forall i s,
          Simulation.population sim !! i = Some s -> alive s = true ->
          exists s',
            Simulation.population sim' !! i = Some s'
            /\ alive s' = true /\ year s' = year s /\ others s' = others s
            /\ fractional_age s'
               = (fractional_age s + age_step (Simulation.last_time_step sim))%float)
    /\ (forall i s',
          Simulation.population sim' !! i = Some s' ->
          age s' = Qfloor (Float64.value (fractional_age s'))).
Proof.
  intros Hmask Hages. rewrite Forall_lookup in Hages.
  assert (Htrue : forall i s, Simulation.population sim !! i = Some s ->
            replicate (length (Simulation.population sim)) true !! i = Some true).
  { intros i s Hs. apply lookup_replicate_2. by eapply lookup_lt_Some. }
  destruct (advance_age_rows label mask sim _ Hmask) as
    (sim' & Hrun & _ & _ & _ & Hlen & Hrows).
  { apply length_replicate. }
  { intros i s b Hs Hb. rewrite (Htrue i s Hs) in Hb. injection Hb as <-.
    apply age_in_range_finite. by apply (Hages i s). }
  exists sim'. split; [exact Hrun|]. split; [exact Hlen|]. split.
  - intros i s Hs Halive.
    destruct (Hrows i s true Hs (Htrue i s Hs)) as (s' & Hs' & Ha & Hy & Ho & Hf & _).
    exists s'. by rewrite Ha.
  - intros i s' Hs'.
    destruct (lookup_lt_is_Some_2 (Simulation.population sim) i) as [s Hs].
    { rewrite <- Hlen. by eapply lookup_lt_Some. }
    destruct (Hrows i s true Hs (Htrue i s Hs)) as (s1 & Hs1 & _ & _ & _ & Hf & Hcast).
    rewrite Hs' in Hs1. injection Hs1 as <-.
    rewrite astype_int_floor in Hcast; [by injection Hcast|].
    rewrite Hf. by apply (Hages i s).
Qed.

End Aging.

Section AgingExample.
Import Util.

(** A simulant aged 40 and one aged 72 and a half, after a step of 365
    days. *)
Definition cohort : Simulation.t :=
  Simulation.mk ∅ [] 0 (mk_timedelta 365 0 0) ∅ ∅
    [mk_simulant 40 40 true 1990 ∅; mk_simulant 72 72.5 true 1990 ∅]
    [[true; true]].

Lemma advance_age_time_step_witness :
  exists sim',
    BaseSimulationModule.advance_age (Some "time_step") 0 cohort = Ok sim'
    /\ (forall i s', Simulation.population sim' !! i = Some s' ->
                     age s' = Qfloor (Float64.value (fractional_age s')))
    /\ age <$> Simulation.population sim' = [41; 73].
Proof.
  destruct (advance_age_time_step (Some "time_step") 0 cohort)
    as (sim' & Hrun & _ & _ & Hfloor).
  - reflexivity.
  - repeat constructor.
  - exists sim'. split; [exact Hrun|]. split; [exact Hfloor|].
    vm_compute in Hrun. injection Hrun as <-. reflexivity.
Defined.

(** A simulant one day short of 41, in doubles. *)
Definition on_the_eve : Simulation.t :=
  Simulation.mk ∅ [] 0 (mk_timedelta 1 0 0) ∅ ∅
    [mk_simulant 40 40.9972602739726 true 1990 ∅]
    [[true]].

(** The fractional age the specification words ask for: the old one and
    exactly [days / 365] more. *)
Definition spec_fractional_age (time_step : timedelta) (s : Simulant) : Q :=
  (Float64.value (fractional_age s) + inject_Z (days time_step) / 365)%Q.

(** C7 (the claim as stated fails).  After a step of one day the simulant
    has the fractional age 41 and the age 41; a fractional age greater by
    exactly 1/365 would be another number, below 41, and the age 40. *)
Lemma advance_age_rounds :
  (exists sim',
      BaseSimulationModule.advance_age (Some "time_step") 0 on_the_eve = Ok sim'
      /\ fractional_age <$> Simulation.population sim' = [41%float]
      /\ age <$> Simulation.population sim' = [41])
  /\ Forall (fun s =>
               ~ (Float64.value 41 == spec_fractional_age (mk_timedelta 1 0 0) s)%Q
               /\ Qfloor (spec_fractional_age (mk_timedelta 1 0 0) s) = 40)
       (Simulation.population on_the_eve).
Proof.
  split.
  - eexists. split; [vm_compute; reflexivity|]. split; reflexivity.
  - repeat constructor; vm_compute; discriminate.
Qed.

End AgingExample.

(** ** The rate pipeline (C2) *)

Section RatePipeline.
Import Util.

(** The same module with other mediation factors. *)
Definition with_mediation (m : SimulationModule.t) (factors : gmap string float)
  : SimulationModule.t :=
  SimulationModule.mk (SimulationModule.cls m) (SimulationModule.DEPENDENCIES m)
    (SimulationModule.handler m) (SimulationModule.years_lived_with_disability m)
    (SimulationModule.mortality_rates m) (SimulationModule.incidence_rates m)
    factors.

(** The composition the specification words ask for: after the modules'
    contributions, one factor [1 - m] for every mediation factor [m] a
    module declares for the cause, then the conversion to the step. *)
Definition mediation_damping (modules : list SimulationModule.t) (label : string)
    (rate : float) : float :=
  fold_left
    (fun r module =>
       match SimulationModule.incidence_mediation_factors module !! label with
       | Some m => (r * (1 - m))%float
       | None => r
       end)
    modules rate.

Definition spec_incidence_rates (sim : Simulation.t) (population : list Simulant)
    (label : string) : list float :=
  let rates :=
    fold_left
      (fun rates module => SimulationModule.incidence_rates module population rates label)
      (Simulation._ordered_modules sim) (Simulation.zero_frame population) in
  map (fun r =>
         from_yearly_rate
           (mediation_damping (Simulation._ordered_modules sim) label r)
           (Simulation.last_time_step sim))
      rates.

(** Module U adds an annual rate of 0.2 to cause X. *)
Definition module_u : SimulationModule.t :=
  SimulationModule.mk "U" [] EventHandler.init (fun _ => 0%float) (fun _ rates => rates)
    (fun _ rates label =>
       if String.eqb label "X" then map (fun r => (r + 0.2)%float) rates else rates)
    ∅.

(** Module V declares a mediation factor of 0.3 on cause X. *)
Definition module_v : SimulationModule.t :=
  with_mediation (SimulationModule.plain "V" [] EventHandler.init)
    {[ "X" := 0.3%float ]}.

Definition one_simulant : list Simulant := [mk_simulant 50 50 true 1990 ∅].

Definition mediated : Simulation.t :=
  Simulation.mk ∅ [module_u; module_v] 0 (mk_timedelta 365 0 0) ∅ ∅ one_simulant [].

Lemma fold_incidence_with_mediation
    (factors : SimulationModule.t -> gmap string float)
    (modules : list SimulationModule.t) population label rates :
  fold_left
    (fun rates module => SimulationModule.incidence_rates module population rates label)
    ((fun m => with_mediation m (factors m)) <$> modules) rates
  = fold_left
      (fun rates module => SimulationModule.incidence_rates module population rates label)
      modules rates.
Proof.
  revert rates. induction modules as [|m modules IH]; intros rates; [done|].
  simpl. apply IH.
Qed.

(** C2 (amended).  The step incidence rate is the yearly-to-step conversion
    of the fold of the modules' [incidence_rates] methods, in module order,
    over a zero frame.  The mediation factors that modules declare take no
    part in it: declaring other factors leaves every rate as it is, and a
    single additive annual rate of 0.2 with a declared mediation factor of
    0.3 gives the step rate [from_yearly_rate 0.2]. *)
Theorem incidence_rates_composition
    (sim : Simulation.t) (population : list Simulant) (label : string) :
  Simulation.incidence_rates sim population label
  = map (fun r => from_yearly_rate r (Simulation.last_time_step sim))
      (fold_left
         (fun rates module =>
            SimulationModule.incidence_rates module population rates label)
         (Simulation._ordered_modules sim)
         (replicate (length population) 0%float))
  /\ (forall factors : SimulationModule.t -> gmap string float,
        Simulation.incidence_rates
          (Simulation.set_modules sim (Simulation._modules sim)
             ((fun m => with_mediation m (factors m))
                <$> Simulation._ordered_modules sim))
          population label
        = Simulation.incidence_rates sim population label)
  /\ Simulation.incidence_rates mediated one_simulant "X"
     = [from_yearly_rate (0 + 0.2) (Simulation.last_time_step mediated)].
Proof.
  split; [reflexivity|]. split; [|reflexivity].
  intros factors. unfold Simulation.incidence_rates. simpl.
  by rewrite fold_incidence_with_mediation.
Qed.

(** C2 (the claim as stated fails).  With the additive rate 0.2 and the
    declared factor 0.3 the pipeline returns the step rate of 0.2, which is
    not the step rate of 0.2 * (1 - 0.3). *)
Lemma incidence_rates_without_mediation :
  Simulation.incidence_rates mediated one_simulant "X"
  = [from_yearly_rate (0 + 0.2) (Simulation.last_time_step mediated)]
  /\ spec_incidence_rates mediated one_simulant "X"
     = [from_yearly_rate ((0 + 0.2) * (1 - 0.3))
          (Simulation.last_time_step mediated)]
  /\ (from_yearly_rate (0 + 0.2) (Simulation.last_time_step mediated)
      =? from_yearly_rate ((0 + 0.2) * (1 - 0.3))
           (Simulation.last_time_step mediated))%float = false.
Proof.
  split; [reflexivity|]. split; reflexivity.
Qed.

End RatePipeline.

(** ** The step loop (C1) *)

Lemma for_each_ext {A S : Type} (f g : S -> A -> result S) (xs : list A) (s : S) :
  (forall s' x, x ∈ xs -> f s' x = g s' x) -> for_each f xs s = for_each g xs s.
Proof.
  revert s. induction xs as [|x xs IH]; intros s Hfg; simpl; [done|].
  rewrite Hfg by left. destruct (g s x) as [s'|e]; simpl; [|done].
  apply IH. intros s'' y Hy. apply Hfg. by right.
Qed.

Section StepLoop.
Import Util.

Variable year_of : Z -> Z.
Variable set_iter : gset string -> list string.
Variable call : string -> option string -> nat -> Simulation.t -> result Simulation.t.

Local Abbreviation emit_event := (Simulation.emit_event set_iter call).
Local Abbreviation run_iteration := (Simulation.run_iteration year_of set_iter call).
Local Abbreviation run_loop := (Simulation.run_loop year_of set_iter call).
Local Abbreviation run := (Simulation.run year_of set_iter call).

(** [n] turns of the loop body, one after the other. *)
Fixpoint iterations (n : nat) (time_step : timedelta) (sim : Simulation.t)
  : result Simulation.t :=
  match n with
  | O => Ok sim
  | S n' => sim' <- run_iteration time_step sim ;; iterations n' time_step sim'
  end.

(** The number of turns of a loop that starts at [start_time]. *)
Definition turns (start_time end_time : Z) (time_step : timedelta) : nat :=
  Z.to_nat ((end_time - start_time) / total_microseconds time_step + 1).

(** The state in which the loop body emits [time_step]: the year column is
    set and the all-true mask is allocated. *)
Definition before_emit (sim : Simulation.t) : Simulation.t :=
  Simulation.set_arrays
    (Simulation.set_population sim
       (map (fun s => with_year s (year_of (Simulation.current_time sim)))
            (Simulation.population sim)))
    (Simulation.arrays sim ++ [replicate (length (Simulation.population sim)) true]).

(** The listeners leave the clock of the simulation alone. *)
Definition keeps_clock : Prop :=
  forall listener label mask sim sim',
    call listener label mask sim = Ok sim' ->
    Simulation.current_time sim' = Simulation.current_time sim.

Lemma handler_emit_keeps_clock h label mask sim sim' :
  keeps_clock ->
  EventHandler.emit_event set_iter Simulation.np_copy call h label mask sim = Ok sim' ->
  Simulation.current_time sim' = Simulation.current_time sim.
Proof.
  intros Hclock. unfold EventHandler.emit_event.
  destruct (EventHandler.emit_order set_iter h label) as [order|]; simpl; [|done].
  revert sim. induction order as [|l order IH]; intros sim; simpl.
  - by intros [= <-].
  - unfold EventHandler.invoke at 1. simpl.
    destruct (call l label _ _) as [sim1|] eqn:Hcall; simpl; [|done].
    intros Hrest. rewrite (IH _ Hrest). by rewrite (Hclock _ _ _ _ _ Hcall).
Qed.

Lemma emit_keeps_clock sim label mask sim' :
  keeps_clock ->
  emit_event sim label mask = Ok sim' ->
  Simulation.current_time sim' = Simulation.current_time sim.
Proof.
  intros Hclock. unfold Simulation.emit_event.
  generalize (Simulation._ordered_modules sim). intros modules. revert sim.
  induction modules as [|m modules IH]; intros sim; simpl.
  - by intros [= <-].
  - destruct (EventHandler.emit_event _ _ _ _ _ _ sim) as [sim1|] eqn:Hm;
      simpl; [|done].
    intros Hrest. rewrite (IH _ Hrest). by eapply handler_emit_keeps_clock.
Qed.

Lemma run_iteration_unfold time_step sim :
  run_iteration time_step sim
  = (sim3 <- emit_event (before_emit sim) (Some "time_step")
               (length (Simulation.arrays sim)) ;;
     Ok (Simulation.set_current_time
           (Simulation.set_yld_by_year sim3
              (<[year_of (Simulation.current_time sim3)
                 := Simulation.years_lived_with_disability sim3]>
                 (Simulation.yld_by_year sim3)))
           (Simulation.current_time sim3 + total_microseconds time_step))).
Proof.
  unfold Simulation.run_iteration, Simulation.np_array, before_emit. simpl.
  by rewrite length_map.
Qed.

Lemma run_iteration_clock time_step sim sim' :
  keeps_clock ->
  run_iteration time_step sim = Ok sim' ->
  Simulation.current_time sim'
  = Simulation.current_time sim + total_microseconds time_step.
Proof.
  intros Hclock. rewrite run_iteration_unfold.
  destruct (emit_event _ _ _) as [sim3|] eqn:Hemit; simpl; [|done].
  intros [= <-]. simpl. by rewrite (emit_keeps_clock _ _ _ _ Hclock Hemit).
Qed.

Lemma turns_done start_time end_time time_step :
  0 < total_microseconds time_step -> end_time < start_time ->
  turns start_time end_time time_step = O.
Proof.
  intros Hstep Hlt. unfold turns.
  assert ((end_time - start_time) / total_microseconds time_step < 0)
    by (apply Z.div_lt_upper_bound; lia).
  lia.
Qed.

Lemma turns_more start_time end_time time_step :
  0 < total_microseconds time_step -> start_time <= end_time ->
  turns start_time end_time time_step
  = S (turns (start_time + total_microseconds time_step) end_time time_step).
Proof.
  intros Hstep Hle. unfold turns.
  replace (end_time - start_time)
    with ((end_time - (start_time + total_microseconds time_step))
          + 1 * total_microseconds time_step) by lia.
  rewrite Z.div_add by lia.
  assert (-1 <= (end_time - (start_time + total_microseconds time_step))
                / total_microseconds time_step)
    by (apply Z.div_le_lower_bound; lia).
  lia.
Qed.

Lemma run_loop_iterations fuel end_time time_step sim :
  0 < total_microseconds time_step -> keeps_clock ->
  (turns (Simulation.current_time sim) end_time time_step <= fuel)%nat ->
  run_loop fuel end_time time_step sim
  = Some (iterations (turns (Simulation.current_time sim) end_time time_step)
            time_step sim).
Proof.
  intros Hstep Hclock. revert sim.
  induction fuel as [|fuel IH]; intros sim Hfuel.
  - destruct (Z.leb_spec (Simulation.current_time sim) end_time) as [Hle|Hlt].
    + rewrite turns_more in Hfuel by done. lia.
    + simpl. rewrite (proj2 (Z.leb_gt _ _)) by done.
      by rewrite turns_done.
  - simpl. destruct (Z.leb_spec (Simulation.current_time sim) end_time) as [Hle|Hlt].
    + rewrite turns_more in * by done. simpl.
      destruct (run_iteration time_step sim) as [sim'|e] eqn:Hit; simpl; [|done].
      rewrite <- (run_iteration_clock _ _ _ Hclock Hit). apply IH.
      rewrite (run_iteration_clock _ _ _ Hclock Hit). lia.
    + by rewrite turns_done.
Qed.

Lemma emit_event_only_its_label
    (call' : string -> option string -> nat -> Simulation.t -> result Simulation.t)
    (label : option string) (sim : Simulation.t) (mask : nat) :
  (forall listener handed s, call' listener label handed s = call listener label handed s) ->
  Simulation.emit_event set_iter call' sim label mask = emit_event sim label mask.
Proof.
  intros Hagree. unfold Simulation.emit_event.
  apply for_each_ext. intros s m _. unfold EventHandler.emit_event.
  destruct (EventHandler.emit_order set_iter _ label) as [order|]; simpl; [|done].
  apply for_each_ext. intros s' l _. unfold EventHandler.invoke.
  destruct (Simulation.np_copy mask s') as [handed s'']. apply Hagree.
Qed.

(** C1 (amended).  With a positive step and listeners that leave the clock
    alone, [run] makes one turn of its loop for each of the times
    [start], [start + Δt], ... that are not after [end].  A turn sets the
    year column of every row to the year of the current time, emits
    [time_step] on a new all-true mask, records the sum of the modules'
    contributions over the living rows under the current year in
    [yld_by_year] (a year without an entry holds that sum afterwards, the
    other years keep theirs) and advances the clock by Δt.  [time_step] is
    the only label the loop emits: what the listeners would do under
    another label has no effect on a turn. *)
Theorem run_time_steps
    (fuel : nat) (sim : Simulation.t) (start_time end_time : Z)
    (time_step : timedelta) :
  0 < total_microseconds time_step ->
  keeps_clock ->
  (turns start_time end_time time_step <= fuel)%nat ->
  run fuel sim start_time end_time time_step
  = Some (iterations (turns start_time end_time time_step) time_step
            (Simulation.set_last_time_step
               (Simulation.set_current_time sim start_time) time_step))
  /\ (forall s,
        Forall (fun x => year x = year_of (Simulation.current_time s))
               (Simulation.population (before_emit s))
        /\ Simulation.arrays (before_emit s) !! length (Simulation.arrays s)
           = Some (replicate (length (Simulation.population (before_emit s))) true))
  /\ (forall s e,
        emit_event (before_emit s) (Some "time_step") (length (Simulation.arrays s))
        = Raise e ->
        run_iteration time_step s = Raise e)
  /\ (forall s s3,
        emit_event (before_emit s) (Some "time_step") (length (Simulation.arrays s))
        = Ok s3 ->
        exists s',
          run_iteration time_step s = Ok s'
          /\ Simulation.population s' = Simulation.population s3
          /\ Simulation.current_time s'
             = Simulation.current_time s + total_microseconds time_step
          /\ (forall y, y <> year_of (Simulation.current_time s) ->
                        Simulation.yld_by_year s' !! y = Simulation.yld_by_year s3 !! y)
          /\ (Simulation.yld_by_year s3 !! year_of (Simulation.current_time s) = None ->
              Simulation.yld_by_year s' !! year_of (Simulation.current_time s)
              = Some (Simulation.years_lived_with_disability s3)))
  /\ (forall call' s,
        (forall listener handed s0,
            call' listener (Some "time_step") handed s0
            = call listener (Some "time_step") handed s0) ->
        Simulation.run_iteration year_of set_iter call' time_step s
        = run_iteration time_step s).
Proof.
  intros Hstep Hclock Hfuel. split; [|split; [|split; [|split]]].
  - unfold Simulation.run. by apply run_loop_iterations.
  - intros s. split.
    + unfold before_emit. simpl. apply Forall_fmap, Forall_true. done.
    + unfold before_emit. simpl.
      rewrite lookup_app_r, Nat.sub_diag by done. simpl.
      by rewrite length_map.
  - intros s e He. by rewrite run_iteration_unfold, He.
  - intros s s3 Hemit. rewrite run_iteration_unfold, Hemit. simpl.
    pose proof (emit_keeps_clock _ _ _ _ Hclock Hemit) as Hc. simpl in Hc.
    eexists. split; [done|]. simpl. rewrite Hc.
    split; [done|]. split; [done|]. split.
    + intros y Hy. by rewrite lookup_insert_ne.
    + intros _. by rewrite lookup_insert_eq.
  - intros call' s Hagree. unfold Simulation.run_iteration.
    destruct (Simulation.np_array _ _) as [mask s2].
    by rewrite (emit_event_only_its_label call').
Qed.

End StepLoop.

Section StepLoopExamples.
Import Util.

(** A calendar of years of 365 days counted from 1990. *)
Definition example_year (now : Z) : Z := 1990 + now / (365 * 86400 * 1000000).

(** The listeners of the examples: the aging listener of the base module,
    and a listener that writes a blood pressure of 120 into every row. *)
Definition example_call (listener : string) (label : option string) (mask : nat)
    (sim : Simulation.t) : result Simulation.t :=
  if String.eqb listener "advance_age" then
    BaseSimulationModule.advance_age label mask sim
  else if String.eqb listener "update_systolic_blood_pressure" then
    Ok (Simulation.set_population sim
          (map (fun s => mk_simulant (age s) (fractional_age s) (alive s) (year s)
                           (<["systolic_blood_pressure" := 120 # 1]> (others s)))
               (Simulation.population sim)))
  else Ok sim.

(** [BloodPressureModule] after [setup], as far as its listeners go. *)
Definition blood_pressure_module : SimulationModule.t :=
  SimulationModule.plain "BloodPressureModule" []
    (EventHandler.register_event_listener EventHandler.init
       "update_systolic_blood_pressure" (Some "time_step__continuous") 10).

Definition example_simulation : Simulation.t :=
  Simulation.mk ∅ [base_module; blood_pressure_module] 0 (mk_timedelta 0 0 0) ∅ ∅
    [mk_simulant 40 40 true 0 ∅] [].

(** The state an outcome holds, if any. *)
Definition iterations_result (r : result Simulation.t) : option Simulation.t :=
  match r with
  | Ok sim => Some sim
  | Raise _ => None
  end.

(** The loop body the specification words ask for. *)
Definition spec_run_iteration
    (year_of : Z -> Z) (set_iter : gset string -> list string)
    (call : string -> option string -> nat -> Simulation.t -> result Simulation.t)
    (time_step : timedelta) (sim : Simulation.t) : result Simulation.t :=
  let sim1 :=
    Simulation.set_population sim
      (map (fun s => with_year s (year_of (Simulation.current_time sim)))
           (Simulation.population sim)) in
  let '(mask, sim2) :=
    Simulation.np_array (replicate (length (Simulation.population sim1)) true) sim1 in
  sim3 <- Simulation.emit_event set_iter call sim2 (Some "time_step") mask ;;
  sim4 <- Simulation.emit_event set_iter call sim3 (Some "time_step__continuous") mask ;;
  let y := year_of (Simulation.current_time sim4) in
  let sim5 :=
    Simulation.set_yld_by_year sim4
      (<[y := (default 0 (Simulation.yld_by_year sim4 !! y)
               + Simulation.years_lived_with_disability sim4)%float]>
         (Simulation.yld_by_year sim4)) in
  Ok (Simulation.set_current_time sim5
        (Simulation.current_time sim5 + total_microseconds time_step)).

(** C1 (the claim as stated fails).  A listener registered on
    [time_step__continuous] is not run by a turn of the loop: the column
    it would write is absent after the turn, and present after the turn
    the specification words describe. *)
Lemma run_does_not_emit_time_step__continuous :
  (exists sim',
      Simulation.run_iteration example_year elements example_call
        (mk_timedelta 365 0 0) example_simulation = Ok sim'
      /\ others <$> Simulation.population sim' = [∅])
  /\ (exists sim',
        spec_run_iteration example_year elements example_call
          (mk_timedelta 365 0 0) example_simulation = Ok sim'
        /\ others <$> Simulation.population sim'
           = [{[ "systolic_blood_pressure" := 120 # 1 ]}]).
Proof.
  split; eexists; (split; [vm_compute; reflexivity|]); vm_compute; reflexivity.
Qed.

Lemma example_call_keeps_clock : keeps_clock example_call.
Proof.
  intros listener label mask sim sim'. unfold example_call.
  destruct (String.eqb listener "advance_age").
  - unfold BaseSimulationModule.advance_age.
    case_bool_decide; [|done].
    destruct (comprehension _ _) as [ages|]; simpl; [|done]. by intros [= <-].
  - destruct (String.eqb listener "update_systolic_blood_pressure");
      by intros [= <-].
Qed.

Lemma run_time_steps_witness :
  (turns 0 (365 * 86400 * 1000000) (mk_timedelta 365 0 0) = 2)%nat
  /\ Simulation.run example_year elements example_call 5 example_simulation
       0 (365 * 86400 * 1000000) (mk_timedelta 365 0 0)
     = Some (iterations example_year elements example_call 2 (mk_timedelta 365 0 0)
               (Simulation.set_last_time_step
                  (Simulation.set_current_time example_simulation 0)
                  (mk_timedelta 365 0 0)))
  /\ ((fun s => age <$> Simulation.population s) <$>
        iterations_result
          (iterations example_year elements example_call 2 (mk_timedelta 365 0 0)
             (Simulation.set_last_time_step
                (Simulation.set_current_time example_simulation 0)
                (mk_timedelta 365 0 0))))
     = Some [42].
Proof.
  assert (Hturns : (turns 0 (365 * 86400 * 1000000) (mk_timedelta 365 0 0) = 2)%nat)
    by (vm_compute; reflexivity).
  split; [exact Hturns|].
  destruct (run_time_steps example_year elements example_call 5 example_simulation
              0 (365 * 86400 * 1000000) (mk_timedelta 365 0 0)) as [Hrun _].
  - vm_compute. reflexivity.
  - exact example_call_keeps_clock.
  - rewrite Hturns. lia.
  - rewrite Hturns in Hrun. split; [exact Hrun|].
    vm_compute. reflexivity.
Defined.

End StepLoopExamples.

(** ** Interpolation (C9) *)

Section InterpolationFacts.
Import Interpolation.

Lemma position_Ok (df : DataFrame) (name : string) :
  name ∈ columns df -> exists i, position df name = Ok i.
Proof.
  intros Hin. unfold position.
  destruct (list_find_elem_of (fun c => c = name) (columns df) name Hin eq_refl)
    as [[i c] Hfind].
  rewrite Hfind. by exists i.
Qed.

Lemma positions_Ok (df : DataFrame) (names : list string) :
  (forall c, c ∈ names -> c ∈ columns df) ->
  exists ps, comprehension (position df) names = Ok ps.
Proof.
  intros Hin.
  destruct (comprehension_Ok (position df) names) as (ps & Hps & _); [|by exists ps].
  intros c Hc. by apply position_Ok, Hin.
Qed.

Lemma series_Ok (df : DataFrame) (names : list string) :
  (forall c, c ∈ names -> c ∈ columns df) ->
  exists xs, comprehension (series df) names = Ok xs.
Proof.
  intros Hin.
  destruct (comprehension_Ok (series df) names) as (xs & Hxs & _); [|by exists xs].
  intros c Hc. unfold series.
  destruct (position_Ok df c (Hin c Hc)) as [i ->]. simpl. by eexists.
Qed.

Lemma forallb_has_column (df : DataFrame) (names : list string) :
  forallb (has_column df) names = true <-> forall c, c ∈ names -> c ∈ columns df.
Proof.
  rewrite forallb_forall. unfold has_column. split.
  - intros H c Hc. apply list_elem_of_In in Hc.
    by apply (bool_decide_eq_true_1 _), H.
  - intros H c Hc. apply bool_decide_eq_true_2, H. by apply list_elem_of_In.
Qed.

Lemma forallb_has_column_false (df : DataFrame) (names : list string) c :
  c ∈ names -> c ∉ columns df -> forallb (has_column df) names = false.
Proof.
  intros Hc Hnot. apply not_true_is_false. rewrite forallb_has_column.
  intros H. by apply Hnot, H.
Qed.

Lemma tuple_compare_eq (a b : list Z) : tuple_compare a b = Eq <-> a = b.
Proof.
  revert b. induction a as [|x a IH]; intros [|y b]; simpl; try done.
  destruct (Z.compare_spec x y) as [->|Hlt|Hgt].
  - rewrite IH. split; [by intros -> | by intros [= ->]].
  - split; [done|]. intros [= -> _]. lia.
  - split; [done|]. intros [= -> _]. lia.
Qed.

Lemma add_to_group_keys key row groups k :
  k ∈ (add_to_group key row groups).*1 <-> k = key \/ k ∈ groups.*1.
Proof.
  induction groups as [|[k' members] groups IH]; simpl.
  - rewrite list_elem_of_singleton. set_solver.
  - destruct (tuple_compare key k') eqn:Hcmp; simpl.
    + apply tuple_compare_eq in Hcmp as ->. set_solver.
    + set_solver.
    + rewrite !elem_of_cons, IH. naive_solver.
Qed.

Lemma add_to_group_nonempty key row groups :
  Forall (fun g => g.2 <> []) groups ->
  Forall (fun g => g.2 <> []) (add_to_group key row groups).
Proof.
  induction groups as [|[k' members] groups IH]; simpl; intros Hall.
  - by repeat constructor.
  - apply Forall_cons in Hall as [Hhd Hall].
    destruct (tuple_compare key k'); simpl.
    + constructor; [|done]. simpl. by destruct members.
    + by repeat constructor.
    + constructor; [done | by apply IH].
Qed.

(** The groups built from the rows of a table. *)
Definition grouped (key_of : nat * list Z -> list Z) (rs : list (nat * list Z))
  : list (list Z * list (nat * list Z)) :=
  fold_left (fun groups row => add_to_group (key_of row) row groups) rs [].

Lemma grouped_spec key_of rs :
  Forall (fun g => g.2 <> []) (grouped key_of rs)
  /\ forall k, k ∈ (grouped key_of rs).*1 <-> exists row, row ∈ rs /\ key_of row = k.
Proof.
  unfold grouped. induction rs as [|row rs IH] using rev_ind; simpl.
  - split; [constructor|]. intros k. split; [by intros ?%elem_of_nil|].
    intros (row & Hrow & _). by apply elem_of_nil in Hrow.
  - rewrite fold_left_app. simpl. destruct IH as [IHne IHkeys]. split.
    + by apply add_to_group_nonempty.
    + intros k. rewrite add_to_group_keys, IHkeys. split.
      * intros [->|(r & Hr & Hk)].
        -- exists row. split; [|done]. apply elem_of_app. right. by left.
        -- exists r. split; [|done]. apply elem_of_app. by left.
      * intros (r & Hr & Hk). apply elem_of_app in Hr as [Hr|Hr].
        -- right. eauto.
        -- apply list_elem_of_singleton in Hr as ->. by left.
Qed.

(** The loop of [__call__] over a list of non-empty partitions whose
    parameter columns are there: it ends with [KeyError] on the first key
    that has no interpolation. *)
Lemma evaluate_groups_missing (self : t) (cols : list string)
    (groups : list (list Z * list (nat * list Z))) (table : Table) (k : list Z) :
  cols <> [] ->
  (forall c, c ∈ parameter_columns self -> c ∈ cols) ->
  Forall (fun g => g.2 <> []) groups ->
  k ∈ groups.*1 -> interpolations self !! k = None ->
  exists k',
    for_each (evaluate_group self)
      (map (fun g => (g.1, mk_frame cols g.2)) groups) table
    = Raise (KeyError (KGroup k'))
    /\ k' ∈ groups.*1 /\ interpolations self !! k' = None.
Proof.
  intros Hcols Hparams Hne. revert table.
  induction groups as [|[k0 members] groups IH]; intros table Hk Hmiss;
    [by apply elem_of_nil in Hk|].
  apply Forall_cons in Hne as [Hmembers Hne]. simpl in Hmembers.
  cbn [map for_each fst snd].
  assert (Hempty : empty (mk_frame cols members) = false).
  { unfold empty. simpl. destruct members; [done|]. by destruct cols. }
  unfold evaluate_group at 1. rewrite Hempty.
  destruct (interpolations self !! k0) as [funcs|] eqn:Hk0.
  - destruct (series_Ok (mk_frame cols members) (parameter_columns self))
      as [xs Hxs]; [done|].
    rewrite Hxs. simpl.
    rewrite fmap_cons in Hk. apply elem_of_cons in Hk as [Heq|Hk];
      [simpl in Heq; subst k; unfold func in *; congruence|].
    edestruct (IH Hne) as (k' & Hrun & Hin & Hnone); [exact Hk | exact Hmiss |].
    exists k'. split; [exact Hrun|]. split; [|done].
    apply elem_of_cons. by right.
  - simpl. exists k0. split; [done|]. split; [|done]. apply elem_of_cons. by left.
Qed.

(** The key tuple of a row: its cells in the key columns. *)
Definition key_tuple (df : DataFrame) (key_columns : list string)
    (row : nat * list Z) : option (list Z) :=
  match comprehension (position df) key_columns with
  | Ok ps => Some (map (fun i => cell i row) ps)
  | Raise _ => None
  end.

(** C9 (amended).  Evaluation of any interpolation fails with [ValueError]
    when the query lacks one of the continuous parameter columns that the
    construction kept, or one of the key columns; and when the columns are
    there and the key tuple of some row of the query has no interpolation,
    it fails with [KeyError] on a key tuple of the query that has none:
    no row is evaluated under the functions of another key. *)
Theorem call_failures (self : t) (interpolants : DataFrame) :
  ((exists c, c ∈ parameter_columns self /\ c ∉ columns interpolants) ->
   __call__ self interpolants = Raise (ValueError parameter_message))
  /\ ((forall c, c ∈ parameter_columns self -> c ∈ columns interpolants) ->
      (exists c, c ∈ key_columns self /\ c ∉ columns interpolants) ->
      __call__ self interpolants = Raise (ValueError key_message))
  /\ ((forall c, c ∈ parameter_columns self -> c ∈ columns interpolants) ->
      (forall c, c ∈ key_columns self -> c ∈ columns interpolants) ->
      columns interpolants <> [] ->
      forall row k,
        row ∈ rows interpolants ->
        key_tuple interpolants (key_columns self) row = Some k ->
        interpolations self !! k = None ->
        exists k',
          __call__ self interpolants = Raise (KeyError (KGroup k'))
          /\ interpolations self !! k' = None
          /\ exists row',
               row' ∈ rows interpolants
               /\ key_tuple interpolants (key_columns self) row' = Some k').
Proof.
  split; [|split].
  - intros (c & Hc & Hnot). unfold __call__, validate_call_data.
    by rewrite (forallb_has_column_false _ _ c Hc Hnot).
  - intros Hparams (c & Hc & Hnot). unfold __call__, validate_call_data.
    rewrite (proj2 (forallb_has_column _ _) Hparams). simpl.
    rewrite (forallb_has_column_false _ _ c Hc Hnot).
    rewrite bool_decide_eq_false_2; [done|].
    intros Hnil. rewrite Hnil in Hc. by apply elem_of_nil in Hc.
  - intros Hparams Hkeys Hcols row k Hrow Hk Hmiss.
    unfold __call__, validate_call_data.
    rewrite (proj2 (forallb_has_column _ _) Hparams).
    rewrite (proj2 (forallb_has_column _ _) Hkeys). simpl.
    rewrite andb_false_r. simpl.
    unfold key_tuple in *.
    destruct (key_columns self) as [|kc kcs] eqn:Hkc.
    + simpl in Hk. injection Hk as <-. simpl.
      destruct interpolants as [cols rs]. simpl in *.
      destruct (evaluate_groups_missing self cols [([], rs)]
                  (mk_table (map fst rs) ∅) []) as (k' & Hrun & Hin & Hnone);
        try done.
      * repeat constructor. simpl. intros ->. by apply elem_of_nil in Hrow.
      * by left.
      * exists k'. split; [exact Hrun|]. split; [done|].
        exists row. split; [done|].
        apply list_elem_of_singleton in Hin. by rewrite Hin.
    + unfold sub_tables, groupby.
      destruct (positions_Ok interpolants (kc :: kcs)) as [ps Hps]; [done|].
      rewrite Hps in *. simpl. injection Hk as <-.
      pose proof (grouped_spec (fun r => map (fun i => cell i r) ps)
                    (rows interpolants)) as [Hne Hgroups].
      destruct (evaluate_groups_missing self (columns interpolants)
                  (grouped (fun r => map (fun i => cell i r) ps) (rows interpolants))
                  (mk_table (map fst (rows interpolants)) ∅)
                  (map (fun i => cell i row) ps))
        as (k' & Hrun & Hin & Hnone); try done.
      * apply Hgroups. by exists row.
      * exists k'. split; [exact Hrun|]. split; [done|].
        apply Hgroups in Hin as (row' & Hrow' & Hk'). exists row'.
        split; [done|]. by rewrite Hk'.
Qed.

End InterpolationFacts.

Section InterpolationExamples.
Import Interpolation.

(** A stand-in for scipy: the interpolant is the constant 0. *)
Definition flat_fit (kind : fitter) (order : Z) (xs : list (list Z)) (y : list Z)
  : result func :=
  Ok (fun parameters => map (fun _ => 0%Q) (hd [] parameters)).

(** A reference table over sex, age and year with a single year. *)
Definition one_year : DataFrame :=
  mk_frame ["sex"; "age"; "year"; "value"]
    [(0%nat, [1; 20; 1990; 20]); (1%nat, [1; 30; 1990; 30]);
     (2%nat, [2; 20; 1990; 40]); (3%nat, [2; 30; 1990; 60])].

(** A query without the year. *)
Definition no_year : DataFrame :=
  mk_frame ["sex"; "age"] [(0%nat, [1; 25]); (1%nat, [2; 25])].

(** A query for a sex the reference table does not have. *)
Definition third_sex : DataFrame :=
  mk_frame ["sex"; "age"] [(0%nat, [1; 25]); (1%nat, [3; 25])].

(** C9 (the claim as stated fails).  An interpolation built over the
    continuous parameters age and year, of which the construction drops
    the year, evaluates a query that has no year column. *)
Lemma call_without_dropped_parameter :
  exists self table,
    __init__ flat_fit one_year ["sex"] ["age"; "year"] 1 = Ok self
    /\ parameter_columns self = ["age"]
    /\ ("year" ∉ columns no_year)
    /\ __call__ self no_year = Ok table
    /\ index table = [0%nat; 1%nat].
Proof.
  eexists. eexists. split; [vm_compute; reflexivity|].
  split; [reflexivity|]. split; [set_solver|].
  split; [vm_compute; reflexivity | reflexivity].
Qed.

Lemma call_failures_witness :
  exists self,
    __init__ flat_fit one_year ["sex"] ["age"; "year"] 1 = Ok self
    /\ __call__ self (mk_frame ["sex"] [(0%nat, [1])])
       = Raise (ValueError parameter_message)
    /\ __call__ self (mk_frame ["age"] [(0%nat, [25])])
       = Raise (ValueError key_message)
    /\ exists k', __call__ self third_sex = Raise (KeyError (KGroup k'))
                  /\ interpolations self !! k' = None.
Proof.
  eexists. split; [vm_compute; reflexivity|].
  match goal with |- __call__ ?s _ = _ /\ _ => set (self := s) end.
  split; [|split].
  - apply (proj1 (call_failures self (mk_frame ["sex"] [(0%nat, [1])]))).
    exists "age". split; [by left | set_solver].
  - apply (proj1 (proj2 (call_failures self (mk_frame ["age"] [(0%nat, [25])])))).
    + intros c Hc. apply list_elem_of_singleton in Hc as ->. by left.
    + exists "sex". split; [by left | set_solver].
  - destruct (proj2 (proj2 (call_failures self third_sex))) with
      (row := (1%nat, [3; 25])) (k := [3]) as (k' & Hrun & Hnone & _).
    + intros c Hc. apply list_elem_of_singleton in Hc as ->. set_solver.
    + intros c Hc. apply list_elem_of_singleton in Hc as ->. set_solver.
    + done.
    + set_solver.
    + reflexivity.
    + vm_compute. reflexivity.
    + by exists k'.
Defined.

End InterpolationExamples.

(** * Further properties of the embedded code *)

(** ** [sort_modules] *)

Section SortModulesMore.
Import Util.
Context {M : Type}.
Variable cls : M -> string.
Variable DEPENDENCIES : M -> list string.

Local Abbreviation index := (index cls).
Local Abbreviation inner_sort := (inner_sort cls DEPENDENCIES).
Local Abbreviation sort_loop := (sort_loop cls DEPENDENCIES).
Local Abbreviation sort_modules := (sort_modules cls DEPENDENCIES).

Lemma index_is_Some (l : list M) (x y : M) :
  y ∈ l -> cls y = cls x -> is_Some (index l x).
Proof.
  induction l as [|z l IH]; intros Hy Hc; [by apply elem_of_nil in Hy|].
  simpl. unfold same_module. case_bool_decide as Hz; [by eexists|].
  apply elem_of_cons in Hy as [->|Hy]; [done|].
  destruct (IH Hy Hc) as [i ->]. by eexists.
Qed.

Lemma visit_all_complete registry sorted_modules deps i0 :
  (forall d, d ∈ deps ->
     exists dm x, registry !! d = Some dm /\ x ∈ sorted_modules /\ cls x = cls dm) ->
  exists i, for_each (visit_dependency cls registry sorted_modules) deps i0 = Ok i.
Proof.
  revert i0. induction deps as [|d deps IH]; intros i0 Hdeps; simpl; [by eexists|].
  destruct (Hdeps d) as (dm & x & Hd & Hx & Hc); [by left|].
  unfold visit_dependency at 1, registry_get. rewrite Hd. simpl.
  destruct (index_is_Some _ _ _ Hx Hc) as [j ->]. simpl.
  apply IH. intros d' Hd'. apply Hdeps. by right.
Qed.

Lemma sort_loop_complete registry to_sort sorted_modules :
  NoDup (cls <$> to_sort) ->
  (forall x y, x ∈ sorted_modules -> y ∈ to_sort -> cls x <> cls y) ->
  (forall l1 m l2 d,
      to_sort = l1 ++ m :: l2 -> d ∈ DEPENDENCIES m ->
      exists dm x,
        registry !! d = Some dm /\ x ∈ sorted_modules ++ l1 /\ cls x = cls dm) ->
  exists l, sort_loop registry to_sort sorted_modules = Ok l.
Proof.
  revert sorted_modules.
  induction to_sort as [|c rest IH]; intros sorted_modules Hnd Hfresh Htopo;
    [by eexists|].
  cbn [Util.sort_loop].
  assert (difference_nonempty cls (c :: rest) sorted_modules = true) as ->.
  { unfold difference_nonempty. apply existsb_exists. exists c. split; [by left|].
    rewrite (index_None cls sorted_modules c).
    - by rewrite bool_decide_eq_false_2 by (by intros [? ?]).
    - intros y Hy. apply Hfresh; [done | by left]. }
  apply NoDup_cons in Hnd as [Hc Hnd].
  assert (exists s', inner_sort registry sorted_modules c = Ok s') as [s' Hin].
  { unfold Util.inner_sort.
    destruct (DEPENDENCIES c) as [|d0 deps] eqn:Hdeps; [by eexists|].
    destruct (visit_all_complete registry sorted_modules (d0 :: deps) O) as [i ->].
    - intros d Hd. destruct (Htopo [] c rest d eq_refl) as (dm & x & Hr & Hx & Hcx).
      + by rewrite Hdeps.
      + rewrite app_nil_r in Hx. by exists dm, x.
    - by eexists. }
  rewrite Hin. simpl.
  pose proof (inner_sort_Permutation _ _ _ _ _ _ Hin) as Hperm.
  apply IH; [done| |].
  - intros x y Hx Hy. rewrite Hperm in Hx.
    apply elem_of_cons in Hx as [->|Hx].
    + intros Heq. apply Hc. rewrite Heq. by apply list_elem_of_fmap_2.
    + apply Hfresh; [done | by right].
  - intros l1 m l2 d Hsplit Hd.
    destruct (Htopo (c :: l1) m l2 d) as (dm & x & Hr & Hx & Hcx).
    + by rewrite Hsplit.
    + done.
    + exists dm, x. split; [done|]. split; [|done].
      rewrite Hperm. rewrite elem_of_app in *. rewrite !elem_of_cons in *.
      naive_solver.
Qed.

(** X2.  [sort_modules] returns an order whenever the set hands the
    modules out dependencies first: every dependency of a module is
    registered and its module was handed out earlier. *)
Theorem sort_modules_complete (registry : gmap string M) (to_sort : list M) :
  NoDup (cls <$> to_sort) ->
  (forall l1 m l2 d,
      to_sort = l1 ++ m :: l2 -> d ∈ DEPENDENCIES m ->
      exists dm x, registry !! d = Some dm /\ x ∈ l1 /\ cls x = cls dm) ->
  exists l, sort_modules to_sort registry = Ok l.
Proof.
  intros Hnd Htopo. unfold Util.sort_modules.
  apply sort_loop_complete; [done| |].
  - intros x y Hx. by apply elem_of_nil in Hx.
  - intros l1 m l2 d Hsplit Hd. by apply (Htopo l1 m l2 d).
Qed.

Lemma sort_loop_no_dependencies registry to_sort sorted_modules :
  NoDup (cls <$> to_sort) ->
  (forall x y, x ∈ sorted_modules -> y ∈ to_sort -> cls x <> cls y) ->
  (forall m, m ∈ to_sort -> DEPENDENCIES m = []) ->
  sort_loop registry to_sort sorted_modules = Ok (rev to_sort ++ sorted_modules).
Proof.
  revert sorted_modules.
  induction to_sort as [|c rest IH]; intros sorted_modules Hnd Hfresh Hnone; [done|].
  cbn [Util.sort_loop].
  assert (difference_nonempty cls (c :: rest) sorted_modules = true) as ->.
  { unfold difference_nonempty. apply existsb_exists. exists c. split; [by left|].
    rewrite (index_None cls sorted_modules c).
    - by rewrite bool_decide_eq_false_2 by (by intros [? ?]).
    - intros y Hy. apply Hfresh; [done | by left]. }
  apply NoDup_cons in Hnd as [Hc Hnd].
  unfold Util.inner_sort. rewrite (Hnone c) by left. simpl.
  rewrite IH; [by rewrite <- app_assoc|done| |].
  - intros x y [->|Hx]%elem_of_cons Hy.
    + intros Heq. apply Hc. rewrite Heq. by apply list_elem_of_fmap_2.
    + apply Hfresh; [done | by right].
  - intros m Hm. apply Hnone. by right.
Qed.

(** X3.  Modules that declare no dependencies are put in front of the list
    one after the other: the result is the reverse of the order in which
    the set handed them out. *)
Theorem sort_modules_no_dependencies (registry : gmap string M) (to_sort : list M) :
  NoDup (cls <$> to_sort) ->
  (forall m, m ∈ to_sort -> DEPENDENCIES m = []) ->
  sort_modules to_sort registry = Ok (rev to_sort).
Proof.
  intros Hnd Hnone. unfold Util.sort_modules.
  rewrite sort_loop_no_dependencies; [by rewrite app_nil_r|done| |done].
  intros x y Hx. by apply elem_of_nil in Hx.
Qed.

(** X1.  When [sort_modules] returns, the list it returns holds the
    modules it was given, each one after the registered module of every
    dependency it declares. *)
Theorem sort_modules_linear_extension
    (registry : gmap string M) (to_sort l : list M) :
  NoDup (cls <$> to_sort) ->
  sort_modules to_sort registry = Ok l ->
  l ≡ₚ to_sort
  /\ forall j m d,
       l !! j = Some m -> d ∈ DEPENDENCIES m ->
       exists dm i x,
         registry !! d = Some dm /\ l !! i = Some x /\ cls x = cls dm /\ (i < j)%nat.
Proof. apply sort_modules_sound. Qed.

End SortModulesMore.

Section SortModulesMoreExamples.
Import Util.

Definition module_c : SimulationModule.t :=
  SimulationModule.plain "C" ["B"; "A"] EventHandler.init.

Definition registry_abc : gmap string SimulationModule.t :=
  <["C" := module_c]> registry_ab.

Lemma sort_modules_linear_extension_witness :
  sort_modules SimulationModule.cls SimulationModule.DEPENDENCIES
    [module_a; module_b; module_c] registry_abc
  = Ok [module_a; module_b; module_c]
  /\ [module_a; module_b; module_c] ≡ₚ [module_a; module_b; module_c].
Proof.
  assert (Hrun : sort_modules SimulationModule.cls SimulationModule.DEPENDENCIES
                   [module_a; module_b; module_c] registry_abc
                 = Ok [module_a; module_b; module_c]) by (vm_compute; reflexivity).
  split; [exact Hrun|].
  refine (proj1 (sort_modules_linear_extension SimulationModule.cls
                   SimulationModule.DEPENDENCIES registry_abc
                   [module_a; module_b; module_c] _ _ Hrun)).
  simpl. repeat (apply NoDup_cons; split; [set_solver|]). apply NoDup_nil_2.
Defined.

Lemma sort_modules_complete_witness :
  exists l,
    sort_modules SimulationModule.cls SimulationModule.DEPENDENCIES
      [module_a; module_b; module_c] registry_abc = Ok l.
Proof.
  apply (sort_modules_complete SimulationModule.cls SimulationModule.DEPENDENCIES).
  - simpl. repeat (apply NoDup_cons; split; [set_solver|]). apply NoDup_nil_2.
  - intros l1 m l2 d Hsplit Hd.
    destruct l1 as [|x1 [|x2 [|x3 l1]]]; simplify_eq/=.
    + by apply elem_of_nil in Hd.
    + apply list_elem_of_singleton in Hd as ->.
      exists module_a, module_a. split; [reflexivity|]. split; [by left | done].
    + apply elem_of_cons in Hd as [->|Hd].
      * exists module_b, module_b. split; [reflexivity|].
        split; [set_solver | done].
      * apply list_elem_of_singleton in Hd as ->.
        exists module_a, module_a. split; [reflexivity|]. split; [by left | done].
    + destruct l1; discriminate.
Defined.

Lemma sort_modules_no_dependencies_witness :
  sort_modules SimulationModule.cls SimulationModule.DEPENDENCIES
    [module_a; base_module] ∅
  = Ok [base_module; module_a].
Proof.
  apply (sort_modules_no_dependencies SimulationModule.cls
           SimulationModule.DEPENDENCIES ∅ [module_a; base_module]).
  - simpl. repeat (apply NoDup_cons; split; [set_solver|]). apply NoDup_nil_2.
  - intros m Hm. apply elem_of_cons in Hm as [->|Hm]; [done|].
    apply list_elem_of_singleton in Hm as ->. done.
Defined.

End SortModulesMoreExamples.

(** ** Rate arithmetic *)

Section RateArithmetic.
Import Util.

(** X26.  Over a step of 365 days the step rate is the yearly rate itself,
    bit for bit, whatever double the rate is: the step is one year long
    and multiplying by one does not round. *)
Theorem from_yearly_rate_year (rate : float) :
  from_yearly_rate rate (mk_timedelta 365 0 0) = rate.
Proof.
  unfold from_yearly_rate.
  change (total_seconds (mk_timedelta 365 0 0) / seconds_per_year)%float
    with 1%float.
  apply mul_one.
Qed.

End RateArithmetic.

(** ** Masks: [mask_for_rate], [only_living] and the incidence handler *)

Module Masks.
Import Util.

(** [mask_for_rate(population, rate)]; [draws] is the array that
    [np.random.random(size=len(population))] returns.  The columns are
    aligned on the index of the population; a row without a rate has no
    probability and is not selected. *)
Definition mask_for_rate (np_exp : float -> float) (population : list Simulant)
    (draws rate : list float) : list bool :=
  imap (fun i _ =>
          match draws !! i, rate !! i with
          | Some draw, Some r => (draw <? rate_to_probability np_exp r)%float
          | _, _ => false
          end)
       population.

(** [mask & column], for a numpy array [mask] and a boolean column of the
    population: a new array, element by element when the array is as long
    as the column; an array of one element is broadcast over the rows;
    other lengths are refused. *)
Definition np_and (mask column : list bool) : result (list bool) :=
  if bool_decide (length mask = length column) then Ok (zip_with andb mask column)
  else
    match mask with
    | [b] => Ok (map (andb b) column)
    | _ => Raise (ValueError "operands could not be broadcast together")
    end.

(** [only_living(fun)]: the wrapped listener, called on
    [mask & (population.alive == True)]. *)
Definition only_living
    (f : option string -> nat -> Simulation.t -> result Simulation.t)
    (label : option string) (mask : nat) (simulation : Simulation.t)
  : result Simulation.t :=
  let m := default [] (Simulation.arrays simulation !! mask) in
  living <- np_and m (alive <$> Simulation.population simulation) ;;
  let '(handed, simulation') := Simulation.np_array living simulation in
  f label handed simulation'.

(** The population table is rectangular: a column is there when every row
    has a cell for it.  A boolean column holds 1 for [True] and 0 for
    [False], which is what [==] on Python's booleans and numbers compares. *)
Definition has_column (population : list Simulant) (name : string) : bool :=
  forallb (fun s => bool_decide (is_Some (others s !! name))) population.

(** [population[condition] == False], on one row. *)
Definition is_false (s : Simulant) (condition : string) : bool :=
  match others s !! condition with
  | Some v => Qeq_bool v 0
  | None => false
  end.

(** [population.loc[row, condition] = True] *)
Definition set_true (s : Simulant) (condition : string) : Simulant :=
  mk_simulant (age s) (fractional_age s) (alive s) (year s)
    (<[condition := 1%Q]> (others s)).

Section Handler.

Variable np_exp : float -> float.
Variable draws : list float.

(** The [handler] that [chronic_condition_incidence_handler(condition)]
    defines, before [only_living] wraps it.  The masks it computes on the
    way are temporaries. *)
Definition handler (condition : string) (label : option string) (mask : nat)
    (simulation : Simulation.t) : result Simulation.t :=
  let population := Simulation.population simulation in
  let m := default [] (Simulation.arrays simulation !! mask) in
  if negb (has_column population condition) then Raise (KeyError (KName condition))
  else
    mask1 <- np_and m (map (fun s => is_false s condition) population) ;;
    let incidence_rates :=
      Simulation.incidence_rates simulation population condition in
    let mask2 :=
      zip_with andb mask1 (mask_for_rate np_exp population draws incidence_rates) in
    Ok (Simulation.set_population simulation
          (zip_with (fun (b : bool) s => if b then set_true s condition else s)
             mask2 population)).

(** [chronic_condition_incidence_handler(condition)] *)
Definition chronic_condition_incidence_handler (condition : string)
  : option string -> nat -> Simulation.t -> result Simulation.t :=
  only_living (handler condition).

End Handler.

End Masks.

Section MasksFacts.
Import Util Masks.

Lemma rate_to_probability_zero (np_exp : float -> float) (r : float) :
  np_exp 0%float = 1%float -> np_exp (- 0)%float = 1%float -> (r =? 0)%float = true ->
  rate_to_probability np_exp r = 0%float.
Proof.
  intros H0 Hn Hr. unfold rate_to_probability.
  destruct (eqb_zero r Hr) as [-> | ->].
  - by rewrite Hn.
  - change (- -0)%float with 0%float. by rewrite H0.
Qed.

Lemma mask_for_rate_zero (np_exp : float -> float) (population : list Simulant)
    (draws rate : list float) :
  np_exp 0%float = 1%float -> np_exp (- 0)%float = 1%float ->
  Forall (fun d => (0 <=? d)%float = true) draws ->
  Forall (fun r => (r =? 0)%float = true) rate ->
  Forall (fun b => b = false) (mask_for_rate np_exp population draws rate).
Proof.
  intros H0 Hn Hdraws Hrate. unfold mask_for_rate. apply Forall_lookup. intros i b.
  rewrite list_lookup_imap. destruct (population !! i); simpl; [|done].
  intros [= <-].
  destruct (draws !! i) as [d|] eqn:Hd; [|done].
  destruct (rate !! i) as [r|] eqn:Hr; [|done].
  rewrite Forall_lookup in Hdraws. rewrite Forall_lookup in Hrate.
  rewrite (rate_to_probability_zero np_exp r H0 Hn (Hrate i r Hr)).
  apply ltb_zero. by apply (Hdraws i).
Qed.

(** X7.  [mask_for_rate] gives one flag per row; it selects nobody at rate
    zero (the draws are not negative, the exponential of a zero is 1), and
    whoever is selected at some rates is selected at greater rates with
    the same draws, wherever [np.exp] keeps to the order of its arguments
    and to the unit interval. *)
Theorem mask_for_rate_laws (np_exp : float -> float) (population : list Simulant)
    (draws rate rate' : list float) :
  length (mask_for_rate np_exp population draws rate) = length population
  /\ (np_exp 0%float = 1%float -> np_exp (- 0)%float = 1%float ->
      Forall (fun d => (0 <=? d)%float = true) draws ->
      Forall (fun r => (r =? 0)%float = true) rate ->
      Forall (fun b => b = false) (mask_for_rate np_exp population draws rate))
  /\ (Forall2 (fun r r' => (r <=? r')%float = true /\ exp_respects np_exp r r')
        rate rate' ->
      forall i, mask_for_rate np_exp population draws rate !! i = Some true ->
                mask_for_rate np_exp population draws rate' !! i = Some true).
Proof.
  split; [apply length_imap|]. split; [apply mask_for_rate_zero|].
  unfold mask_for_rate. intros Hle i. rewrite !list_lookup_imap.
  destruct (population !! i); simpl; [|done].
  destruct (draws !! i) as [d|]; [|done].
  destruct (rate !! i) as [r|] eqn:Hr; [|done].
  destruct (Forall2_lookup_l _ _ _ _ _ Hle Hr) as (r' & -> & Hrr' & Hexp).
  intros [= Hsel]. f_equal.
  pose proof Hexp as (Hu & Hu' & _).
  apply (ltb_leb_unit d (rate_to_probability np_exp r)); [..|done|].
  - by apply sub_one_in_unit.
  - by apply sub_one_in_unit.
  - by apply rate_to_probability_mono.
Qed.

Lemma mask_for_rate_laws_witness :
  Forall (fun b => b = false) (mask_for_rate exp_sample one_simulant [0.5%float] [0%float])
  /\ (mask_for_rate exp_sample one_simulant [0.5%float] [1%float] !! 0%nat = Some true ->
      mask_for_rate exp_sample one_simulant [0.5%float] [2%float] !! 0%nat = Some true).
Proof.
  split.
  - apply (proj1 (proj2 (mask_for_rate_laws exp_sample one_simulant
                           [0.5%float] [0%float] [0%float])));
      try reflexivity; by repeat constructor.
  - apply (proj2 (proj2 (mask_for_rate_laws exp_sample one_simulant
                           [0.5%float] [1%float] [2%float]))).
    repeat constructor.
Defined.

Lemma np_and_same (m column : list bool) :
  length m = length column -> np_and m column = Ok (zip_with andb m column).
Proof. intros H. unfold np_and. by rewrite bool_decide_eq_true_2. Qed.

Lemma np_and_one (b : bool) (column : list bool) :
  np_and [b] column = Ok (map (andb b) column).
Proof.
  unfold np_and. case_bool_decide as Hlen; [|done].
  destruct column as [|a [|? ?]]; try done.
Qed.

(** What [&] returns is as long as the column and is set on set rows of
    the column only. *)
Lemma np_and_inv (m column r : list bool) :
  np_and m column = Ok r ->
  length r = length column
  /\ forall i, r !! i = Some true -> column !! i = Some true.
Proof.
  unfold np_and. case_bool_decide as Hlen.
  - intros [= <-]. split; [rewrite length_zip_with; lia|].
    intros i. rewrite lookup_zip_with.
    destruct (m !! i) as [[]|], (column !! i) as [[]|]; simpl; congruence.
  - destruct m as [|b [|? ?]]; try done. intros [= <-].
    split; [by rewrite length_map|].
    intros i. rewrite list_lookup_fmap.
    destruct b, (column !! i) as [[]|]; simpl; congruence.
Qed.

(** X8.  A listener wrapped by [only_living] is called on a new array that
    is as long as the population.  When the caller's mask is as long as
    the population, the array is set exactly on the rows that are set in
    the mask and alive; a mask of one element is broadcast: the array is
    set on the living rows when the element is set, and on no row when it
    is not. *)
Theorem only_living_mask
    (f : option string -> nat -> Simulation.t -> result Simulation.t)
    (label : option string) (mask : nat) (sim : Simulation.t) (m : list bool) :
  Simulation.arrays sim !! mask = Some m ->
  (length m = length (Simulation.population sim) ->
   exists living,
     only_living f label mask sim
     = f label (length (Simulation.arrays sim))
         (Simulation.set_arrays sim (Simulation.arrays sim ++ [living]))
     /\ length living = length (Simulation.population sim)
     /\ forall i,
          living !! i = Some true
          <-> m !! i = Some true
              /\ exists s, Simulation.population sim !! i = Some s /\ alive s = true)
  /\ (forall b : bool, m = [b] ->
      exists living,
        only_living f label mask sim
        = f label (length (Simulation.arrays sim))
            (Simulation.set_arrays sim (Simulation.arrays sim ++ [living]))
        /\ length living = length (Simulation.population sim)
        /\ forall i,
             living !! i = Some true
             <-> b = true
                 /\ exists s, Simulation.population sim !! i = Some s /\ alive s = true).
Proof.
  intros Hm. unfold only_living. rewrite Hm. simpl. split.
  - intros Hlen. rewrite np_and_same by (by rewrite length_fmap). simpl.
    eexists. split; [reflexivity|]. split.
    + rewrite length_zip_with, length_fmap. lia.
    + intros i. rewrite lookup_zip_with, list_lookup_fmap.
      destruct (m !! i) as [b|]; simpl;
        destruct (Simulation.population sim !! i) as [s|]; simpl.
      * destruct b, (alive s) eqn:Ha; simpl;
          (split; [intros Heq | intros (H1 & s0 & H2 & H3)]); simplify_eq;
          try done; try congruence; eauto.
      * split; [done | by intros (_ & s0 & ? & _)].
      * split; [done | by intros (? & _)].
      * split; [done | by intros (? & _)].
  - intros b ->. rewrite np_and_one. simpl.
    eexists. split; [reflexivity|]. split.
    + by rewrite length_map, length_fmap.
    + intros i. rewrite !list_lookup_fmap.
      destruct (Simulation.population sim !! i) as [s|]; simpl.
      * destruct b, (alive s) eqn:Ha; simpl;
          (split; [intros Heq | intros (H1 & s0 & H2 & H3)]); simplify_eq;
          try done; try congruence; eauto.
      * split; [done | by intros (_ & s0 & ? & _)].
Qed.

Lemma only_living_mask_witness :
  exists living,
    only_living (fun _ _ s => Ok s) time_step 0
      (Simulation.set_arrays
         (Simulation.set_population Simulation.blank
            [mk_simulant 40 40 true 1990 ∅; mk_simulant 80 80 false 1990 ∅])
         [[true]])
    = Ok (Simulation.set_arrays
            (Simulation.set_population Simulation.blank
               [mk_simulant 40 40 true 1990 ∅; mk_simulant 80 80 false 1990 ∅])
            ([[true]] ++ [living]))
    /\ living !! 0%nat = Some true
    /\ living !! 1%nat <> Some true.
Proof.
  destruct (only_living_mask (fun _ _ s => Ok s) time_step 0
              (Simulation.set_arrays
                 (Simulation.set_population Simulation.blank
                    [mk_simulant 40 40 true 1990 ∅; mk_simulant 80 80 false 1990 ∅])
                 [[true]]) [true] eq_refl)
    as [_ Hone].
  destruct (Hone true eq_refl) as (living & Hrun & _ & Hbits).
  exists living. split; [exact Hrun|]. split.
  - apply Hbits. split; [done|]. by eexists.
  - intros H1. apply Hbits in H1 as (_ & s & Hs & Ha).
    simpl in Hs. injection Hs as <-. discriminate.
Defined.

Section ChronicCondition.

Variable np_exp : float -> float.
Variable draws : list float.

(** The handler, on a mask that [&] accepts and a condition that is a
    column, unfolded. *)
Lemma chronic_condition_incidence_handler_inv
    (condition : string) (label : option string) (mask : nat)
    (sim sim' : Simulation.t) :
  chronic_condition_incidence_handler np_exp draws condition label mask sim = Ok sim' ->
  exists living mask1,
    np_and (default [] (Simulation.arrays sim !! mask))
      (alive <$> Simulation.population sim) = Ok living
    /\ np_and living (map (fun s => is_false s condition) (Simulation.population sim))
       = Ok mask1
    /\ sim'
       = Simulation.set_population
           (Simulation.set_arrays sim (Simulation.arrays sim ++ [living]))
           (zip_with (fun (b : bool) s => if b then set_true s condition else s)
              (zip_with andb mask1
                 (mask_for_rate np_exp (Simulation.population sim) draws
                    (Simulation.incidence_rates sim (Simulation.population sim)
                       condition)))
              (Simulation.population sim)).
Proof.
  unfold chronic_condition_incidence_handler, only_living.
  destruct (np_and _ (alive <$> _)) as [living|] eqn:Hliving; simpl; [|done].
  unfold Simulation.np_array, handler. simpl.
  destruct (has_column (Simulation.population sim) condition); simpl; [|done].
  rewrite lookup_app_r, Nat.sub_diag by done. simpl.
  destruct (np_and living _) as [mask1|] eqn:Hmask1; simpl; [|done].
  intros [= <-]. by exists living, mask1.
Qed.

(** X9.  The incidence handler of a chronic condition writes nothing but
    the condition column of the population: every row keeps its other
    cells, a row is either left as it is or has the condition set, and
    it is set only on a living row that did not have it. The arrays that
    existed before the call are not written. *)
Theorem chronic_condition_incidence_handler_frame
    (condition : string) (label : option string) (mask : nat)
    (sim sim' : Simulation.t) :
  chronic_condition_incidence_handler np_exp draws condition label mask sim = Ok sim' ->
  length (Simulation.population sim') = length (Simulation.population sim)
  /\ Simulation.current_time sim' = Simulation.current_time sim
  /\ Simulation.yld_by_year sim' = Simulation.yld_by_year sim
  /\ Simulation.yll_by_year sim' = Simulation.yll_by_year sim
  /\ Simulation._ordered_modules sim' = Simulation._ordered_modules sim
  /\ (forall r, (r < length (Simulation.arrays sim))%nat ->
                Simulation.arrays sim' !! r = Simulation.arrays sim !! r)
  /\ forall i s,
       Simulation.population sim !! i = Some s ->
       exists s',
         Simulation.population sim' !! i = Some s'
         /\ (s' = s
             \/ (s' = set_true s condition /\ alive s = true
                 /\ is_false s condition = true)).
Proof.
  intros Hrun.
  destruct (chronic_condition_incidence_handler_inv _ _ _ _ _ Hrun)
    as (living & mask1 & Hliving & Hmask1 & ->). clear Hrun.
  destruct (np_and_inv _ _ _ Hliving) as [Hl1 Hl2].
  destruct (np_and_inv _ _ _ Hmask1) as [Hm1 Hm2].
  rewrite length_fmap in Hl1. rewrite length_map in Hm1. simpl.
  split.
  { rewrite !length_zip_with. unfold mask_for_rate. rewrite length_imap. lia. }
  split; [done|]. split; [done|]. split; [done|]. split; [done|]. split.
  { intros r Hr. by rewrite lookup_app_l. }
  intros i s Hs. rewrite !lookup_zip_with, Hs.
  pose proof (lookup_lt_Some _ _ _ Hs) as Hi.
  destruct (lookup_lt_is_Some_2 mask1 i) as [b Hb]; [lia|].
  destruct (lookup_lt_is_Some_2
              (mask_for_rate np_exp (Simulation.population sim) draws
                 (Simulation.incidence_rates sim (Simulation.population sim) condition))
              i) as [b' Hb'].
  { unfold mask_for_rate. rewrite length_imap. lia. }
  rewrite Hb, Hb'. simpl.
  destruct b; simpl; [|eexists; split; [done | by left]].
  destruct b'; simpl; [|eexists; split; [done | by left]].
  eexists. split; [done|]. right. split; [done|].
  pose proof (Hm2 i Hb) as Hfalse. rewrite list_lookup_fmap, Hs in Hfalse.
  assert (Hl : living !! i = Some true).
  { revert Hmask1. unfold np_and. case_bool_decide as Hlen.
    - intros [= <-]. rewrite lookup_zip_with in Hb.
      destruct (living !! i) as [[]|]; simpl in Hb; try done.
      by destruct (map _ _ !! i).
    - exfalso. apply Hlen. rewrite length_map. lia. }
  pose proof (Hl2 i Hl) as Halive. rewrite list_lookup_fmap, Hs in Halive.
  simpl in *. split; congruence.
Qed.

(** X10.  When the incidence rates of the condition are all zero (the
    draws are not negative, the exponential of a zero is 1), the incidence
    handler leaves the population as it is. *)
Theorem chronic_condition_incidence_handler_zero
    (condition : string) (label : option string) (mask : nat)
    (sim sim' : Simulation.t) :
  np_exp 0%float = 1%float -> np_exp (- 0)%float = 1%float ->
  Forall (fun d => (0 <=? d)%float = true) draws ->
  Forall (fun q => (q =? 0)%float = true)
    (Simulation.incidence_rates sim (Simulation.population sim) condition) ->
  chronic_condition_incidence_handler np_exp draws condition label mask sim = Ok sim' ->
  Simulation.population sim' = Simulation.population sim.
Proof.
  intros H0 Hn Hdraws Hzero Hrun.
  pose proof (mask_for_rate_zero np_exp (Simulation.population sim) draws _
                H0 Hn Hdraws Hzero) as Hnone.
  rewrite Forall_lookup in Hnone.
  destruct (chronic_condition_incidence_handler_inv _ _ _ _ _ Hrun)
    as (living & mask1 & Hliving & Hmask1 & ->). clear Hrun.
  destruct (np_and_inv _ _ _ Hmask1) as [Hm1 _]. rewrite length_map in Hm1. simpl.
  apply list_eq. intros i. rewrite !lookup_zip_with.
  destruct (Simulation.population sim !! i) as [s|] eqn:Hs; simpl.
  - pose proof (lookup_lt_Some _ _ _ Hs) as Hi.
    destruct (lookup_lt_is_Some_2 mask1 i) as [b Hb]; [lia|]. rewrite Hb. simpl.
    destruct (mask_for_rate _ _ _ _ !! i) as [b'|] eqn:Hb'; simpl.
    + by rewrite (Hnone i b' Hb'), andb_false_r.
    + apply lookup_ge_None in Hb'. unfold mask_for_rate in Hb'.
      rewrite length_imap in Hb'. lia.
  - match goal with |- ?o ≫= _ = None => by destruct o end.
Qed.

Lemma chronic_condition_incidence_handler_Ok
    (condition : string) (label : option string) (mask : nat) (sim : Simulation.t)
    (m : list bool) :
  Simulation.arrays sim !! mask = Some m ->
  length m = length (Simulation.population sim) ->
  has_column (Simulation.population sim) condition = true ->
  exists sim',
    chronic_condition_incidence_handler np_exp draws condition label mask sim = Ok sim'.
Proof.
  intros Hm Hlen Hcol.
  unfold chronic_condition_incidence_handler, only_living. rewrite Hm. simpl.
  rewrite np_and_same by (by rewrite length_fmap). simpl.
  unfold Simulation.np_array, handler. simpl. rewrite Hcol. simpl.
  rewrite lookup_app_r, Nat.sub_diag by done. simpl.
  rewrite np_and_same; [by eexists|].
  rewrite length_zip_with, length_fmap, length_map. lia.
Qed.

End ChronicCondition.

Section ChronicConditionExample.

(** A living simulant without the condition and two that cannot get it. *)
Definition three_simulants : Simulation.t :=
  Simulation.set_arrays
    (Simulation.set_population Simulation.blank
       [mk_simulant 40 40 true 1990 {[ "ihd" := 0%Q ]};
        mk_simulant 80 80 false 1990 {[ "ihd" := 0%Q ]};
        mk_simulant 60 60 true 1990 {[ "ihd" := 1%Q ]}])
    [[true; true; true]].

Definition three_draws : list float := [0.5%float; 0.5%float; 0.5%float].

Lemma chronic_condition_incidence_handler_frame_witness :
  exists sim',
    chronic_condition_incidence_handler exp_sample three_draws "ihd" time_step 0
      three_simulants = Ok sim'
    /\ length (Simulation.population sim') = 3%nat.
Proof.
  destruct (chronic_condition_incidence_handler_Ok exp_sample three_draws "ihd"
              time_step 0 three_simulants [true; true; true] eq_refl eq_refl eq_refl)
    as [sim' Hrun].
  exists sim'. split; [exact Hrun|].
  exact (proj1 (chronic_condition_incidence_handler_frame _ _ _ _ _ _ _ Hrun)).
Defined.

Lemma chronic_condition_incidence_handler_zero_witness :
  exists sim',
    chronic_condition_incidence_handler exp_sample three_draws "ihd" time_step 0
      three_simulants = Ok sim'
    /\ Simulation.population sim' = Simulation.population three_simulants.
Proof.
  destruct (chronic_condition_incidence_handler_Ok exp_sample three_draws "ihd"
              time_step 0 three_simulants [true; true; true] eq_refl eq_refl eq_refl)
    as [sim' Hrun].
  exists sim'. split; [exact Hrun|].
  apply (chronic_condition_incidence_handler_zero exp_sample three_draws
           "ihd" time_step 0 three_simulants sim'); try reflexivity.
  - by repeat constructor.
  - by repeat constructor.
  - exact Hrun.
Defined.

End ChronicConditionExample.

End MasksFacts.

(** ** Registering and deregistering listeners *)

Section Deregistration.
Import EventHandler.




(** X12.  Deregistering a listener that is not registered under the label
    (or, for [None] and the empty label, not registered without a label)
    raises [KeyError]. *)
Theorem deregister_unregistered
    (h : t) (listener : string) (label : option string) :
  listener ∉ (if truthy label then listeners_at h label else _generic_listeners h) ->
  deregister_event_listener h listener label
  = Raise (KeyError (KPriority label listener)).
Proof.
  intros Hnot. unfold deregister_event_listener.
  destruct (truthy label); by rewrite bool_decide_eq_false_2.
Qed.

Lemma deregister_unregistered_witness :
  deregister_event_listener BaseSimulationModule.listeners "advance_age" None
  = Raise (KeyError (KPriority None "advance_age")).
Proof.
  apply (deregister_unregistered BaseSimulationModule.listeners "advance_age" None).
  simpl. set_solver.
Defined.

End Deregistration.

Section EmitEdges.
Import EventHandler.

Variable set_iter : gset string -> list string.
Hypothesis set_iter_elements : forall s, set_iter s ≡ₚ elements s.

Lemma set_iter_empty : set_iter ∅ = [].
Proof.
  pose proof (set_iter_elements ∅) as H. rewrite elements_empty in H.
  by apply Permutation_nil_r in H.
Qed.

Lemma set_iter_NoDup (s : gset string) : NoDup (set_iter s).
Proof. rewrite set_iter_elements. apply NoDup_elements. Qed.

Lemma priorities_register_all_inv regs label l p :
  _listener_priorities (register_all regs) !! (label, l) = Some p ->
  exists p', (l, label, p') ∈ regs.
Proof.
  induction regs as [|[[l' lab'] p'] regs IH] using rev_ind.
  - unfold register_all. simpl. by rewrite lookup_empty.
  - rewrite register_all_snoc, priorities_register. simpl.
    destruct (decide ((lab', l') = (label, l))) as [[= -> ->]|Hne].
    + intros _. exists p'. apply elem_of_app. right. by left.
    + rewrite lookup_insert_ne by done. intros Hp.
      destruct (IH Hp) as [p'' Hin]. exists p''. apply elem_of_app. by left.
Qed.

Lemma comprehension_raises {A B : Type} (f : A -> result B)
    (before after : list A) (x : A) (e : exn) :
  (forall y, y ∈ before -> exists z, f y = Ok z) -> f x = Raise e ->
  comprehension f (before ++ x :: after) = Raise e.
Proof.
  intros Hbefore Hx. induction before as [|y before IH]; simpl.
  - by rewrite Hx.
  - destruct (Hbefore y) as [z ->]; [by left|]. simpl.
    rewrite IH; [done|]. intros y' Hy'. apply Hbefore. by right.
Qed.

(** X13.  A listener registered under the empty string is stored with the
    label-less listeners but its priority is filed under the empty string,
    where no emit looks for it: unless the same listener is also
    registered under [None], every emit of the handler, whatever its
    label, raises [KeyError]. *)
Theorem emit_after_empty_label_registration
    (regs : list registration) (listener : string) (priority : Z)
    (label : option string) :
  Forall (fun r => plain_label r.1.2) regs ->
  (forall p, (listener, None, p) ∉ regs) ->
  emit_order set_iter
    (register_event_listener (register_all regs) listener (Some "") priority) label
  = Raise (KeyError (KPriority None listener)).
Proof.
  intros Hplain Hnone.
  set (h0 := register_all regs).
  set (h := register_event_listener h0 listener (Some "") priority).
  assert (Hl : listeners_at h label = listeners_at h0 label) by reflexivity.
  assert (Hg : _generic_listeners h = {[listener]} ∪ _generic_listeners h0)
    by reflexivity.
  assert (Hp : _listener_priorities h
               = <[(Some "", listener) := priority]> (_listener_priorities h0))
    by reflexivity.
  clearbody h.
  assert (Hkeep : forall k, is_Some (_listener_priorities h0 !! k) ->
                            is_Some (_listener_priorities h !! k)).
  { intros k Hk. rewrite Hp.
    destruct (decide ((Some "", listener) = k)) as [<-|Hne].
    - rewrite lookup_insert_eq. eauto.
    - by rewrite lookup_insert_ne. }
  unfold emit_order, collect.
  destruct (collect_part_Ok h label (set_iter (listeners_at h label)))
    as (part & -> & _).
  { intros l Hl'. apply Hkeep. rewrite set_iter_elements in Hl'.
    apply elem_of_elements in Hl'. rewrite Hl in Hl'.
    apply listeners_at_register_all in Hl' as (_ & p & Hin).
    by eapply priorities_register_all. }
  simpl.
  assert (Hin : listener ∈ set_iter (_generic_listeners h)).
  { rewrite set_iter_elements. apply elem_of_elements. rewrite Hg. set_solver. }
  apply list_elem_of_split in Hin as (before & after & Hsplit).
  pose proof (set_iter_NoDup (_generic_listeners h)) as Hnd.
  rewrite Hsplit in *.
  rewrite (comprehension_raises _ before after listener
             (KeyError (KPriority None listener))); [done| |].
  - intros y Hy.
    assert (Hyl : y <> listener).
    { intros ->. apply NoDup_app in Hnd as (_ & Hd & _). apply (Hd _ Hy). by left. }
    assert (Hyg : y ∈ _generic_listeners h0).
    { assert (y ∈ _generic_listeners h) as Hyh.
      { apply elem_of_elements. rewrite <- set_iter_elements, Hsplit.
        apply elem_of_app. by left. }
      rewrite Hg in Hyh. set_solver. }
    apply generic_register_all in Hyg as (lab & p & Ht & Hreg).
    rewrite Forall_forall in Hplain. pose proof (Hplain _ Hreg) as Hpl.
    simpl in Hpl. rewrite (truthy_false_plain lab Hpl Ht) in Hreg.
    destruct (Hkeep (None, y)) as [p' Hp'];
      [by eapply priorities_register_all|].
    unfold priority_of. rewrite Hp'. by eexists.
  - unfold priority_of. rewrite Hp, lookup_insert_ne by done.
    destruct (_listener_priorities h0 !! (None, listener)) as [p|] eqn:Hpl; [|done].
    apply priorities_register_all_inv in Hpl as [p' Hin']. by destruct (Hnone p').
Qed.

(** X14.  The two listeners that [BaseSimulationModule] registers are
    walked in the order aging, mortality by every emit of [time_step],
    however Python iterates over its sets; no other label reaches them. *)
Theorem base_listeners_order (label : option string) :
  emit_order set_iter BaseSimulationModule.listeners (Some "time_step")
  = Ok ["advance_age"; "mortality_handler"]
  /\ (label <> Some "time_step" ->
      emit_order set_iter BaseSimulationModule.listeners label = Ok []).
Proof.
  split.
  - unfold emit_order, collect.
    set (s := ({["advance_age"]} ∪ {["mortality_handler"]} : gset string)).
    assert (listeners_at BaseSimulationModule.listeners (Some "time_step") = s) as ->
      by (vm_compute; reflexivity).
    assert (_generic_listeners BaseSimulationModule.listeners = ∅) as ->
      by (vm_compute; reflexivity).
    rewrite set_iter_empty.
    pose proof (set_iter_elements s) as Hs.
    symmetry in Hs. apply permutations_Permutation in Hs.
    set (perms := permutations (elements s)) in Hs.
    vm_compute in perms. subst perms.
    generalize dependent (set_iter s). intros ls Hs.
    repeat (apply elem_of_cons in Hs as [->|Hs]; [vm_compute; reflexivity|]).
    by apply elem_of_nil in Hs.
  - intros Hlabel. unfold emit_order, collect.
    assert (listeners_at BaseSimulationModule.listeners label = ∅) as ->.
    { apply set_eq. intros l. split; [|set_solver].
      change BaseSimulationModule.listeners
        with (register_all [("advance_age", Some "time_step", 0);
                            ("mortality_handler", Some "time_step", 1)]).
      rewrite listeners_at_register_all. intros (_ & p & Hin).
      repeat (apply elem_of_cons in Hin as [[= _ Heq _]|Hin]; [by destruct Hlabel|]).
      by apply elem_of_nil in Hin. }
    assert (_generic_listeners BaseSimulationModule.listeners = ∅) as ->
      by (vm_compute; reflexivity).
    by rewrite set_iter_empty.
Qed.

(** X15.  An emit under a label that no module listens to, in a simulation
    whose modules have no label-less listeners, leaves the simulation as
    it is: no listener runs and no mask is copied. *)
Theorem emit_event_unheard
    (call : string -> option string -> nat -> Simulation.t -> result Simulation.t)
    (sim : Simulation.t) (label : option string) (mask : nat) :
  Forall (fun m =>
            listeners_at (SimulationModule.handler m) label = ∅
            /\ _generic_listeners (SimulationModule.handler m) = ∅)
         (Simulation._ordered_modules sim) ->
  Simulation.emit_event set_iter call sim label mask = Ok sim.
Proof.
  unfold Simulation.emit_event. generalize (Simulation._ordered_modules sim) at 1 2.
  intros modules Hall. induction Hall as [|m modules [Hl Hg] _ IH]; simpl; [done|].
  unfold emit_event at 1, emit_order, collect.
  by rewrite Hl, Hg, set_iter_empty.
Qed.

End EmitEdges.

Section EmitEdgesExamples.
Import EventHandler.

Lemma emit_after_empty_label_registration_witness :
  emit_order elements
    (register_event_listener (register_all three) "h" (Some "") 7) time_step
  = Raise (KeyError (KPriority None "h")).
Proof.
  apply (emit_after_empty_label_registration elements (fun s => reflexivity _)
           three "h" 7 time_step).
  - unfold three, plain_label. repeat constructor; simpl; discriminate.
  - intros p Hin. unfold three in Hin.
    repeat (apply elem_of_cons in Hin as [Heq|Hin]; [discriminate|]).
    by apply elem_of_nil in Hin.
Defined.

Lemma base_listeners_order_witness :
  emit_order elements BaseSimulationModule.listeners (Some "deaths") = Ok [].
Proof.
  apply (proj2 (base_listeners_order elements (fun s => reflexivity _)
                  (Some "deaths"))).
  discriminate.
Defined.

Lemma emit_event_unheard_witness :
  Simulation.emit_event elements example_call example_simulation
    (Some "deaths") 0
  = Ok example_simulation.
Proof.
  apply (emit_event_unheard elements (fun s => reflexivity _)).
  repeat constructor; vm_compute; reflexivity.
Defined.

End EmitEdgesExamples.

(** ** Registering modules *)

Section ModuleRegistry.
Import Util.

Local Abbreviation cls := SimulationModule.cls.
Local Abbreviation deps := SimulationModule.DEPENDENCIES.

(** Every module is filed under its own class. *)
Definition registry_consistent (reg : gmap string SimulationModule.t) : Prop :=
  forall k m, reg !! k = Some m -> cls m = k.

(** The modules of a registry. *)
Definition registered (reg : gmap string SimulationModule.t)
  : list SimulationModule.t :=
  (map_to_list reg).*2.

Lemma registry_consistent_insert (reg : gmap string SimulationModule.t)
    (module : SimulationModule.t) :
  registry_consistent reg -> registry_consistent (<[cls module := module]> reg).
Proof.
  intros Hreg k m. destruct (decide (cls module = k)) as [<-|Hne].
  - rewrite lookup_insert_eq. by intros [= <-].
  - rewrite lookup_insert_ne by done. apply Hreg.
Qed.

Lemma registered_cls (reg : gmap string SimulationModule.t) :
  registry_consistent reg -> cls <$> registered reg = (map_to_list reg).*1.
Proof.
  intros Hreg. unfold registered.
  assert (Hall : Forall (fun km => cls km.2 = km.1) (map_to_list reg)).
  { apply Forall_forall. intros [k m] Hkm. simpl.
    apply Hreg. by apply elem_of_map_to_list. }
  induction Hall as [|[k m] l Hkm _ IH]; [done|].
  rewrite !fmap_cons. simpl in *. by rewrite Hkm, IH.
Qed.

Lemma registered_NoDup (reg : gmap string SimulationModule.t) :
  registry_consistent reg -> NoDup (cls <$> registered reg).
Proof.
  intros Hreg. rewrite registered_cls by done. apply NoDup_fst_map_to_list.
Qed.

Lemma NoDup_fmap_filter {A B : Type} (f : A -> B) (P : A -> bool) (l : list A) :
  NoDup (f <$> l) -> NoDup (f <$> List.filter P l).
Proof.
  induction l as [|x l IH]; simpl; [done|].
  intros [Hx Hnd]%NoDup_cons. destruct (P x); [|by apply IH].
  rewrite fmap_cons. apply NoDup_cons. split; [|by apply IH].
  intros Hin. apply Hx. apply list_elem_of_fmap in Hin as (y & -> & Hy).
  apply list_elem_of_fmap_2. apply list_elem_of_In in Hy.
  apply filter_In in Hy as [Hy _]. by apply list_elem_of_In.
Qed.

Lemma base_and_others (l : list SimulationModule.t) (base : SimulationModule.t)
    (bc : string) :
  NoDup (cls <$> l) -> base ∈ l -> cls base = bc ->
  l ≡ₚ base :: List.filter (fun m => negb (bool_decide (cls m = bc))) l.
Proof.
  intros Hnd Hin Hbase. induction l as [|x l IH]; [by apply elem_of_nil in Hin|].
  rewrite fmap_cons in Hnd. apply NoDup_cons in Hnd as [Hx Hnd]. simpl.
  case_bool_decide as Hc; simpl.
  - assert (x = base) as ->.
    { apply elem_of_cons in Hin as [->|Hin]; [done|]. exfalso. apply Hx.
      rewrite Hc, <- Hbase. by apply list_elem_of_fmap_2. }
    f_equiv. clear IH Hin.
    induction l as [|y l IH]; [done|]. simpl.
    rewrite fmap_cons in Hx, Hnd. apply NoDup_cons in Hnd as [_ Hnd].
    rewrite bool_decide_eq_false_2; simpl.
    + f_equiv. apply IH; [|done]. intros Hin. apply Hx. by right.
    + intros Hy. apply Hx. rewrite Hbase, <- Hy. by left.
  - apply elem_of_cons in Hin as [->|Hin]; [done|].
    rewrite (IH Hnd Hin) at 1. apply Permutation_swap.
Qed.

(** X16.  When [register_module] returns, the module is filed under its
    class, the base module is the first of the ordered modules, the
    ordered modules are the registered modules, each once, and every
    module after the base module comes after the modules of all its
    declared dependencies. *)
Theorem register_module_order
    (pop_order : list SimulationModule.t -> list SimulationModule.t)
    (sim sim' : Simulation.t) (module : SimulationModule.t) :
  (forall l, pop_order l ≡ₚ l) ->
  registry_consistent (Simulation._modules sim) ->
  Simulation.register_module pop_order sim module = Ok sim' ->
  registry_consistent (Simulation._modules sim')
  /\ Simulation._modules sim' !! cls module = Some module
  /\ exists base rest,
       Simulation._ordered_modules sim' = base :: rest
       /\ Simulation._modules sim' !! Simulation.base_class = Some base
       /\ base :: rest ≡ₚ registered (Simulation._modules sim')
       /\ after_dependencies cls deps (Simulation._modules sim') rest.
Proof.
  intros Hperm Hreg. unfold Simulation.register_module, Simulation.reorder.
  set (reg := <[cls module := module]> (Simulation._modules sim)).
  assert (Hreg' : registry_consistent reg)
    by (by apply registry_consistent_insert).
  unfold registry_get.
  destruct (reg !! Simulation.base_class) as [base|] eqn:Hbase; simpl; [|done].
  destruct (sort_modules cls deps (Simulation.modules_to_sort pop_order reg) reg)
    as [ordered|] eqn:Hsort; simpl; [|done].
  intros [= <-]. simpl.
  split; [done|]. split; [by unfold reg; rewrite lookup_insert_eq|].
  exists base, ordered. split; [done|]. split; [done|].
  pose proof (registered_NoDup reg Hreg') as Hnd.
  assert (Hnd' : NoDup (cls <$> Simulation.modules_to_sort pop_order reg)).
  { unfold Simulation.modules_to_sort. rewrite Hperm. by apply NoDup_fmap_filter. }
  destruct (sort_modules_sound cls deps reg _ _ Hnd' Hsort) as [Hordered Hafter].
  split; [|done].
  rewrite Hordered. unfold Simulation.modules_to_sort. rewrite Hperm.
  symmetry. apply base_and_others; [done| |by apply Hreg'].
  apply list_elem_of_fmap. exists (Simulation.base_class, base).
  split; [done|]. by apply elem_of_map_to_list.
Qed.


End ModuleRegistry.

Section ModuleRegistryExamples.

(** A simulation as [Simulation()] leaves it. *)
Definition new_simulation : Simulation.t :=
  Simulation.set_modules Simulation.blank
    (<[SimulationModule.cls base_module := base_module]> ∅) [base_module].

Lemma register_module_order_witness :
  Simulation.register_module (fun l => l) Simulation.blank base_module
  = Ok new_simulation
  /\ exists sim1 base rest,
       Simulation.register_module (fun l => l) new_simulation module_a = Ok sim1
       /\ Simulation._ordered_modules sim1 = base :: rest
       /\ Simulation._modules sim1 !! Simulation.base_class = Some base.
Proof.
  split; [vm_compute; reflexivity|].
  assert (exists sim1,
    Simulation.register_module (fun l => l) new_simulation module_a = Ok sim1)
    as [sim1 Hrun] by (eexists; vm_compute; reflexivity).
  destruct (register_module_order (fun l => l) new_simulation sim1 module_a)
    as (_ & _ & base & rest & Hord & Hbase & _).
  - done.
  - apply registry_consistent_insert. intros k m. by rewrite lookup_empty.
  - exact Hrun.
  - exists sim1, base, rest.
    split; [exact Hrun|]. split; [exact Hord | exact Hbase].
Defined.


End ModuleRegistryExamples.

(** ** Aging and the step loop, at their edges *)

Section AgingEdges.
Import Util BaseSimulationModule.

(** X19.  On a mask of the length of the population, [advance_age] moves
    the fractional age of the rows the mask selects, and of no other row,
    to the double nearest to its sum with [days / 365.0]; it recomputes
    the age of every row from its fractional age and writes nothing else
    (no fractional age is NaN or infinite afterwards).  On a mask of
    another length it raises [IndexError]. *)
Theorem advance_age_frame
    (label : option string) (mask : nat) (sim : Simulation.t) (m : list bool) :
  Simulation.arrays sim !! mask = Some m ->
  (length m <> length (Simulation.population sim) ->
   exists msg, advance_age label mask sim = Raise (IndexError msg))
  /\ (length m = length (Simulation.population sim) ->
      (forall i s (b : bool),
         Simulation.population sim !! i = Some s -> m !! i = Some b ->
         Float64.finite (aged b (Simulation.last_time_step sim) s) = true) ->
      exists sim',
        advance_age label mask sim = Ok sim'
        /\ Simulation.arrays sim' = Simulation.arrays sim
        /\ Simulation.current_time sim' = Simulation.current_time sim
        /\ Simulation.yld_by_year sim' = Simulation.yld_by_year sim
        /\ length (Simulation.population sim') = length (Simulation.population sim)
        /\ forall i s (b : bool),
             Simulation.population sim !! i = Some s -> m !! i = Some b ->
             exists s',
               Simulation.population sim' !! i = Some s'
               /\ alive s' = alive s /\ year s' = year s /\ others s' = others s
               /\ fractional_age s'
                  = (if b then (fractional_age s
                                + age_step (Simulation.last_time_step sim))%float
                     else fractional_age s)
               /\ astype_int (fractional_age s') = Ok (age s')).
Proof.
  intros Hm. split.
  - intros Hlen. unfold advance_age. rewrite Hm. simpl.
    rewrite bool_decide_eq_false_2 by done. by eexists.
  - intros Hlen Hfin. by apply advance_age_rows.
Qed.

Lemma advance_age_frame_witness :
  exists sim',
    advance_age (Some "time_step") 0
      (Simulation.set_arrays cohort [[true; false]]) = Ok sim'
    /\ fractional_age <$> Simulation.population sim' = [41%float; 72.5%float].
Proof.
  destruct (advance_age_frame (Some "time_step") 0
              (Simulation.set_arrays cohort [[true; false]]) [true; false] eq_refl)
    as [_ Hok].
  destruct (Hok eq_refl) as (sim' & Hrun & _).
  - intros [|[|i]] s b Hs Hb; simpl in Hs, Hb; simplify_eq; reflexivity.
  - exists sim'. split; [exact Hrun|].
    vm_compute in Hrun. injection Hrun as <-. reflexivity.
Defined.

End AgingEdges.

Section StepLoopEdges.
Import Util.

Variable year_of : Z -> Z.
Variable set_iter : gset string -> list string.
Variable call : string -> option string -> nat -> Simulation.t -> result Simulation.t.

Local Abbreviation run_iteration := (Simulation.run_iteration year_of set_iter call).
Local Abbreviation run_loop := (Simulation.run_loop year_of set_iter call).
Local Abbreviation run := (Simulation.run year_of set_iter call).

(** X20.  When the end time is before the start time, [run] makes no turn
    of its loop: it sets the clock and the step and returns, whatever the
    step and the listeners are. *)
Theorem run_empty_range
    (fuel : nat) (sim : Simulation.t) (start_time end_time : Z)
    (time_step : timedelta) :
  end_time < start_time ->
  run fuel sim start_time end_time time_step
  = Some (Ok (Simulation.set_last_time_step
                (Simulation.set_current_time sim start_time) time_step)).
Proof.
  intros Hlt. unfold Simulation.run.
  destruct fuel; simpl; by rewrite (proj2 (Z.leb_gt _ _)).
Qed.

Lemma run_loop_past_end fuel end_time time_step sim sim' :
  run_loop fuel end_time time_step sim = Some (Ok sim') ->
  end_time < Simulation.current_time sim'.
Proof.
  revert sim. induction fuel as [|fuel IH]; intros sim; simpl.
  - destruct (Z.leb_spec (Simulation.current_time sim) end_time); [done|].
    by intros [= <-].
  - destruct (Z.leb_spec (Simulation.current_time sim) end_time).
    + destruct (run_iteration time_step sim) as [sim1|]; [apply IH | done].
    + by intros [= <-].
Qed.

Lemma run_loop_never_returns fuel end_time time_step sim sim' :
  total_microseconds time_step <= 0 -> keeps_clock call ->
  Simulation.current_time sim <= end_time ->
  run_loop fuel end_time time_step sim <> Some (Ok sim').
Proof.
  intros Hstep Hclock. revert sim.
  induction fuel as [|fuel IH]; intros sim Hle; simpl.
  - by rewrite (proj2 (Z.leb_le _ _)).
  - rewrite (proj2 (Z.leb_le _ _)) by done.
    destruct (run_iteration time_step sim) as [sim1|] eqn:Hit; [|done].
    apply IH.
    rewrite (run_iteration_clock year_of set_iter call _ _ _ Hclock Hit). lia.
Qed.

(** X21.  With a step that is zero or negative and a start time that is not
    after the end time, [run] never returns: however many turns the loop
    is given, it is still running or a listener has raised (the listeners
    leave the clock alone). *)
Theorem run_never_returns
    (fuel : nat) (sim sim' : Simulation.t) (start_time end_time : Z)
    (time_step : timedelta) :
  total_microseconds time_step <= 0 -> keeps_clock call ->
  start_time <= end_time ->
  run fuel sim start_time end_time time_step <> Some (Ok sim').
Proof.
  intros Hstep Hclock Hle. unfold Simulation.run.
  by apply run_loop_never_returns.
Qed.

Lemma iterations_clock n time_step sim sim' :
  keeps_clock call ->
  iterations year_of set_iter call n time_step sim = Ok sim' ->
  Simulation.current_time sim'
  = Simulation.current_time sim + Z.of_nat n * total_microseconds time_step.
Proof.
  intros Hclock. revert sim. induction n as [|n IH]; intros sim.
  - simpl. intros [= <-]. lia.
  - cbn [iterations].
    destruct (run_iteration time_step sim) as [sim1|] eqn:Hit; simpl; [|done].
    intros Hrest. rewrite (IH _ Hrest).
    rewrite (run_iteration_clock year_of set_iter call _ _ _ Hclock Hit). lia.
Qed.

(** X22.  When [run] returns, the clock is past the end time; with a
    positive step and listeners that leave the clock alone it stands at
    the start time plus one step for each turn of the loop, the first of
    the times [start + k Δt] that is after the end time. *)
Theorem run_final_clock
    (fuel : nat) (sim sim' : Simulation.t) (start_time end_time : Z)
    (time_step : timedelta) :
  run fuel sim start_time end_time time_step = Some (Ok sim') ->
  end_time < Simulation.current_time sim'
  /\ (0 < total_microseconds time_step -> keeps_clock call ->
      (turns start_time end_time time_step <= fuel)%nat ->
      Simulation.current_time sim'
      = start_time
        + Z.of_nat (turns start_time end_time time_step)
          * total_microseconds time_step
      /\ Simulation.current_time sim' - total_microseconds time_step
         <= Z.max end_time (start_time - total_microseconds time_step)).
Proof.
  intros Hrun. split; [by eapply run_loop_past_end|].
  intros Hstep Hclock Hfuel. unfold Simulation.run in Hrun.
  rewrite (run_loop_iterations year_of set_iter call) in Hrun by done.
  injection Hrun as Hrun. apply iterations_clock in Hrun; [|done].
  simpl in Hrun. split; [done|]. rewrite Hrun.
  destruct (Z.leb_spec start_time end_time) as [Hle|Hlt].
  - unfold turns.
    pose proof (Z.mul_div_le (end_time - start_time)
                  (total_microseconds time_step) Hstep).
    assert (0 <= (end_time - start_time) / total_microseconds time_step)
      by (apply Z.div_pos; lia).
    rewrite Z2Nat.id by lia. lia.
  - rewrite turns_done by done. lia.
Qed.

End StepLoopEdges.

Section StepLoopEdgesExamples.
Import Util.

Lemma run_empty_range_witness :
  Simulation.run example_year elements example_call 0 example_simulation
    10 0 (mk_timedelta 1 0 0)
  = Some (Ok (Simulation.set_last_time_step
                (Simulation.set_current_time example_simulation 10)
                (mk_timedelta 1 0 0))).
Proof. apply run_empty_range. lia. Defined.

Lemma run_never_returns_witness :
  Simulation.run example_year elements example_call 3 example_simulation
    0 10 (mk_timedelta 0 0 0)
  <> Some (Ok example_simulation).
Proof.
  apply run_never_returns.
  - vm_compute. discriminate.
  - exact example_call_keeps_clock.
  - lia.
Defined.

Lemma run_final_clock_witness :
  exists sim',
    Simulation.run example_year elements example_call 5 example_simulation
      0 (365 * 86400 * 1000000) (mk_timedelta 365 0 0) = Some (Ok sim')
    /\ 365 * 86400 * 1000000 < Simulation.current_time sim'.
Proof.
  assert (exists sim',
    Simulation.run example_year elements example_call 5 example_simulation
      0 (365 * 86400 * 1000000) (mk_timedelta 365 0 0) = Some (Ok sim'))
    as [sim' Hrun] by (eexists; vm_compute; reflexivity).
  exists sim'. split; [exact Hrun|].
  exact (proj1 (run_final_clock _ _ _ _ _ _ _ _ _ Hrun)).
Defined.

End StepLoopEdgesExamples.

(** ** Interpolation: what succeeds *)

Section InterpolationSuccess.
Import Interpolation.

Lemma assign_index table sub_table value_column out :
  index (assign table sub_table value_column out) = index table.
Proof. done. Qed.

Lemma evaluate_group_Ok (self : t) (table : Table) (group : list Z * DataFrame) :
  (empty group.2 = false -> is_Some (interpolations self !! group.1)) ->
  (forall c, c ∈ parameter_columns self -> c ∈ columns group.2) ->
  exists table',
    evaluate_group self table group = Ok table' /\ index table' = index table.
Proof.
  destruct group as [key sub_table]. simpl. intros Hkey Hparams.
  unfold evaluate_group. destruct (empty sub_table); [by eexists|].
  destruct Hkey as [funcs Hfuncs]; [done|]. unfold func in *. rewrite Hfuncs.
  destruct (series_Ok sub_table (parameter_columns self) Hparams) as [xs ->].
  simpl. eexists. split; [reflexivity|]. clear Hfuncs.
  generalize table. induction funcs as [|[vc f] funcs IH]; intros table0;
    [reflexivity|].
  simpl. rewrite IH. apply assign_index.
Qed.

Lemma evaluate_all_Ok (self : t) (tables : list (list Z * DataFrame)) (table : Table) :
  (forall g, g ∈ tables -> empty g.2 = false -> is_Some (interpolations self !! g.1)) ->
  (forall g c, g ∈ tables -> c ∈ parameter_columns self -> c ∈ columns g.2) ->
  exists table',
    for_each (evaluate_group self) tables table = Ok table'
    /\ index table' = index table.
Proof.
  revert table. induction tables as [|g tables IH]; intros table Hkeys Hparams.
  - by eexists.
  - simpl. destruct (evaluate_group_Ok self table g) as (table1 & -> & Hidx).
    + apply Hkeys. by left.
    + intros c. apply Hparams. by left.
    + simpl. destruct (IH table1) as (table' & Hrun & Hidx').
      * intros g' Hg'. apply Hkeys. by right.
      * intros g' c Hg'. apply Hparams. by right.
      * exists table'. split; [done | congruence].
Qed.

Lemma sub_tables_spec (df : DataFrame) (key_columns : list string) :
  (forall c, c ∈ key_columns -> c ∈ columns df) ->
  exists tables,
    sub_tables df key_columns = Ok tables
    /\ forall g, g ∈ tables ->
         columns g.2 = columns df
         /\ (empty g.2 = false ->
             exists row, row ∈ rows df
                         /\ key_tuple df key_columns row = Some g.1).
Proof.
  intros Hkeys. unfold sub_tables, key_tuple.
  destruct key_columns as [|kc kcs].
  - eexists. split; [done|]. intros g ->%list_elem_of_singleton. simpl.
    split; [done|]. unfold empty. destruct (rows df) as [|row rs]; [done|].
    intros _. exists row. split; [by left | done].
  - unfold groupby. destruct (positions_Ok df (kc :: kcs) Hkeys) as [ps ->]. simpl.
    eexists. split; [done|]. intros g Hg.
    apply list_elem_of_fmap in Hg as ([k members] & -> & Hg). simpl.
    split; [done|]. intros _.
    pose proof (grouped_spec (fun r => map (fun i => cell i r) ps) (rows df))
      as [_ Hgroups].
    destruct (proj1 (Hgroups k)) as (row & Hrow & Hk).
    + apply list_elem_of_fmap. by exists (k, members).
    + exists row. split; [done|]. by rewrite Hk.
Qed.

(** X24.  Evaluation returns a table over the index of the query when the
    query has the key columns and the kept parameter columns and the key
    tuple of each of its rows has an interpolation. *)
Theorem call_succeeds (self : t) (interpolants : DataFrame) :
  (forall c, c ∈ parameter_columns self -> c ∈ columns interpolants) ->
  (forall c, c ∈ key_columns self -> c ∈ columns interpolants) ->
  (forall row k,
      row ∈ rows interpolants ->
      key_tuple interpolants (key_columns self) row = Some k ->
      is_Some (interpolations self !! k)) ->
  exists table,
    __call__ self interpolants = Ok table
    /\ index table = (rows interpolants).*1.
Proof.
  intros Hparams Hkeys Hknown. unfold __call__, validate_call_data.
  rewrite (proj2 (forallb_has_column _ _) Hparams).
  rewrite (proj2 (forallb_has_column _ _) Hkeys). simpl.
  rewrite andb_false_r. simpl.
  destruct (sub_tables_spec interpolants (key_columns self) Hkeys)
    as (tables & -> & Htables). simpl.
  apply evaluate_all_Ok.
  - intros g Hg Hne. destruct (Htables g Hg) as [_ Hrow].
    destruct (Hrow Hne) as (row & Hin & Hk). by eapply Hknown.
  - intros g c Hg Hc. destruct (Htables g Hg) as [-> _]. by apply Hparams.
Qed.

Lemma call_succeeds_witness :
  exists self,
    __init__ flat_fit one_year ["sex"] ["age"; "year"] 1 = Ok self
    /\ exists table,
         __call__ self no_year = Ok table
         /\ index table = [0%nat; 1%nat].
Proof.
  eexists. split; [vm_compute; reflexivity|].
  match goal with |- exists _, __call__ ?s _ = _ /\ _ => set (self := s) end.
  destruct (call_succeeds self no_year) as (table & Hrun & Hidx).
  - intros c Hc. apply list_elem_of_singleton in Hc as ->. set_solver.
  - intros c Hc. apply list_elem_of_singleton in Hc as ->. set_solver.
  - intros row k Hrow Hk. unfold no_year in Hrow. simpl in Hrow.
    apply elem_of_cons in Hrow as [-> | Hrow];
      [|apply list_elem_of_singleton in Hrow as ->];
      vm_compute in Hk; injection Hk as <-; vm_compute; by eexists.
  - exists table. split; [exact Hrun|]. rewrite Hidx. reflexivity.
Defined.

End InterpolationSuccess.

(** ** Interpolation: construction *)

Section InterpolationConstruction.
Import Interpolation.

Lemma position_lookup (df : DataFrame) (name : string) (i : nat) :
  position df name = Ok i -> columns df !! i = Some name.
Proof.
  unfold position.
  destruct (list_find _ (columns df)) as [[j c]|] eqn:Hfind; [|done].
  intros [= <-]. apply list_find_Some in Hfind as (Hj & -> & _). done.
Qed.

Lemma positions_elem (df : DataFrame) (names : list string) (ps : list nat) :
  comprehension (position df) names = Ok ps ->
  forall c, c ∈ names -> c ∈ columns df.
Proof.
  intros Hps%comprehension_inv c Hc.
  apply list_elem_of_lookup in Hc as [j Hj].
  destruct (Forall2_lookup_l _ _ _ _ _ Hps Hj) as (i & _ & Hi).
  apply position_lookup in Hi. by eapply list_elem_of_lookup_2.
Qed.

Lemma drop_column_spec (df df' : DataFrame) (name : string) :
  drop_column df name = Ok df' ->
  length (rows df') = length (rows df)
  /\ (forall c, c ∈ columns df' -> c ∈ columns df)
  /\ (forall c, c ∈ columns df -> c <> name -> c ∈ columns df').
Proof.
  unfold drop_column.
  destruct (position df name) as [i|] eqn:Hpos; simpl; [|done].
  intros [= <-]. simpl. apply position_lookup in Hpos.
  split; [by rewrite length_map|].
  rewrite delete_take_drop.
  pose proof (take_drop_middle _ _ _ Hpos) as Hmid.
  generalize dependent (take i (columns df)). intros l1.
  generalize dependent (drop (S i) (columns df)). intros l2 Hmid.
  rewrite <- Hmid.
  split; intros c; rewrite !elem_of_app, ?elem_of_cons; naive_solver.
Qed.

Lemma keep_or_drop_all (order : Z) (ps out0 out : list string) (data0 data' : DataFrame) :
  for_each (keep_or_drop order) ps (out0, data0) = Ok (out, data') ->
  exists kept,
    out = out0 ++ kept
    /\ kept `sublist_of` ps
    /\ length (rows data') = length (rows data0)
    /\ (forall c, c ∈ columns data' -> c ∈ columns data0)
    /\ (forall c, c ∈ columns data0 -> c ∉ ps -> c ∈ columns data')
    /\ (NoDup ps -> forall c, c ∈ kept -> c ∈ columns data').
Proof.
  revert out0 data0. induction ps as [|p ps IH]; intros out0 data0; simpl.
  - intros [= <- <-]. exists []. rewrite app_nil_r.
    repeat split; try done. intros _ c Hc. by apply elem_of_nil in Hc.
  - unfold series at 1.
    destruct (position data0 p) as [i|] eqn:Hpos; simpl; [|done].
    destruct (order <? count_unique _) eqn:Hcount; simpl.
    + intros Hrest. destruct (IH _ _ Hrest) as (kept & -> & Hsub & Hlen & Hin & Hout & Hkept).
      exists (p :: kept). rewrite <- app_assoc. simpl.
      split; [done|]. split; [by constructor|]. split; [done|].
      split; [done|]. split.
      * intros c Hc Hnot. apply Hout; [done|]. intros Hps. apply Hnot. by right.
      * intros [Hp Hnd]%NoDup_cons c [->|Hc]%elem_of_cons; [|by apply Hkept].
        apply Hout; [|done]. apply position_lookup in Hpos.
        by eapply list_elem_of_lookup_2.
    + destruct (drop_column data0 p) as [data1|] eqn:Hdrop; simpl; [|done].
      intros Hrest. destruct (IH _ _ Hrest) as (kept & -> & Hsub & Hlen & Hin & Hout & Hkept).
      destruct (drop_column_spec _ _ _ Hdrop) as (Hlen1 & Hin1 & Hout1).
      exists kept. split; [done|]. split; [by apply sublist_cons|].
      split; [congruence|]. split; [by intros c Hc; apply Hin1, Hin|]. split.
      * intros c Hc Hnot. apply Hout.
        -- apply Hout1; [done|]. intros ->. apply Hnot. by left.
        -- intros Hps. apply Hnot. by right.
      * intros [_ Hnd]%NoDup_cons. by apply Hkept.
Qed.

Lemma insert_name_elem (x c : string) (l : list string) :
  c ∈ insert_name x l <-> c = x \/ c ∈ l.
Proof.
  induction l as [|y l IH]; simpl; [set_solver|].
  destruct (String.leb x y); [set_solver|].
  rewrite !elem_of_cons, IH. naive_solver.
Qed.

Lemma sorted_names_elem (c : string) (l : list string) :
  c ∈ sorted_names l <-> c ∈ l.
Proof.
  unfold sorted_names. induction l as [|x l IH]; simpl; [done|].
  rewrite insert_name_elem, IH. set_solver.
Qed.

Lemma validate_parameters_Ok
    (data : DataFrame) (categorical continuous : list string) (order : Z)
    (out : list string) (data' : DataFrame) (value_columns : list string) :
  validate_parameters data categorical continuous order
  = Ok (out, data', value_columns) ->
  out `sublist_of` continuous
  /\ value_columns <> []
  /\ (forall c, c ∈ value_columns
                <-> c ∈ columns data' /\ c ∉ categorical ++ continuous)
  /\ length (rows data') = length (rows data)
  /\ (forall c, c ∈ columns data' -> c ∈ columns data)
  /\ (NoDup continuous -> forall c, c ∈ out -> c ∈ columns data').
Proof.
  unfold validate_parameters.
  case_bool_decide; simpl; [|done]. case_bool_decide; simpl; [|done].
  destruct (for_each _ continuous ([], data)) as [[out1 data1]|] eqn:Hloop;
    simpl; [|done].
  destruct (keep_or_drop_all _ _ _ _ _ _ Hloop)
    as (kept & -> & Hsub & Hlen & Hin & _ & Hkept). simpl.
  destruct (sorted_names _) as [|v vs] eqn:Hvs; [done|].
  intros [= <- <- <-]. rewrite <- Hvs.
  split; [done|]. split; [by rewrite Hvs|]. split; [|done].
  intros c. rewrite sorted_names_elem, elem_of_remove_dups, list_elem_of_In.
  rewrite filter_In, <- list_elem_of_In, negb_true_iff, bool_decide_eq_false.
  done.
Qed.

(** X23.  [validate_parameters] refuses an order other than 0 and 1 and a
    number of continuous parameters other than 1 and 2; when it returns,
    the parameters it keeps are continuous parameters in the order given,
    the value columns are the columns of the returned table that are not
    parameters and there is at least one, and the returned table has the
    rows of the table given and no column that one did not have. *)
Theorem validate_parameters_contract
    (data : DataFrame) (categorical continuous : list string) (order : Z) :
  (order ∉ [0; 1] ->
   validate_parameters data categorical continuous order
   = Raise (ValueError order_message))
  /\ (order ∈ [0; 1] -> length continuous ∉ [1%nat; 2%nat] ->
      validate_parameters data categorical continuous order
      = Raise (ValueError variables_message))
  /\ (forall out data' value_columns,
        validate_parameters data categorical continuous order
        = Ok (out, data', value_columns) ->
        out `sublist_of` continuous
        /\ value_columns <> []
        /\ (forall c, c ∈ value_columns
                      <-> c ∈ columns data' /\ c ∉ categorical ++ continuous)
        /\ length (rows data') = length (rows data)
        /\ (forall c, c ∈ columns data' -> c ∈ columns data)
        /\ (NoDup continuous -> forall c, c ∈ out -> c ∈ columns data')).
Proof.
  split; [|split].
  - intros Horder. unfold validate_parameters.
    by rewrite bool_decide_eq_false_2.
  - intros Horder Hcount. unfold validate_parameters.
    by rewrite bool_decide_eq_true_2, bool_decide_eq_false_2.
  - apply validate_parameters_Ok.
Qed.

Lemma validate_parameters_contract_witness :
  exists data',
    validate_parameters one_year ["sex"] ["age"; "year"] 1
    = Ok (["age"], data', ["value"])
    /\ ["age"] `sublist_of` ["age"; "year"]
    /\ length (rows data') = 4%nat.
Proof.
  eexists.
  match goal with |- ?run = Ok (_, ?d, _) /\ _ =>
    assert (Hrun : run = Ok (["age"], d, ["value"])) by (vm_compute; reflexivity)
  end.
  split; [exact Hrun|].
  destruct (proj2 (proj2 (validate_parameters_contract one_year ["sex"]
                            ["age"; "year"] 1)) _ _ _ Hrun)
    as (Hsub & _ & _ & Hlen & _).
  split; [exact Hsub | exact Hlen].
Defined.

Section Scipy.

Variable fit : fitter -> Z -> list (list Z) -> list Z -> result func.

Lemma build_all_names parameter_columns order base_table value_columns funcs :
  comprehension (build fit parameter_columns order base_table) value_columns
  = Ok funcs ->
  funcs.*1 = value_columns.
Proof.
  intros Hall%comprehension_inv.
  induction Hall as [|vc [vc' f] vcs funcs Hvc _ IH]; [done|].
  rewrite fmap_cons, IH. f_equal. simpl. unfold build in Hvc.
  destruct (if bool_decide (length parameter_columns = 2%nat) then _ else _);
    simpl in Hvc; [|done].
  by injection Hvc as <- _.
Qed.

Lemma init_loop parameter_columns order value_columns tables acc0 acc :
  for_each
    (fun (acc : gmap (list Z) (list (string * func))) '(key, base_table) =>
       if empty base_table then Ok acc
       else
         funcs <- comprehension (build fit parameter_columns order base_table)
                    value_columns ;;
         Ok (<[key := funcs]> acc))
    tables acc0 = Ok acc ->
  (forall k, is_Some (acc0 !! k) -> is_Some (acc !! k))
  /\ (forall g, g ∈ tables -> empty g.2 = false -> is_Some (acc !! g.1))
  /\ ((forall k funcs, acc0 !! k = Some funcs -> funcs.*1 = value_columns) ->
      forall k funcs, acc !! k = Some funcs -> funcs.*1 = value_columns).
Proof.
  revert acc0. induction tables as [|[key bt] tables IH]; intros acc0; simpl.
  - intros [= <-]. split; [done|]. split; [|done].
    intros g Hg. by apply elem_of_nil in Hg.
  - destruct (empty bt) eqn:Hempty; simpl.
    + intros Hrest. destruct (IH _ Hrest) as (Hmono & Hkeys & Hnames).
      split; [done|]. split; [|done].
      intros g [->|Hg]%elem_of_cons; [simpl; congruence | by apply Hkeys].
    + destruct (comprehension _ value_columns) as [funcs|] eqn:Hfuncs; simpl; [|done].
      intros Hrest. destruct (IH _ Hrest) as (Hmono & Hkeys & Hnames).
      split; [|split].
      * intros k Hk. apply Hmono. destruct (decide (key = k)) as [->|Hne].
        -- rewrite lookup_insert_eq. eauto.
        -- by rewrite lookup_insert_ne.
      * intros g [->|Hg]%elem_of_cons; [|by apply Hkeys].
        intros _. apply Hmono. simpl. rewrite lookup_insert_eq. eauto.
      * intros Hacc0. apply Hnames. intros k funcs'.
        destruct (decide (key = k)) as [->|Hne].
        -- rewrite lookup_insert_eq. intros [= <-].
           by eapply build_all_names.
        -- rewrite lookup_insert_ne by done. apply Hacc0.
Qed.

(** X25.  An interpolation that [__init__] builds (over distinct continuous
    parameters) keeps the key columns given and continuous parameters
    among those given, holds for each key one function per value column,
    and can be evaluated on the table it was built from: the evaluation
    returns a table over the index of that table. *)
Theorem init_then_call
    (data : DataFrame) (categorical continuous : list string) (order : Z)
    (self : t) :
  NoDup continuous ->
  __init__ fit data categorical continuous order = Ok self ->
  key_columns self = categorical
  /\ parameter_columns self `sublist_of` continuous
  /\ length (rows (_data self)) = length (rows data)
  /\ (exists value_columns,
        value_columns <> []
        /\ forall k funcs, interpolations self !! k = Some funcs ->
                           funcs.*1 = value_columns)
  /\ exists table,
       __call__ self (_data self) = Ok table
       /\ index table = (rows (_data self)).*1.
Proof.
  intros Hnd. unfold __init__.
  destruct (validate_parameters data categorical continuous order)
    as [[[pcs data'] vcols]|] eqn:Hval; simpl; [|done].
  destruct (validate_parameters_Ok _ _ _ _ _ _ _ Hval)
    as (Hsub & Hvne & _ & Hlen & _ & Hkept).
  destruct (sub_tables data' categorical) as [tables|] eqn:Htables; simpl; [|done].
  destruct (for_each _ tables ∅) as [interps|] eqn:Hloop; simpl; [|done].
  intros [= <-]. simpl.
  destruct (init_loop _ _ _ _ _ _ Hloop) as (_ & Hkeys & Hnames).
  split; [done|]. split; [done|]. split; [done|]. split.
  { exists vcols. split; [done|]. apply Hnames. intros k funcs.
    by rewrite lookup_empty. }
  assert (Hcat : forall c, c ∈ categorical -> c ∈ columns data').
  { destruct categorical as [|kc kcs]; [by intros c ?%elem_of_nil|].
    simpl in Htables. unfold groupby in Htables.
    destruct (comprehension (position data') (kc :: kcs)) as [ps|] eqn:Hps;
      simpl in Htables; [|done].
    by eapply positions_elem. }
  unfold __call__, validate_call_data. simpl.
  rewrite (proj2 (forallb_has_column _ _) (Hkept Hnd)).
  rewrite (proj2 (forallb_has_column _ _) Hcat). simpl.
  rewrite andb_false_r. simpl. rewrite Htables. simpl.
  destruct (sub_tables_spec data' categorical Hcat) as (tables' & Htables' & Hspec).
  rewrite Htables in Htables'. injection Htables' as <-.
  apply (evaluate_all_Ok (mk categorical pcs data' interps)).
  - intros g Hg Hne. simpl. by apply Hkeys.
  - intros g c Hg Hc. destruct (Hspec g Hg) as [-> _]. by apply Hkept.
Qed.

End Scipy.

Lemma init_then_call_witness :
  exists self table,
    __init__ flat_fit one_year ["sex"] ["age"; "year"] 1 = Ok self
    /\ __call__ self (_data self) = Ok table
    /\ index table = [0%nat; 1%nat; 2%nat; 3%nat].
Proof.
  assert (exists self,
    __init__ flat_fit one_year ["sex"] ["age"; "year"] 1 = Ok self)
    as [self Hinit] by (eexists; vm_compute; reflexivity).
  destruct (init_then_call flat_fit one_year ["sex"] ["age"; "year"] 1 self)
    as (_ & _ & _ & _ & table & Hcall & Hidx).
  - apply NoDup_cons. split; [set_solver | apply NoDup_singleton].
  - exact Hinit.
  - exists self, table. split; [exact Hinit|]. split; [exact Hcall|].
    rewrite Hidx. vm_compute in Hinit. injection Hinit as <-. reflexivity.
Defined.

End InterpolationConstruction.
